(** * AlphaAI: the forecasting pipeline and the technical indicators

    A shallow embedding of [src/services/lstmService.ts] (class [LSTMService])
    and of the indicator methods of [StockService], with the properties the
    specification states about them.

    JavaScript numbers are IEEE 754 binary64 values: they are modelled by the
    primitive type [float], whose operations round to nearest-even exactly
    as the JavaScript ones do.  Numbers that the code only uses as counters
    or indices ([lookback], [futureDays], [epochs], [period], loop
    variables) are integers. *)

From Stdlib Require Import String Ascii ZArith QArith Qfield List Bool Lia Lqa.
From Stdlib Require Import Floats.
Import ListNotations.

Set Implicit Arguments.

Local Open Scope Z_scope.

(** ** The JavaScript built-ins the two services use *)

Module JS.

(** [number] *)
Abbreviation number := float.

(** [Array.prototype.slice(start, end)]: negative indices count from the
    end, out-of-range ones are clamped, and an empty array is returned
    when [start >= end]. *)
Definition relative_index (len k : Z) : Z :=
  if k <? 0 then Z.max (len + k) 0 else Z.min k len.

Definition slice {A} (l : list A) (start fin : Z) : list A :=
  let len := Z.of_nat (length l) in
  let k := relative_index len start in
  let final := relative_index len fin in
  firstn (Z.to_nat (final - k)) (skipn (Z.to_nat k) l).

(** [slice(start)]: [end] defaults to the length. *)
Definition slice_from {A} (l : list A) (start : Z) : list A :=
  slice l start (Z.of_nat (length l)).

Definition is_neg_zero (x : number) : bool := is_zero x && get_sign x.
Definition is_pos_zero (x : number) : bool := is_zero x && negb (get_sign x).

(** [Math.min(...values)]: starts from [+Infinity]; a NaN argument makes
    the result NaN; [-0] is smaller than [+0]. *)
Fixpoint min_from (lowest : number) (values : list number) : number :=
  match values with
  | [] => lowest
  | x :: rest =>
      if is_nan x then nan
      else if is_neg_zero x && is_pos_zero lowest then min_from x rest
      else if (x <? lowest)%float then min_from x rest
      else min_from lowest rest
  end.

Definition Math_min (values : list number) : number :=
  min_from infinity values.

(** [Math.max(...values)]: starts from [-Infinity]; a NaN argument makes
    the result NaN; [+0] is larger than [-0]. *)
Fixpoint max_from (highest : number) (values : list number) : number :=
  match values with
  | [] => highest
  | x :: rest =>
      if is_nan x then nan
      else if is_pos_zero x && is_neg_zero highest then max_from x rest
      else if (highest <? x)%float then max_from x rest
      else max_from highest rest
  end.

Definition Math_max (values : list number) : number :=
  max_from neg_infinity values.

(** [Math.abs] *)
Definition Math_abs (x : number) : number := abs x.

(** The number an integer counter denotes (an integer below [2^63] in
    absolute value; exact below [2^53]). *)
Definition of_int (z : Z) : number :=
  match z with
  | Z0 => zero
  | Zpos _ => of_uint63 (Uint63.of_Z z)
  | Zneg _ => (- of_uint63 (Uint63.of_Z (- z)))%float
  end.

(** [for (let i = from; i < to; i++)]: the values [i] takes. *)
Definition range (from to : Z) : list Z :=
  map (fun k => from + Z.of_nat k) (seq 0 (Z.to_nat (to - from))).

(** [throw new Error(message)], and the [TypeError] of the built-ins. *)
Inductive error : Type :=
| Error (message : string)
| TypeError (message : string).

(** The outcome of a call that may throw. *)
Inductive result (A : Type) : Type :=
| Ok (value : A)
| Throw (e : error).
Arguments Ok {A} value.
Arguments Throw {A} e.

Definition bind {A B} (r : result A) (k : A -> result B) : result B :=
  match r with
  | Ok value => k value
  | Throw e => Throw e
  end.

(** [Array.prototype.reduce(f, initial)] *)
Definition reduce_from {A B} (f : B -> A -> B) (initial : B) (l : list A) : B :=
  fold_left f l initial.

(** [Array.prototype.reduce(f)]: the first element is the initial value,
    and an empty array is a [TypeError]. *)
Definition reduce {A} (f : A -> A -> A) (l : list A) : result A :=
  match l with
  | [] => Throw (TypeError "Reduce of empty array with no initial value")
  | first :: rest => Ok (fold_left f rest first)
  end.

(** Truthiness of a number: [0], [-0] and [NaN] are falsy. *)
Definition truthy (x : number) : bool := negb (is_zero x || is_nan x).

(** [x || fallback] for a number that may be [undefined]. *)
Definition or_else (x : option number) (fallback : number) : number :=
  match x with
  | Some v => if truthy v then v else fallback
  | None => fallback
  end.



(** [Array.prototype.map((x, index) => ...)] *)
Definition map_indexed {A B} (f : A -> nat -> B) (l : list A) : list B :=
  map (fun '(index, x) => f x index) (combine (seq 0 (length l)) l).

(** [Math.floor] of a finite number, as the integer it is. *)
Definition Math_floor (x : number) : Z :=
  match Prim2SF x with
  | S754_finite s m e => Z.shiftl (cond_Zopp s (Zpos m)) e
  | _ => 0
  end.

(** The names every object literal inherits from [Object.prototype]. *)
Definition Object_prototype : list string :=
  [ "constructor"; "hasOwnProperty"; "isPrototypeOf"; "propertyIsEnumerable";
    "toLocaleString"; "toString"; "valueOf"; "__proto__";
    "__defineGetter__"; "__defineSetter__";
    "__lookupGetter__"; "__lookupSetter__" ]%string.

(** What [table[key]] reads from an object literal with number fields: the
    number of an own field, or the member of [Object.prototype] of that
    name (a function, or the prototype itself), which is an object. *)
Inductive value : Type :=
| Number (x : number)
| Inherited (name : string).

(** [table[key]]; [None] is [undefined]. *)
Definition get (table : list (string * number)) (key : string) : option value :=
  match find (fun field => String.eqb (fst field) key) table with
  | Some field => Some (Number (snd field))
  | None =>
      if existsb (String.eqb key) Object_prototype then Some (Inherited key)
      else None
  end.

(** [v || fallback]: an object is truthy. *)
Definition value_or (v : option value) (fallback : number) : value :=
  match v with
  | Some (Number x) => if truthy x then Number x else Number fallback
  | Some (Inherited name) => Inherited name
  | None => Number fallback
  end.

(** The number a value is converted to by an arithmetic operator: a
    function and [Object.prototype] convert to [NaN]. *)
Definition ToNumber (v : value) : number :=
  match v with
  | Number x => x
  | Inherited _ => nan
  end.

End JS.

Import JS.

Notation "x <- r ;; k" := (bind r (fun x => k))
  (at level 61, r at next level, right associativity).

(** ** [src/services/lstmService.ts] *)

(** [{ min: number; max: number }] *)
Record Scaler : Type := { min : number; max : number }.

(** [PredictionData] *)
Record PredictionData : Type := { date : string; prediction : number }.

(** [normalizeData] (lines 13-18) *)
Definition normalizeData (data : list number) : list number * Scaler :=
  let lo := Math_min data in
  let hi := Math_max data in
  let normalized := map (fun value => ((value - lo) / (hi - lo))%float) data in
  (normalized, {| min := lo; max := hi |}).

(** [denormalizeData] (lines 21-23) *)
Definition denormalizeData (normalizedData : list number) (scaler : Scaler)
  : list number :=
  map (fun value => (value * (max scaler - min scaler) + min scaler)%float)
      normalizedData.

(** [createSequences] (lines 26-36).  [lookback] is a count; the loop
    variable runs from [lookback] to [data.length - 1], so [data[i]] is
    always an element of [data] (the default of [nth] is never read). *)
Definition createSequences (data : list number) (lookback : nat)
  : list (list number) * list number :=
  fold_left
    (fun '(X, y) i =>
       (X ++ [slice data (i - Z.of_nat lookback) i],
        y ++ [nth (Z.to_nat i) data nan]))
    (range (Z.of_nat lookback) (Z.of_nat (length data)))
    ([], []).

(** *** What the service calls outside the repository

    [tf.LayersModel], tensor construction, [buildModel] (made of library
    calls only), [model.fit] and [model.predict] belong to TensorFlow.js,
    [toFixed] to the language and the time zone to the host: they are an
    interface here.  Any of the library calls may throw. *)
Class Backend : Type := {
  (** [tf.LayersModel] *)
  LayersModel : Type;
  (** [tf.tensor3d(X.map(...))] and [tf.tensor2d(y, [y.length, 1])]:
      [Some e] when one of them throws [e]. *)
  tensors : list (list number) -> list number -> option error;
  (** [buildModel(inputShape)] (lines 39-65): a fresh compiled model. *)
  buildModel : nat -> LayersModel;
  (** [await model.fit(xTensor, yTensor, { epochs, ... })]: the model after
      the call, and the error if the call threw. *)
  fit : LayersModel -> list (list number) -> list number -> nat ->
        LayersModel * option error;
  (** [tf.tensor3d([window.map(val => [val])])], [model.predict] and
      [(await prediction.data())[0]]. *)
  modelPredict : LayersModel -> list number -> result number;
  (** [parseFloat(x.toFixed(2))] *)
  toFixed2 : number -> number;
  (** [LocalTZA(t, isUTC)]: what the local time of the host is ahead of
      UTC, in milliseconds, at the UTC time value [t] ([isUTC] true) or at
      the local time value [t] ([isUTC] false). *)
  LocalTZA : Z -> bool -> Z
}.

(** *** Calendar days

    The days of the proleptic Gregorian calendar, counted from 1970-01-01,
    and the text [YYYY-MM-DD] of a day. *)
Module Calendar.

(** Year, month and day of month of a day count (proleptic Gregorian). *)
Definition civil (day : Z) : Z * Z * Z :=
  let z := day + 719468 in
  let era := z / 146097 in
  let doe := z mod 146097 in
  let yoe := (doe - doe / 1460 + doe / 36524 - doe / 146096) / 365 in
  let doy := doe - (365 * yoe + yoe / 4 - yoe / 100) in
  let mp := (5 * doy + 2) / 153 in
  let d := doy - (153 * mp + 2) / 5 + 1 in
  let m := if mp <? 10 then mp + 3 else mp - 9 in
  let y := yoe + era * 400 + (if m <=? 2 then 1 else 0) in
  (y, m, d).

Definition digit (n : Z) : ascii := ascii_of_nat (48 + Z.to_nat (n mod 10)).

(** The last [width] decimal digits of [n], most significant first. *)
Fixpoint digits (width : nat) (n : Z) (tail : string) : string :=
  match width with
  | O => tail
  | S w => digits w (n / 10) (String (digit n) tail)
  end.

(** [YYYY-MM-DD], with the six-digit signed year outside 0..9999. *)
Definition iso (day : Z) : string :=
  let '(y, m, d) := civil day in
  let rest := String "-" (digits 2 m (String "-" (digits 2 d EmptyString))) in
  if (0 <=? y) && (y <=? 9999) then digits 4 y rest
  else String (if y <? 0 then "-"%char else "+"%char) (digits 6 (Z.abs y) rest).

End Calendar.

(** *** [Date]

    A [Date] object holds a time value, the milliseconds since
    1970-01-01T00:00:00Z (the time values met here are inside the range of
    [Date], where [TimeClip] changes nothing).  [getDate] and [setDate] work
    on the local time of the host, [toISOString] prints the UTC time. *)
Module Date.

Definition msPerDay : Z := 86400000.

(** [Day(t)] and [TimeWithinDay(t)] *)
Definition Day (t : Z) : Z := t / msPerDay.
Definition TimeWithinDay (t : Z) : Z := t mod msPerDay.

(** [DateFromTime(t)]: the day of the month, from 1. *)
Definition DateFromTime (t : Z) : Z := snd (Calendar.civil (Day t)).

(** [MakeDay(YearFromTime(t), MonthFromTime(t), date)]: the day number of
    the first day of the month of [t], which is [DateFromTime(t) - 1] days
    before [Day(t)], moved on by [date - 1] days. *)
Definition MakeDay (t date : Z) : Z := Day t - (DateFromTime t - 1) + (date - 1).

(** [MakeDate(day, time)] *)
Definition MakeDate (day time : Z) : Z := day * msPerDay + time.

Section Host.
Context {tf : Backend}.

(** [LocalTime(t)] and [UTC(t)] *)
Definition LocalTime (t : Z) : Z := t + LocalTZA t true.
Definition UTC (t : Z) : Z := t - LocalTZA t false.

(** [d.getDate()], for the time value [t] of [d]. *)
Definition getDate (t : Z) : Z := DateFromTime (LocalTime t).

(** [d.setDate(date)]: the time value of [d] after the call. *)
Definition setDate (t date : Z) : Z :=
  let local := LocalTime t in
  UTC (MakeDate (MakeDay local date) (TimeWithinDay local)).

End Host.

(** [d.toISOString().split('T')[0]] *)
Definition toISODate (t : Z) : string := Calendar.iso (Day t).

End Date.

Section Service.
Context {tf : Backend}.

(** The two private fields of [LSTMService]. *)
Record LSTMService : Type := {
  model : option LayersModel;
  scaler : option Scaler
}.

(** [new LSTMService()] *)
Definition fresh : LSTMService := {| model := None; scaler := None |}.

Definition not_enough_data : error :=
  Error "Not enough data to train the model".
Definition not_trained : error := Error "Model not trained yet".

(** [trainModel] (lines 68-111): the service after the call and the
    outcome of the promise.  The [catch] block rethrows what it caught. *)
Definition trainModel (this : LSTMService) (prices : list number)
           (epochs lookback : nat) : LSTMService * result unit :=
  let '(normalized, fitted) := normalizeData prices in
  let this := {| model := model this; scaler := Some fitted |} in
  let '(X, y) := createSequences normalized lookback in
  if (length X =? 0)%nat then (this, Throw not_enough_data)
  else
    match tensors X y with
    | Some e => (this, Throw e)
    | None =>
        let built := buildModel lookback in
        let '(trained, thrown) := fit built X y epochs in
        let this := {| model := Some trained; scaler := scaler this |} in
        match thrown with
        | Some e => (this, Throw e)
        | None => (this, Ok tt)
        end
    end.

(** The rollout loop of [predict] (lines 129-142). *)
Fixpoint rollout (m : LayersModel) (steps : nat)
         (currentSequence predictions : list number)
  : result (list number) :=
  match steps with
  | O => Ok predictions
  | S steps' =>
      match modelPredict m currentSequence with
      | Throw e => Throw e
      | Ok predictionValue =>
          rollout m steps'
                  (slice_from currentSequence 1 ++ [predictionValue])
                  (predictions ++ [predictionValue])
      end
  end.

(** The dating loop of [predict] (lines 148-159); [lastDate] is the time
    value of the [Date] that [new Date()] returned. *)
Definition datedPredictions (lastDate : Z) (denormalized : list number)
  : list PredictionData :=
  fold_left
    (fun predictionData i =>
       let futureDate := lastDate in
       let futureDate :=
         Date.setDate futureDate (Date.getDate lastDate + i + 1) in
       predictionData ++
         [{| date := Date.toISODate futureDate;
             prediction := toFixed2 (nth (Z.to_nat i) denormalized nan) |}])
    (range 0 (Z.of_nat (length denormalized)))
    [].

(** [predict] (lines 114-167).  [now] is the time value the clock gives
    to [new Date()].  The service is not modified. *)
Definition predict (this : LSTMService) (now : Z) (prices : list number)
           (lookback futureDays : nat) : result (list PredictionData) :=
  match model this, scaler this with
  | Some m, Some s =>
      let normalizedPrices :=
        map (fun price => ((price - min s) / (max s - min s))%float) prices in
      let currentSequence :=
        slice_from normalizedPrices (- Z.of_nat lookback) in
      match rollout m futureDays currentSequence [] with
      | Throw e => Throw e
      | Ok predictions =>
          Ok (datedPredictions now (denormalizeData predictions s))
      end
  | _, _ => Throw not_trained
  end.


End Service.

(** ** The indicators of [StockService] *)

Module Stock.

(** [HistoricalPoint] *)
Record HistoricalPoint : Type := {
  date : string;
  price : number;
  volume : Z
}.

(** The date of the point that the iteration [i] of [generateMockData]
    pushes (lines 25, 26 and 34), for the time value [now] the clock gives
    to its [new Date()]. *)
Definition mockDate {tf : Backend} (now i : Z) : string :=
  let date := now in
  let date := Date.setDate date (Date.getDate date - i) in
  Date.toISODate date.

(** The dates of [generateMockData] (lines 24-37), [i] running from [days]
    down to 0; [clock k] is the time value the clock gives to the
    [new Date()] of the iteration number [k], counted from 0.  The prices
    and the volumes are random draws and are left out. *)
Definition generateMockDates {tf : Backend} (clock : nat -> Z) (days : Z)
  : list string :=
  map (fun i => mockDate (clock (Z.to_nat (days - i))) i)
      (rev (range 0 (days + 1))).

(** [data[i].price], read inside the bounds of [data] by both loops. *)
Definition price_at (data : list HistoricalPoint) (i : Z) : number :=
  nth (Z.to_nat i) (map price data) nan.

(** [calculateMovingAverage] (lines 99-112) *)
Definition calculateMovingAverage (data : list HistoricalPoint) (period : Z)
  : list number :=
  fold_left
    (fun ma i =>
       if i <? period - 1 then ma ++ [nan]
       else
         let sum :=
           reduce_from (fun acc point => (acc + price point)%float) zero
                       (slice data (i - period + 1) (i + 1)) in
         ma ++ [(sum / of_int period)%float])
    (range 0 (Z.of_nat (length data)))
    [].

(** The first loop of [calculateRSI] (lines 119-123). *)
Definition changes (data : list HistoricalPoint) : list number * list number :=
  fold_left
    (fun '(gains, losses) i =>
       let change := (price_at data i - price_at data (i - 1))%float in
       (gains ++ [if (zero <? change)%float then change else zero],
        losses ++ [if (change <? zero)%float then Math_abs change else zero]))
    (range 1 (Z.of_nat (length data)))
    ([], []).

(** One entry of the second loop (lines 126-138). *)
Definition rsi_entry (gains losses : list number) (period i : Z)
  : result number :=
  if i <? period - 1 then Ok nan
  else
    sumGain <- reduce PrimFloat.add (slice gains (i - period + 1) (i + 1)) ;;
    sumLoss <- reduce PrimFloat.add (slice losses (i - period + 1) (i + 1)) ;;
    let avgGain := (sumGain / of_int period)%float in
    let avgLoss := (sumLoss / of_int period)%float in
    if (avgLoss =? zero)%float then Ok 100%float
    else
      let rs := (avgGain / avgLoss)%float in
      Ok (100 - 100 / (1 + rs))%float.

(** [calculateRSI] (lines 114-142) *)
Definition calculateRSI (data : list HistoricalPoint) (period : Z)
  : result (list number) :=
  let '(gains, losses) := changes data in
  rsi <- fold_left
           (fun acc i =>
              rsi <- acc ;;
              entry <- rsi_entry gains losses period i ;;
              Ok (rsi ++ [entry]))
           (range 0 (Z.of_nat (length gains)))
           (Ok []) ;;
  Ok (nan :: rsi).

End Stock.

(** ** The rest of [StockService]: the mock quotes *)

(** [StockData] *)
Module StockData.
Record t : Type := {
  symbol : string;
  price : number;
  change : number;
  changePercent : number;
  volume : Z;
  marketCap : string;
  historicalData : list Stock.HistoricalPoint
}.
End StockData.

Module StockService.

Section Quotes.
Context {tf : Backend}.

(** [x.toFixed(1)], which belongs to the language. *)
Variable toFixed1 : number -> string.

(** [random k] is the number the call number [k] of [Math.random()]
    returns, counted from the start of [generateMockData]. *)
Variable random : nat -> number.

Definition basePrices : list (string * number) :=
  [ ("AAPL", 175); ("MSFT", 380); ("GOOGL", 140);
    ("AMZN", 145); ("TSLA", 240); ("NVDA", 480) ]%string%float.

(** [getBasePrice] (lines 43-53) *)
Definition getBasePrice (symbol : string) : value :=
  value_or (get basePrices symbol) 100.

(** [generateMockData] (lines 19-41).  [i] runs from [days] down to 0;
    [clock k] is the time value the clock gives to the [new Date()] of the
    iteration number [k], counted from 0.  Each iteration draws two random
    numbers, the price change before the volume. *)
Definition generateMockData (clock : nat -> Z) (symbol : string) (days : Z)
  : list Stock.HistoricalPoint :=
  let basePrice := getBasePrice symbol in
  let '(data, _, _) :=
    fold_left
      (fun '(data, currentPrice, calls) i =>
         let date := clock (Z.to_nat (days - i)) in
         let date := Date.setDate date (Date.getDate date - i) in
         let volatility := 0.02%float in
         let randomChange := ((random calls - 0.5) * volatility)%float in
         let currentPrice := (currentPrice * (1 + randomChange))%float in
         (data ++
            [{| Stock.date := Date.toISODate date;
                Stock.price := toFixed2 currentPrice;
                Stock.volume :=
                  Math_floor (random (S calls) * 10000000)%float + 1000000 |}],
          currentPrice, S (S calls)))
      (rev (range 0 (days + 1)))
      ([], ToNumber basePrice, O) in
  data.

Definition shares : list (string * number) :=
  [ ("AAPL", 15.5e9); ("MSFT", 7.4e9); ("GOOGL", 12.6e9);
    ("AMZN", 10.5e9); ("TSLA", 3.2e9); ("NVDA", 24.6e9) ]%string%float.

(** [calculateMarketCap] (lines 55-75) *)
Definition calculateMarketCap (symbol : string) (price : number) : string :=
  let shareCount := value_or (get shares symbol) 1e9 in
  let marketCap := (price * ToNumber shareCount)%float in
  if (1e12 <=? marketCap)%float then
    String "$" (toFixed1 (marketCap / 1e12)%float ++ "T")
  else if (1e9 <=? marketCap)%float then
    String "$" (toFixed1 (marketCap / 1e9)%float ++ "B")
  else
    String "$" (toFixed1 (marketCap / 1e6)%float ++ "M").

(** [historicalData[index]], whose fields the caller reads at once:
    reading a field of [undefined] is a [TypeError]. *)
Definition point_at (historicalData : list Stock.HistoricalPoint) (index : Z)
  : result Stock.HistoricalPoint :=
  match (if index <? 0 then None
         else nth_error historicalData (Z.to_nat index)) with
  | Some point => Ok point
  | None => Throw (TypeError "Cannot read properties of undefined")
  end.

(** [getStockData] (lines 77-96); the delay of 500 ms is left out. *)
Definition getStockData (clock : nat -> Z) (symbol : string)
  : result StockData.t :=
  let historicalData := generateMockData clock symbol 30 in
  let last := Z.of_nat (length historicalData) - 1 in
  current <- point_at historicalData last ;;
  previous <- point_at historicalData (last - 1) ;;
  let currentPrice := Stock.price current in
  let previousPrice := Stock.price previous in
  let change := (currentPrice - previousPrice)%float in
  let changePercent := (change / previousPrice * 100)%float in
  volume <- point_at historicalData last ;;
  Ok {| StockData.symbol := symbol;
        StockData.price := currentPrice;
        StockData.change := change;
        StockData.changePercent := changePercent;
        StockData.volume := Stock.volume volume;
        StockData.marketCap := calculateMarketCap symbol currentPrice;
        StockData.historicalData := historicalData |}.

End Quotes.

End StockService.

(** ** The dashboard page and the chart *)

(** [ChartPoint]; an optional field that is absent is [None]. *)
Module ChartPoint.
Record t : Type := {
  date : string;
  price : number;
  prediction : option number;
  ma10 : option number;
  ma20 : option number;
  rsi : option number
}.
End ChartPoint.

(** [ChartContainer] *)
Module ChartContainer.



End ChartContainer.

(** The page [Dashboard] *)
Module Dashboard.

Section Page.
Context {tf : Backend}.
Variable toFixed1 : number -> string.

(** The state hooks of the page. *)
Record State : Type := {
  selectedSymbol : string;
  stockData : option StockData.t;
  predictions : list PredictionData;
  chartData : list ChartPoint.t;
  loading : bool;
  training : bool;
  showPredictions : bool
}.

(** The state of the first render. *)
Definition initial : State :=
  {| selectedSymbol := "AAPL"; stockData := None; predictions := [];
     chartData := []; loading := false; training := false;
     showPredictions := false |}.

Definition setStockData (data : StockData.t) (st : State) : State :=
  {| selectedSymbol := selectedSymbol st; stockData := Some data;
     predictions := predictions st; chartData := chartData st;
     loading := loading st; training := training st;
     showPredictions := showPredictions st |}.


Definition setChartData (c : list ChartPoint.t) (st : State) : State :=
  {| selectedSymbol := selectedSymbol st; stockData := stockData st;
     predictions := predictions st; chartData := c;
     loading := loading st; training := training st;
     showPredictions := showPredictions st |}.

Definition setLoading (b : bool) (st : State) : State :=
  {| selectedSymbol := selectedSymbol st; stockData := stockData st;
     predictions := predictions st; chartData := chartData st;
     loading := b; training := training st;
     showPredictions := showPredictions st |}.



(** [enrichedChartData] (lines 43-49): [ma10[index]] and the like are
    [undefined] beyond the end of the indicator. *)
Definition enrichedChartData (historicalData : list Stock.HistoricalPoint)
           (ma10 ma20 rsi : list number) : list ChartPoint.t :=
  map_indexed
    (fun point index =>
       {| ChartPoint.date := Stock.date point;
          ChartPoint.price := Stock.price point;
          ChartPoint.prediction := None;
          ChartPoint.ma10 := nth_error ma10 index;
          ChartPoint.ma20 := nth_error ma20 index;
          ChartPoint.rsi := nth_error rsi index |})
    historicalData.

(** [loadStockData] (lines 32-60), run to its end: the state it leaves.
    [clock] and [random] feed the [new Date()] and the [Math.random()]
    calls of the quote service; the toasts and the console are left out. *)
Definition loadStockData (st : State) (clock : nat -> Z)
           (random : nat -> number) (symbol : string) : State :=
  let st := setLoading true st in
  match StockService.getStockData toFixed1 random clock symbol with
  | Throw _ => setLoading false st
  | Ok data =>
      let st := setStockData data st in
      let ma10 :=
        Stock.calculateMovingAverage (StockData.historicalData data) 10 in
      let ma20 :=
        Stock.calculateMovingAverage (StockData.historicalData data) 20 in
      match Stock.calculateRSI (StockData.historicalData data) 14 with
      | Throw _ => setLoading false st
      | Ok rsi =>
          setLoading false
            (setChartData
               (enrichedChartData (StockData.historicalData data) ma10 ma20 rsi)
               st)
      end
  end.



(** The "Moving Averages" card (lines 217 and 221). *)
Definition movingAverage10 (data : StockData.t) : number :=
  (reduce_from (fun sum p => sum + Stock.price p) zero
               (slice_from (StockData.historicalData data) (-10)) / 10)%float.

Definition movingAverage20 (data : StockData.t) : number :=
  (reduce_from (fun sum p => sum + Stock.price p) zero
               (slice_from (StockData.historicalData data) (-20)) / 20)%float.

(** The last entry of the RSI, [calculateRSI(...).slice(-1)[0]]. *)
Definition lastRSI (data : StockData.t) : result (option number) :=
  rsi <- Stock.calculateRSI (StockData.historicalData data) 14 ;;
  Ok (nth_error (slice_from rsi (-1)) 0).

(** The figure of the "RSI (14)" card (line 232); an empty string is
    falsy. *)
Definition rsiFigure (data : StockData.t) : result string :=
  last <- lastRSI data ;;
  match option_map toFixed1 last with
  | Some (String c text) => Ok (String c text)
  | _ => Ok "N/A"%string
  end.

(** The signal under it (lines 235-236). *)
Definition rsiSignal (data : StockData.t) : result string :=
  last <- lastRSI data ;;
  if (70 <? or_else last 0)%float then Ok "Overbought"%string
  else
    last <- lastRSI data ;;
    if (or_else last 0 <? 30)%float then Ok "Oversold"%string
    else Ok "Neutral"%string.

End Page.

End Dashboard.

(** ** A small deterministic backend, to run the services on examples

    The model is the list of targets it was fitted to; it predicts the mean
    of its window, no library call throws, [toFixed2] leaves its argument
    as it is, and the host keeps UTC. *)
Module Demo.

Definition mean (window : list number) : number :=
  (fold_left PrimFloat.add window zero / of_int (Z.of_nat (length window)))%float.

#[export] Instance backend : Backend := {|
  LayersModel := list number;
  tensors := fun _ _ => None;
  buildModel := fun _ => [];
  fit := fun _ _ y _ => (y, None);
  modelPredict := fun _ window => Ok (mean window);
  toFixed2 := fun x => x;
  LocalTZA := fun _ _ => 0
|}.

Definition points (prices : list number) : list Stock.HistoricalPoint :=
  map (fun p =>
         {| Stock.date := EmptyString; Stock.price := p; Stock.volume := 0 |})
      prices.


(** A service with the given model and scaler stored. *)
Definition stored (m : list number) (s : Scaler) : LSTMService :=
  @Build_LSTMService backend (Some m) (Some s).

(** The service after [trainModel([1,2,3,4,5,6], 50, 2)]. *)
Definition trained : LSTMService :=
  fst (trainModel fresh [1; 2; 3; 4; 5; 6]%float 50 2).

(** The same backend, except that [model.fit] throws. *)
Definition failing : Backend := {|
  LayersModel := list number;
  tensors := fun _ _ => None;
  buildModel := fun _ => [];
  fit := fun _ _ y _ => (y, Some (Error "fit failed"));
  modelPredict := fun _ window => Ok (mean window);
  toFixed2 := fun x => x;
  LocalTZA := fun _ _ => 0
|}.


(** 2024-03-01 at 12:00 UTC, and a clock that advances one millisecond
    from one reading to the next. *)
Definition now : Z := 1709251200000 + 43200000.
Definition clock (k : nat) : Z := now + Z.of_nat k.


(** Numbers for [Math.random()], all of them in [[0, 1)]. *)
Definition random (k : nat) : number :=
  (of_int ((Z.of_nat k * 7919 + 13) mod 1000) / 1000)%float.

(** A stand-in for [toFixed(1)]. *)
Definition toFixed1 (x : number) : string :=
  if is_nan x then "NaN"%string else "0.0"%string.





End Demo.

(** ** Vocabulary of the statements *)

(** The date [toISOString] prints for a [Date] of time value [t] that has
    been moved [k] days on in local time. *)
Definition shifted_date {tf : Backend} (t k : Z) : string :=
  Date.toISODate (Date.UTC (Date.LocalTime t + k * Date.msPerDay)).


(** The last [n] elements of a list (all of them when there are fewer). *)
Definition lastn {A} (n : nat) (l : list A) : list A := skipn (length l - n) l.

(** The mean of [k] numbers as the indicators compute it: the sum, taken
    from the left starting at 0, divided by [k]. *)
Definition arithmetic_mean (window : list number) (k : Z) : number :=
  (fold_left PrimFloat.add window zero / of_int k)%float.

(** A number that is neither NaN nor infinite, on its specification. *)
Definition SF_finite (x : spec_float) : Prop :=
  match x with
  | S754_zero _ | S754_finite _ _ _ => True
  | _ => False
  end.

(** The two affine maps of the scaler, over any carrier with the four
    operations. *)
Section Affine.
Variable N : Type.
Variables (sub div mul add : N -> N -> N).

(** [(value - min) / (max - min)] *)
Definition scale (lo hi value : N) : N := div (sub value lo) (sub hi lo).

(** [value * (max - min) + min] *)
Definition unscale (lo hi value : N) : N := add (mul value (sub hi lo)) lo.
End Affine.

(** On [number], as [normalizeData], [predict] and [denormalizeData] apply
    them to each element. *)
Definition normalize (s : Scaler) (value : number) : number :=
  scale PrimFloat.sub PrimFloat.div (min s) (max s) value.

Definition denormalize (s : Scaler) (value : number) : number :=
  unscale PrimFloat.sub PrimFloat.mul PrimFloat.add (min s) (max s) value.


(** The value of mantissa [m] at exponent [e], in units of [2^-1074]. *)
Definition V (m e : Z) : Z := m * 2 ^ (e + 1074).
Arguments V : simpl never.

(** [+0], a positive finite number or [+Infinity], on the specification. *)
Definition SF_nonneg (x : spec_float) : Prop :=
  match x with
  | S754_zero false | S754_infinity false | S754_finite false _ _ => True
  | _ => False
  end.

Definition nonneg (x : number) : Prop := SF_nonneg (Prim2SF x).

(** The two constants of the RSI formula. *)
Definition SF_one : spec_float := S754_finite false 4503599627370496 (-52).
Definition SF_hundred : spec_float := S754_finite false 7036874417766400 (-46).

(** An RSI entry is defined and in range, or NaN. *)
Definition rsi_range (entry : number) : Prop :=
  is_nan entry = true \/
  ((zero <=? entry)%float && (entry <=? 100)%float) = true.

(** The number of values in the window [slice(-lookback)] cuts from a
    history of [len] values: [slice(-0)] is [slice(0)], the whole array. *)
Definition window_size (lookback len : nat) : nat :=
  if (lookback =? 0)%nat then len else Nat.min lookback len.

(** The value of a number in units of [2^-1074], an integer for every
    finite number; [2^2100] and its opposite stand for the infinities. *)
Definition SF_rank (x : spec_float) : Z :=
  match x with
  | S754_zero _ | S754_nan => 0
  | S754_infinity s => cond_Zopp s (2 ^ 2100)
  | S754_finite s m e => cond_Zopp s (V (Zpos m) e)
  end.

Definition rank (x : number) : Z := SF_rank (Prim2SF x).


Definition SF_not_below_zero (x : spec_float) : Prop :=
  match x with
  | S754_zero _ | S754_nan => True
  | S754_infinity s | S754_finite s _ _ => s = false
  end.

(** The change of the price from the day before to day [i]. *)
Definition price_change (data : list Stock.HistoricalPoint) (i : Z) : number :=
  (Stock.price_at data i - Stock.price_at data (i - 1))%float.

(** The gain and the loss of a price change. *)
Definition gain (change : number) : number :=
  if (zero <? change)%float then change else zero.

Definition loss (change : number) : number :=
  if (change <? zero)%float then Math_abs change else zero.

(** The relative strength index of a window of price changes, oldest
    first, as [calculateRSI] computes it: the gains and the losses are
    summed from the left and divided by [period]. *)
Definition relative_strength_index (changes : list number) (period : Z)
  : number :=
  match changes with
  | [] => nan
  | first :: rest =>
      let avgGain :=
        (fold_left PrimFloat.add (map gain rest) (gain first)
         / of_int period)%float in
      let avgLoss :=
        (fold_left PrimFloat.add (map loss rest) (loss first)
         / of_int period)%float in
      if (avgLoss =? zero)%float then 100%float
      else (100 - 100 / (1 + avgGain / avgLoss))%float
  end.

(** A point that is never read: the default of [nth] inside the bounds. *)
Definition no_point : Stock.HistoricalPoint :=
  {| Stock.date := EmptyString; Stock.price := nan; Stock.volume := 0 |}.

(** The position of a number between two neighbouring integers, as a
    number of quarters: 0 on the lower one, 1 below the middle, 2 in the
    middle, 3 above it. *)
Definition loc_code (l : location) : Z :=
  match l with
  | loc_Exact => 0
  | loc_Inexact Lt => 1
  | loc_Inexact Eq => 2
  | loc_Inexact Gt => 3
  end.

(** The same for the remainder [r] of a division by [G]. *)
Definition position (r G : Z) : Z :=
  if r =? 0 then 0
  else if 2 * r <? G then 1
  else if 2 * r =? G then 2
  else 3.

(** [Y / G] rounded to the nearest integer, to the even one in the
    middle. *)
Definition RNE (Y G : Z) : Z :=
  let q := Y / G in
  let r := Y mod G in
  if 2 * r <? G then q
  else if G <? 2 * r then q + 1
  else if Z.even q then q else q + 1.

(** The exponent the format gives a positive value of [P] units of
    [2^-1074], and the value rounded to it, in the same units. *)
Definition exponent_of (P : Z) : Z := Z.max (Zdigits2 P - 1074 - 53) (-1074).

Definition rounded (P : Z) : Z :=
  RNE P (2 ^ (exponent_of P + 1074)) * 2 ^ (exponent_of P + 1074).

(** An overflow is [Infinity], which [2^2100] stands for. *)
Definition clamp (P : Z) : Z := if P <? 2 ^ 2098 then P else 2 ^ 2100.

(** * Properties *)

(** ** Loops that push one element per iteration *)

Section Loops.
Context {A B I : Type}.

Lemma push_loop (f : I -> A) (l : list I) (init : list A) :
  fold_left (fun acc i => acc ++ [f i]) l init = init ++ map f l.
Proof.
  revert init; induction l as [|i l IH]; intros init; simpl.
  - now rewrite app_nil_r.
  - rewrite IH, <- app_assoc. reflexivity.
Qed.

Lemma push2_loop (f : I -> A) (g : I -> B) (l : list I) X y :
  fold_left (fun '(X, y) i => (X ++ [f i], y ++ [g i])) l (X, y)
  = (X ++ map f l, y ++ map g l).
Proof.
  revert X y; induction l as [|i l IH]; intros X y; simpl.
  - now rewrite !app_nil_r.
  - rewrite IH, <- !app_assoc. reflexivity.
Qed.
End Loops.

Lemma nth_map_inside {A B} (f : A -> B) (l : list A) k d d' :
  (k < length l)%nat -> nth k (map f l) d = f (nth k l d').
Proof.
  revert k; induction l as [|a l IH]; intros [|k] Hk; simpl in *;
    try lia; auto with arith.
Qed.

Lemma range_length from to : length (range from to) = Z.to_nat (to - from).
Proof. unfold range. now rewrite length_map, length_seq. Qed.

Lemma range_nth from to k d :
  (k < Z.to_nat (to - from))%nat -> nth k (range from to) d = from + Z.of_nat k.
Proof.
  intros Hk. unfold range.
  rewrite nth_map_inside with (d' := 0%nat) by now rewrite length_seq.
  now rewrite seq_nth.
Qed.

Lemma map_range_nth {A} (f : Z -> A) from to k d :
  (k < Z.to_nat (to - from))%nat ->
  nth k (map f (range from to)) d = f (from + Z.of_nat k).
Proof.
  intros Hk.
  rewrite nth_map_inside with (d' := 0) by now rewrite range_length.
  now rewrite range_nth.
Qed.

(** ** [slice] inside the bounds *)

Lemma slice_inside {A} (l : list A) (a b : nat) :
  (a <= b <= length l)%nat ->
  slice l (Z.of_nat a) (Z.of_nat b) = firstn (b - a) (skipn a l).
Proof.
  intros H. unfold slice, relative_index.
  destruct (Z.ltb_spec (Z.of_nat a) 0); [lia|].
  destruct (Z.ltb_spec (Z.of_nat b) 0); [lia|].
  rewrite !Z.min_l by lia.
  replace (Z.to_nat (Z.of_nat b - Z.of_nat a)) with (b - a)%nat by lia.
  now rewrite Nat2Z.id.
Qed.

Lemma slice_from_drop {A} (l : list A) (a : nat) :
  slice_from l (Z.of_nat a) = skipn a l.
Proof.
  unfold slice_from, slice, relative_index.
  destruct (Z.ltb_spec (Z.of_nat a) 0); [lia|].
  destruct (Z.ltb_spec (Z.of_nat (length l)) 0); [lia|].
  rewrite Z.min_id.
  destruct (Nat.le_gt_cases a (length l)) as [Hle|Hgt].
  - rewrite Z.min_l by lia. rewrite Nat2Z.id.
    apply firstn_all2. rewrite length_skipn. lia.
  - rewrite Z.min_r by lia. rewrite Nat2Z.id.
    rewrite skipn_all, (skipn_all2 (n := a)) by lia. now rewrite firstn_nil.
Qed.

(** [slice(-n)] with [n > 0] keeps the last [n] elements (all of them when
    there are fewer). *)
Lemma slice_from_last {A} (l : list A) (n : nat) :
  (0 < n)%nat ->
  slice_from l (- Z.of_nat n) = skipn (length l - n) l.
Proof.
  intros Hn. unfold slice_from, slice, relative_index.
  destruct (Z.ltb_spec (- Z.of_nat n) 0); [|lia].
  destruct (Z.ltb_spec (Z.of_nat (length l)) 0); [lia|].
  rewrite Z.min_id.
  replace (Z.to_nat (Z.max (Z.of_nat (length l) + - Z.of_nat n) 0))
    with (length l - n)%nat by lia.
  apply firstn_all2. rewrite length_skipn. lia.
Qed.

(** ** Numbers

    Facts about binary64 arithmetic, from the specification of the
    primitive operations. *)

Lemma Prim2SF_nan (x : number) : Prim2SF x = S754_nan <-> is_nan x = true.
Proof.
  unfold Prim2SF. destruct (is_nan x); split; auto; try discriminate.
  intros H. destruct (is_zero x); [discriminate|].
  destruct (is_infinity x); [discriminate|].
  destruct (Z.frexp x) as [r e].
  destruct (shr_fexp _ _ _ _ _) as [mrs e'].
  destruct (shr_m mrs); discriminate.
Qed.

Lemma is_nan_eq (x : number) : is_nan x = true -> x = nan.
Proof.
  intros H. apply Prim2SF_inj. apply Prim2SF_nan in H. now rewrite H.
Qed.

Lemma is_finite_SF (x : number) : is_finite x = true -> SF_finite (Prim2SF x).
Proof.
  unfold is_finite, is_infinity. rewrite negb_true_iff, orb_false_iff.
  intros [Hnan Hinf].
  assert (Hx : Prim2SF x <> S754_nan) by (rewrite Prim2SF_nan; congruence).
  rewrite eqb_spec, abs_spec in Hinf.
  change (Prim2SF infinity) with (S754_infinity false) in Hinf.
  destruct (Prim2SF x) as [s|s| |s m e]; simpl in *;
    try discriminate; try congruence; exact I.
Qed.

(** *** [c - c] and the degenerate scaler *)

Lemma SFsub_diag (x : spec_float) :
  SF64sub x x = S754_zero false \/ SF64sub x x = S754_nan.
Proof.
  destruct x as [[|]|[|]| |s m e]; simpl; auto.
  left. unfold SF64sub, SFsub. now rewrite Z.sub_diag.
Qed.


(** [(c - c) / (c - c)] is NaN whatever [c] is. *)
Lemma degenerate_scale (c : number) : ((c - c) / (c - c))%float = nan.
Proof.
  apply Prim2SF_inj. rewrite div_spec, !sub_spec.
  destruct (SFsub_diag (Prim2SF c)) as [-> | ->]; reflexivity.
Qed.

Lemma SFcompare_refl (x : spec_float) :
  SFcompare x x = Some Eq \/ SFcompare x x = None.
Proof.
  destruct x as [s|[|]| |[|] m e]; simpl; auto;
    rewrite Z.compare_refl, Pos.compare_cont_refl; auto.
Qed.

Lemma ltb_irrefl (x : number) : (x <? x)%float = false.
Proof.
  rewrite ltb_spec. unfold SFltb.
  destruct (SFcompare_refl (Prim2SF x)) as [-> | ->]; reflexivity.
Qed.

Lemma below_infinity (x : number) :
  is_nan x = false -> (x <? infinity)%float = false -> x = infinity.
Proof.
  intros Hnan Hlt. apply Prim2SF_inj.
  rewrite ltb_spec in Hlt.
  assert (Hx : Prim2SF x <> S754_nan) by (rewrite Prim2SF_nan; congruence).
  change (Prim2SF infinity) with (S754_infinity false) in *.
  destruct (Prim2SF x) as [s|[|]| |[|] m e]; try discriminate; congruence.
Qed.

Lemma above_neg_infinity (x : number) :
  is_nan x = false -> (neg_infinity <? x)%float = false -> x = neg_infinity.
Proof.
  intros Hnan Hlt. apply Prim2SF_inj.
  rewrite ltb_spec in Hlt.
  assert (Hx : Prim2SF x <> S754_nan) by (rewrite Prim2SF_nan; congruence).
  change (Prim2SF neg_infinity) with (S754_infinity true) in *.
  destruct (Prim2SF x) as [s|[|]| |[|] m e]; try discriminate; congruence.
Qed.

Lemma zero_signs_exclusive (x : number) :
  is_neg_zero x && is_pos_zero x = false /\
  is_pos_zero x && is_neg_zero x = false.
Proof.
  unfold is_neg_zero, is_pos_zero.
  destruct (is_zero x), (get_sign x); auto.
Qed.

Lemma min_from_constant (c : number) (n : nat) :
  is_nan c = false -> min_from c (repeat c n) = c.
Proof.
  intros Hc. induction n as [|n IH]; simpl; auto.
  rewrite Hc, (proj1 (zero_signs_exclusive c)), ltb_irrefl. exact IH.
Qed.

Lemma max_from_constant (c : number) (n : nat) :
  is_nan c = false -> max_from c (repeat c n) = c.
Proof.
  intros Hc. induction n as [|n IH]; simpl; auto.
  rewrite Hc, (proj2 (zero_signs_exclusive c)), ltb_irrefl. exact IH.
Qed.

Lemma Math_min_constant (c : number) (n : nat) :
  Math_min (repeat c (S n)) = c.
Proof.
  unfold Math_min; simpl.
  destruct (is_nan c) eqn:Hc; [now rewrite (is_nan_eq c Hc)|].
  replace (is_pos_zero infinity) with false by reflexivity.
  rewrite andb_false_r.
  destruct (c <? infinity)%float eqn:Hlt.
  - now apply min_from_constant.
  - rewrite <- (below_infinity Hc Hlt) at 1. now apply min_from_constant.
Qed.

Lemma Math_max_constant (c : number) (n : nat) :
  Math_max (repeat c (S n)) = c.
Proof.
  unfold Math_max; simpl.
  destruct (is_nan c) eqn:Hc; [now rewrite (is_nan_eq c Hc)|].
  replace (is_neg_zero neg_infinity) with false by reflexivity.
  rewrite andb_false_r.
  destruct (neg_infinity <? c)%float eqn:Hlt.
  - now apply max_from_constant.
  - rewrite <- (above_neg_infinity Hc Hlt) at 1. now apply max_from_constant.
Qed.

Lemma normalizeData_constant (c : number) (n : nat) :
  normalizeData (repeat c (S n))
  = (repeat nan (S n), {| min := c; max := c |}).
Proof.
  unfold normalizeData. rewrite Math_min_constant, Math_max_constant.
  f_equal. generalize (S n) as k. induction k as [|k IH]; simpl; auto.
  now rewrite degenerate_scale, IH.
Qed.

(** *** Rounding never produces NaN *)

Lemma shr_1_nonneg mrs : 0 <= shr_m mrs -> 0 <= shr_m (shr_1 mrs).
Proof.
  destruct mrs as [m r s]. destruct m as [|[p|p|]|p]; simpl; lia.
Qed.

Lemma iter_shr_1_nonneg p : forall mrs,
  0 <= shr_m mrs -> 0 <= shr_m (iter_pos shr_1 p mrs).
Proof.
  induction p as [p IH|p IH|]; intros mrs H; simpl;
    auto using shr_1_nonneg.
Qed.

Lemma shr_record_of_loc_m m l : shr_m (shr_record_of_loc m l) = m.
Proof. destruct l as [|[ | | ]]; reflexivity. Qed.

Lemma shr_fexp_nonneg m e l :
  0 <= m -> 0 <= shr_m (fst (shr_fexp prec emax m e l)).
Proof.
  intros Hm. unfold shr_fexp, shr.
  destruct (fexp prec emax (Zdigits2 m + e) - e); simpl;
    try apply iter_shr_1_nonneg; now rewrite shr_record_of_loc_m.
Qed.

Lemma round_nearest_even_nonneg m l : 0 <= m -> 0 <= round_nearest_even m l.
Proof.
  intros Hm. destruct l as [|[ | | ]]; simpl; try lia.
  destruct (Z.even m); lia.
Qed.

Lemma binary_round_aux_not_nan sx mx ex lx :
  0 <= mx -> binary_round_aux prec emax sx mx ex lx <> S754_nan.
Proof.
  intros Hm. unfold binary_round_aux.
  pose proof (shr_fexp_nonneg ex lx Hm) as H1.
  destruct (shr_fexp prec emax mx ex lx) as [mrs' e']. simpl in H1.
  pose proof (shr_fexp_nonneg e' loc_Exact
                (round_nearest_even_nonneg (loc_of_shr_record mrs') H1)) as H2.
  destruct (shr_fexp prec emax _ e' loc_Exact) as [mrs'' e'']. simpl in H2.
  destruct (shr_m mrs''); try discriminate; try lia.
  destruct (e'' <=? emax - prec); discriminate.
Qed.

Lemma binary_normalize_not_nan m e szero :
  binary_normalize prec emax m e szero <> S754_nan.
Proof.
  destruct m as [|p|p]; simpl; try discriminate; unfold binary_round;
    destruct (shl_align _ _ _) as [mz ez];
    apply binary_round_aux_not_nan; lia.
Qed.

Lemma SFadd_not_nan x y :
  x <> S754_nan -> SF_finite y -> SF64add x y <> S754_nan.
Proof.
  intros Hx Hy.
  destruct x as [[|]|[|]| |sx mx ex], y as [[|]|[|]| |sy my ey];
    simpl in *; try discriminate; try contradiction; try congruence;
    apply binary_normalize_not_nan.
Qed.

Lemma SFdiv_not_nan x sy my ey :
  x <> S754_nan -> SF64div x (S754_finite sy my ey) <> S754_nan.
Proof.
  intros Hx.
  destruct x as [sx|sx| |sx mx ex]; simpl; try discriminate; try congruence.
  unfold SF64div, SFdiv, SFdiv_core_binary.
  set (m' := match _ - _ with Zpos _ => _ | Z0 => _ | Zneg _ => _ end).
  assert (Hm' : 0 <= m').
  { subst m'. destruct (_ - _); try lia. apply Z.shiftl_nonneg. lia. }
  pose proof (Z.div_pos m' (Zpos my) Hm' ltac:(lia)) as Hq.
  unfold Z.div in Hq.
  destruct (Z.div_eucl m' (Z.pos my)) as [q r]. simpl in Hq.
  now apply binary_round_aux_not_nan.
Qed.

(** *** Integers below [2^53] are finite numbers *)

Lemma digits2_pos_lower (p : positive) :
  2 ^ (Zpos (digits2_pos p) - 1) <= Zpos p.
Proof.
  induction p as [p IH|p IH|]; simpl digits2_pos; try (simpl; lia);
    rewrite Pos2Z.inj_succ;
    replace (Z.succ (Zpos (digits2_pos p)) - 1)
      with (Z.succ (Zpos (digits2_pos p) - 1)) by lia;
    rewrite Z.pow_succ_r by lia; lia.
Qed.

Lemma digits2_pos_bound (p : positive) :
  Zpos p < 2 ^ 53 -> Zpos (digits2_pos p) <= 53.
Proof.
  intros Hp. destruct (Z.le_gt_cases (Zpos (digits2_pos p)) 53) as [|Hgt]; auto.
  pose proof (digits2_pos_lower p) as Hlow.
  assert (2 ^ 53 <= 2 ^ (Zpos (digits2_pos p) - 1))
    by (apply Z.pow_le_mono_r; lia).
  lia.
Qed.

Lemma digits2_pos_shift (p q : positive) :
  digits2_pos (Pos.iter xO p q) = (digits2_pos p + q)%positive.
Proof.
  induction q as [|q IH] using Pos.peano_ind.
  - simpl. lia.
  - rewrite Pos.iter_succ. simpl. rewrite IH. lia.
Qed.

(** A 53-bit mantissa with an exponent in range is left as it is. *)
Lemma binary_round_aux_canonical (s : bool) (m : positive) (e : Z) :
  Zpos (digits2_pos m) = 53 -> -1074 <= e <= 971 ->
  binary_round_aux prec emax s (Zpos m) e loc_Exact = S754_finite s m e.
Proof.
  intros Hd He. unfold binary_round_aux.
  assert (Hshr : shr_fexp prec emax (Zpos m) e loc_Exact
                 = ({| shr_m := Zpos m; shr_r := false; shr_s := false |}, e)).
  { unfold shr_fexp, shr, fexp, Zdigits2, SpecFloat.emin, emax, prec.
    rewrite Hd.
    replace (Z.max (53 + e - 53) (3 - 1024 - 53) - e) with 0 by lia.
    reflexivity. }
  rewrite Hshr. simpl. rewrite Hshr. simpl.
  destruct (Z.leb_spec e 971); [reflexivity | lia].
Qed.

Lemma binary_round_small (p : positive) :
  Zpos p < 2 ^ 53 ->
  exists m e, binary_round prec emax false p 0 = S754_finite false m e.
Proof.
  intros Hp. pose proof (digits2_pos_bound Hp) as Hd.
  unfold binary_round, shl_align, fexp, SpecFloat.emin, emax, prec.
  assert (H1 : 1 <= Zpos (digits2_pos p)) by lia.
  replace (Z.max (Zpos (digits2_pos p) + 0 - 53) (3 - 1024 - 53) - 0)
    with (Zpos (digits2_pos p) - 53) by lia.
  replace (Z.max (Zpos (digits2_pos p) + 0 - 53) (3 - 1024 - 53))
    with (Zpos (digits2_pos p) - 53) by lia.
  destruct (Zpos (digits2_pos p) - 53) as [|q|q] eqn:Hq; try lia.
  - exists p, 0. apply binary_round_aux_canonical; lia.
  - exists (Pos.iter xO p q), (Z.neg q).
    apply binary_round_aux_canonical; [|lia].
    rewrite digits2_pos_shift. lia.
Qed.

Lemma of_int_finite (k : Z) :
  0 < k < 2 ^ 53 -> exists m e, Prim2SF (of_int k) = S754_finite false m e.
Proof.
  intros Hk. destruct k as [|p|p]; try lia. unfold of_int.
  rewrite of_uint63_spec, Uint63.of_Z_spec.
  rewrite Z.mod_small
    by (split; [lia|]; apply Z.lt_trans with (2 ^ 53); [lia | reflexivity]).
  apply binary_round_small. lia.
Qed.

(** *** Sums and means of finite numbers *)

Lemma add_not_nan (x y : number) :
  is_nan x = false -> is_finite y = true -> is_nan (x + y)%float = false.
Proof.
  intros Hx Hy. destruct (is_nan (x + y)%float) eqn:H; auto.
  apply Prim2SF_nan in H. rewrite add_spec in H.
  exfalso. revert H. apply SFadd_not_nan.
  - rewrite Prim2SF_nan. congruence.
  - now apply is_finite_SF.
Qed.

Lemma sum_not_nan (l : list number) : forall acc,
  is_nan acc = false -> Forall (fun x => is_finite x = true) l ->
  is_nan (fold_left PrimFloat.add l acc) = false.
Proof.
  induction l as [|x l IH]; intros acc Hacc Hl; simpl; auto.
  inversion Hl; subst. apply IH; auto using add_not_nan.
Qed.

Lemma mean_not_nan (window : list number) (k : Z) :
  0 < k < 2 ^ 53 -> Forall (fun x => is_finite x = true) window ->
  is_nan (arithmetic_mean window k) = false.
Proof.
  intros Hk Hw. unfold arithmetic_mean.
  destruct (is_nan (_ / _)%float) eqn:H; auto.
  apply Prim2SF_nan in H. rewrite div_spec in H.
  destruct (of_int_finite Hk) as (m & e & Hfin). rewrite Hfin in H.
  exfalso. revert H. apply SFdiv_not_nan.
  rewrite Prim2SF_nan, sum_not_nan; auto.
Qed.

(** ** Rounding and the order of numbers *)

(** *** Mantissas as integers *)

Lemma digits2_pos_upper (p : positive) : Zpos p < 2 ^ Zpos (digits2_pos p).
Proof.
  induction p as [p IH|p IH|]; simpl digits2_pos; try (simpl; lia);
    rewrite Pos2Z.inj_succ, Z.pow_succ_r by lia; lia.
Qed.

(** The number of binary digits of a positive integer. *)
Lemma Zdigits2_spec (m d : Z) :
  0 < m -> 2 ^ (d - 1) <= m < 2 ^ d -> Zdigits2 m = d.
Proof.
  intros Hm [Hlo Hhi]. destruct m as [|p|p]; try lia. simpl.
  pose proof (digits2_pos_lower p) as Hl.
  pose proof (digits2_pos_upper p) as Hu.
  destruct (Z.lt_trichotomy (Zpos (digits2_pos p)) d) as [H|[H|H]]; auto.
  - assert (2 ^ Zpos (digits2_pos p) <= 2 ^ (d - 1))
      by (apply Z.pow_le_mono_r; lia). lia.
  - assert (0 <= d \/ d < 0) as [Hd|Hd] by lia.
    + assert (2 ^ d <= 2 ^ (Zpos (digits2_pos p) - 1))
        by (apply Z.pow_le_mono_r; lia). lia.
    + rewrite (Z.pow_neg_r 2 d) in Hhi by lia. lia.
Qed.

Lemma Zdigits2_bounds (m : Z) :
  0 < m -> 2 ^ (Zdigits2 m - 1) <= m < 2 ^ Zdigits2 m.
Proof.
  intros Hm. destruct m as [|p|p]; try lia. simpl.
  split; [apply digits2_pos_lower | apply digits2_pos_upper].
Qed.

Lemma Zdigits2_pos (m : Z) : 0 < m -> 0 < Zdigits2 m.
Proof. destruct m; simpl; lia. Qed.

Lemma Zdigits2_shiftr (m n : Z) :
  0 < m -> 0 <= n < Zdigits2 m -> Zdigits2 (m / 2 ^ n) = Zdigits2 m - n.
Proof.
  intros Hm Hn. pose proof (Zdigits2_bounds Hm) as [Hlo Hhi].
  assert (H2n : 0 < 2 ^ n) by (apply Z.pow_pos_nonneg; lia).
  assert (Hlo' : 2 ^ (Zdigits2 m - n - 1) <= m / 2 ^ n).
  { apply Z.div_le_lower_bound; auto.
    rewrite <- Z.pow_add_r by lia.
    replace (n + (Zdigits2 m - n - 1)) with (Zdigits2 m - 1) by lia. exact Hlo. }
  assert (Hhi' : m / 2 ^ n < 2 ^ (Zdigits2 m - n)).
  { apply Z.div_lt_upper_bound; auto.
    rewrite <- Z.pow_add_r by lia.
    replace (n + (Zdigits2 m - n)) with (Zdigits2 m) by lia. exact Hhi. }
  apply Zdigits2_spec; auto.
  assert (0 < 2 ^ (Zdigits2 m - n - 1)) by (apply Z.pow_pos_nonneg; lia). lia.
Qed.

(** *** [shr] is a division by a power of two *)

Lemma shr_1_m mrs : 0 <= shr_m mrs -> shr_m (shr_1 mrs) = shr_m mrs / 2.
Proof.
  destruct mrs as [m r s]. destruct m as [|[p|p|]|p]; simpl; intros H;
    try lia; try reflexivity.
  - rewrite Pos2Z.inj_xI. apply Z.div_unique with (r := 1); lia.
  - rewrite Pos2Z.inj_xO. apply Z.div_unique with (r := 0); lia.
Qed.

Lemma div_pow2_pow2 (a x y : Z) :
  0 <= x -> 0 <= y -> a / 2 ^ x / 2 ^ y = a / 2 ^ (x + y).
Proof.
  intros Hx Hy.
  assert (0 < 2 ^ x) by (apply Z.pow_pos_nonneg; lia).
  assert (0 < 2 ^ y) by (apply Z.pow_pos_nonneg; lia).
  rewrite Z.div_div, Z.pow_add_r by lia. reflexivity.
Qed.

Lemma iter_shr_1_m (p : positive) : forall mrs,
  0 <= shr_m mrs ->
  shr_m (iter_pos shr_1 p mrs) = shr_m mrs / 2 ^ Zpos p.
Proof.
  induction p as [p IH|p IH|]; intros mrs Hm; simpl iter_pos.
  - rewrite !IH, shr_1_m; auto using shr_1_nonneg, iter_shr_1_nonneg.
    change (shr_m mrs / 2) with (shr_m mrs / 2 ^ 1).
    rewrite !div_pow2_pow2 by lia. f_equal. f_equal. lia.
  - rewrite !IH; auto using iter_shr_1_nonneg.
    rewrite div_pow2_pow2 by lia. f_equal. f_equal. lia.
  - now rewrite shr_1_m.
Qed.

(** The mantissa and the exponent [shr_fexp] returns. *)
Lemma shr_fexp_m (m e : Z) (l : location) :
  0 <= m -> e <= fexp prec emax (Zdigits2 m + e) ->
  let E := fexp prec emax (Zdigits2 m + e) in
  shr_m (fst (shr_fexp prec emax m e l)) = m / 2 ^ (E - e) /\
  snd (shr_fexp prec emax m e l) = E.
Proof.
  intros Hm He E. unfold shr_fexp, shr. fold E.
  destruct (E - e) as [|p|p] eqn:Hn; try lia; simpl.
  - rewrite shr_record_of_loc_m, Z.div_1_r. split; [reflexivity | lia].
  - rewrite iter_shr_1_m by now rewrite shr_record_of_loc_m.
    rewrite shr_record_of_loc_m. split; [reflexivity | lia].
Qed.

Lemma fexp_eq (x : Z) : fexp prec emax x = Z.max (x - 53) (-1074).
Proof. reflexivity. Qed.

Lemma round_nearest_even_cases (m : Z) (l : location) :
  round_nearest_even m l = m \/ round_nearest_even m l = m + 1.
Proof.
  destruct l as [|[ | | ]]; simpl; auto. destruct (Z.even m); auto.
Qed.

Lemma shr_fexp_exact_noshift (m e : Z) :
  fexp prec emax (Zdigits2 m + e) <= e ->
  shr_fexp prec emax m e loc_Exact
  = ({| shr_m := m; shr_r := false; shr_s := false |}, e).
Proof.
  intros H. unfold shr_fexp, shr.
  destruct (fexp prec emax (Zdigits2 m + e) - e) eqn:Hn; try lia; reflexivity.
Qed.

Lemma shr_fexp_exact_one (m e : Z) :
  0 <= m -> fexp prec emax (Zdigits2 m + e) = e + 1 ->
  shr_m (fst (shr_fexp prec emax m e loc_Exact)) = m / 2 /\
  snd (shr_fexp prec emax m e loc_Exact) = e + 1.
Proof.
  intros Hm H. unfold shr_fexp, shr. rewrite H.
  replace (e + 1 - e) with 1 by lia.
  cbn [fst snd iter_pos shr_record_of_loc].
  rewrite shr_1_m by (simpl; lia). simpl. split; [reflexivity | lia].
Qed.

Lemma V_pos (m e : Z) : 0 < m -> -1074 <= e -> 0 < V m e.
Proof.
  intros Hm He. unfold V.
  assert (0 < 2 ^ (e + 1074)) by (apply Z.pow_pos_nonneg; lia). nia.
Qed.

Lemma V_mono_m (m m' e : Z) : -1074 <= e -> m <= m' -> V m e <= V m' e.
Proof.
  intros He Hm. unfold V.
  assert (0 < 2 ^ (e + 1074)) by (apply Z.pow_pos_nonneg; lia). nia.
Qed.

Lemma V_shift (m e k : Z) :
  -1074 <= e -> 0 <= k -> V (m * 2 ^ k) e = V m (e + k).
Proof.
  intros He Hk. unfold V.
  replace (e + k + 1074) with (k + (e + 1074)) by lia.
  rewrite (Z.pow_add_r 2 k (e + 1074)) by lia. ring.
Qed.

(** The last step of [binary_round_aux]. *)
Lemma binary_round_aux_final (m'' e'' mr E : Z) :
  0 <= m'' -> V m'' e'' = V mr E -> (m'' = 0 -> mr = 0) ->
  (971 < e'' -> 2 ^ 2098 <= V mr E) ->
  match
    match m'' with
    | 0 => S754_zero false
    | Zpos m =>
        if e'' <=? emax - prec then S754_finite false m e''
        else S754_infinity false
    | Zneg _ => S754_nan
    end
  with
  | S754_zero s => s = false /\ mr = 0
  | S754_finite s m e => s = false /\ V (Zpos m) e = V mr E
  | S754_infinity s => s = false /\ 2 ^ 2098 <= V mr E
  | S754_nan => False
  end.
Proof.
  intros Hm HV Hzero Hbig. destruct m'' as [|p|p]; [auto| |lia].
  change (emax - prec) with 971.
  destruct (Z.leb_spec e'' 971); split; auto.
Qed.

(** What [binary_round_aux] returns for a positive mantissa that has
    enough digits: the mantissa is cut down to [m1] at the exponent [E] the
    format gives it, and the result is [m1] or [m1 + 1] at that exponent. *)
Lemma binary_round_aux_value (mx ex : Z) (lx : location) :
  0 < mx -> -1074 <= ex -> ex <= fexp prec emax (Zdigits2 mx + ex) ->
  let E := fexp prec emax (Zdigits2 mx + ex) in
  let m1 := mx / 2 ^ (E - ex) in
  exists mr, (mr = m1 \/ mr = m1 + 1) /\
    match binary_round_aux prec emax false mx ex lx with
    | S754_zero s => s = false /\ mr = 0
    | S754_finite s m e => s = false /\ V (Zpos m) e = V mr E
    | S754_infinity s => s = false /\ 2 ^ 2098 <= V mr E
    | S754_nan => False
    end.
Proof.
  intros Hmx Hex Henough. cbv zeta.
  pose proof (Zdigits2_bounds Hmx) as [Hdlo Hdhi].
  pose proof (Zdigits2_pos Hmx) as Hdpos.
  pose proof (shr_fexp_m lx (Z.lt_le_incl _ _ Hmx) Henough) as [Hsm Hse].
  remember (Zdigits2 mx) as d eqn:Hd.
  remember (fexp prec emax (d + ex)) as E eqn:HE0.
  remember (mx / 2 ^ (E - ex)) as m1 eqn:Hm1def.
  assert (HE : E = Z.max (d + ex - 53) (-1074)) by (subst E; apply fexp_eq).
  assert (Hn : 0 <= E - ex) by lia.
  assert (H2n : 0 < 2 ^ (E - ex)) by (apply Z.pow_pos_nonneg; lia).
  assert (Hm1 : 0 <= m1) by (subst m1; apply Z.div_pos; lia).
  unfold binary_round_aux.
  destruct (shr_fexp prec emax mx ex lx) as [mrs' e']. simpl in Hsm, Hse.
  subst e'. rewrite Hsm.
  remember (round_nearest_even m1 (loc_of_shr_record mrs')) as mr eqn:Hmrdef.
  assert (Hmr : mr = m1 \/ mr = m1 + 1)
    by (subst mr; apply round_nearest_even_cases).
  exists mr. split; [exact Hmr|].
  assert (Hmr0 : 0 <= mr) by lia.
  (* the digits of [m1] *)
  assert (Hcases : (m1 = 0 /\ E = -1074) \/
                   (0 < m1 /\ Zdigits2 m1 = d + ex - E /\ d + ex - E <= 53 /\
                    (E = -1074 \/ d + ex - E = 53))).
  { destruct (Z.eq_dec m1 0) as [H0|H0].
    - left. split; [exact H0|].
      assert (mx < 2 ^ (E - ex)).
      { subst m1. apply Z.div_small_iff in H0; lia. }
      assert (d - 1 < E - ex).
      { apply (Z.pow_lt_mono_r_iff 2); lia. }
      lia.
    - right. assert (0 < m1) by lia.
      assert (2 ^ (E - ex) <= mx).
      { destruct (Z.le_gt_cases (2 ^ (E - ex)) mx); auto.
        subst m1. rewrite Z.div_small in H0; lia. }
      assert (E - ex < d).
      { apply (Z.pow_lt_mono_r_iff 2); lia. }
      split; [assumption|]. split; [|lia].
      subst m1. rewrite Zdigits2_shiftr; rewrite <- ?Hd; lia. }
  (* when nothing more is shifted out *)
  assert (Hnoshift :
            fexp prec emax (Zdigits2 mr + E) <= E ->
            (971 < E -> 2 ^ 2098 <= V mr E) ->
            match
              (let '(mrs'', e'') := shr_fexp prec emax mr E loc_Exact in
               match shr_m mrs'' with
               | 0 => S754_zero false
               | Zpos m =>
                   if e'' <=? emax - prec then S754_finite false m e''
                   else S754_infinity false
               | Zneg _ => S754_nan
               end)
            with
            | S754_zero s => s = false /\ mr = 0
            | S754_finite s m e => s = false /\ V (Zpos m) e = V mr E
            | S754_infinity s => s = false /\ 2 ^ 2098 <= V mr E
            | S754_nan => False
            end).
  { intros Hfexp Hbig. rewrite (@shr_fexp_exact_noshift _ _ Hfexp).
    cbn [shr_m]. apply binary_round_aux_final; auto. }
  (* when the rounding carried into a 54th digit *)
  assert (Hcarry :
            mr = 2 ^ 53 ->
            fexp prec emax (Zdigits2 mr + E) = E + 1 ->
            match
              (let '(mrs'', e'') := shr_fexp prec emax mr E loc_Exact in
               match shr_m mrs'' with
               | 0 => S754_zero false
               | Zpos m =>
                   if e'' <=? emax - prec then S754_finite false m e''
                   else S754_infinity false
               | Zneg _ => S754_nan
               end)
            with
            | S754_zero s => s = false /\ mr = 0
            | S754_finite s m e => s = false /\ V (Zpos m) e = V mr E
            | S754_infinity s => s = false /\ 2 ^ 2098 <= V mr E
            | S754_nan => False
            end).
  { intros Hval Hfexp.
    destruct (@shr_fexp_exact_one _ _ Hmr0 Hfexp) as [Hm2 He2].
    destruct (shr_fexp prec emax mr E loc_Exact) as [mrs'' e''].
    simpl in Hm2, He2. subst e''. rewrite Hm2.
    assert (Hhalf : mr / 2 = 2 ^ 52) by (rewrite Hval; reflexivity).
    assert (HV : V (mr / 2) (E + 1) = V mr E).
    { rewrite Hhalf, Hval. unfold V.
      replace (E + 1 + 1074) with (1 + (E + 1074)) by lia.
      rewrite (Z.pow_add_r 2 1 (E + 1074)) by lia.
      change (2 ^ 53) with (2 ^ 52 * 2 ^ 1). ring. }
    apply binary_round_aux_final; auto.
    - rewrite Hhalf. lia.
    - rewrite Hhalf. intros Habs. discriminate Habs.
    - intros Hbig. rewrite <- HV, Hhalf. unfold V.
      rewrite <- Z.pow_add_r by lia. apply Z.pow_le_mono_r; lia. }
  destruct Hcases as [[H0 HEmin] | (Hpos & Hd1 & Hd1le & Hcanon)].
  - (* the value is below the smallest positive number *)
    apply Hnoshift; [|lia].
    rewrite fexp_eq. destruct Hmr as [Hm | Hm]; rewrite Hm, H0;
      [change (Zdigits2 0) with 0 | change (Zdigits2 (0 + 1)) with 1]; lia.
  - assert (H52 : E = -1074 \/ 2 ^ 52 <= m1).
    { destruct Hcanon as [|H53]; auto. right.
      pose proof (Zdigits2_bounds Hpos) as [Hlo _].
      rewrite Hd1, H53 in Hlo. exact Hlo. }
    assert (Hm1lo : 2 ^ (d + ex - E - 1) <= m1).
    { pose proof (Zdigits2_bounds Hpos) as [Hlo _]. now rewrite Hd1 in Hlo. }
    assert (Hbig : 971 < E -> 2 ^ 2098 <= V mr E).
    { intros HEbig. destruct H52 as [|H52]; [lia|].
      apply Z.le_trans with (V (2 ^ 52) E); [|apply V_mono_m; lia].
      unfold V. rewrite <- Z.pow_add_r by lia.
      apply Z.pow_le_mono_r; lia. }
    destruct (Z.lt_ge_cases mr (2 ^ (d + ex - E))) as [Hsame|Hover].
    + (* no carry into a new digit *)
      apply Hnoshift; [|exact Hbig].
      assert (Hdmr : Zdigits2 mr = d + ex - E)
        by (apply Zdigits2_spec; lia).
      rewrite fexp_eq, Hdmr. lia.
    + (* the rounding carried: [mr] is a power of two *)
      assert (Hm1hi : m1 < 2 ^ (d + ex - E)).
      { pose proof (Zdigits2_bounds Hpos) as [_ Hhi]. now rewrite Hd1 in Hhi. }
      assert (Hmrval : mr = 2 ^ (d + ex - E)) by lia.
      assert (Hdmr : Zdigits2 mr = d + ex - E + 1).
      { apply Zdigits2_spec; [lia|].
        replace (d + ex - E + 1 - 1) with (d + ex - E) by lia.
        split; [lia|]. rewrite Hmrval.
        apply Z.pow_lt_mono_r; lia. }
      destruct (Z.eq_dec (d + ex - E) 53) as [H53|Hlt].
      * apply Hcarry; [now rewrite Hmrval, H53|].
        rewrite fexp_eq, Hdmr. lia.
      * apply Hnoshift; [|exact Hbig]. rewrite fexp_eq, Hdmr. lia.
Qed.

(** *** Valid numbers and their order *)

Lemma valid_finite (s : bool) (m : positive) (e : Z) :
  valid_binary (S754_finite s m e) = true ->
  Zpos m < 2 ^ 53 /\ -1074 <= e <= 971 /\ (e = -1074 \/ 2 ^ 52 <= Zpos m).
Proof.
  unfold valid_binary, SpecFloat.valid_binary, bounded, canonical_mantissa.
  rewrite andb_true_iff, Z.eqb_eq, Z.leb_le, fexp_eq.
  change (emax - prec) with 971. intros [Hc He].
  pose proof (digits2_pos_lower m) as Hlo.
  pose proof (digits2_pos_upper m) as Hhi.
  assert (Hd : Zpos (digits2_pos m) <= 53) by lia.
  split; [|split; [lia|]].
  - apply Z.lt_le_trans with (2 ^ Zpos (digits2_pos m)); auto.
    apply Z.pow_le_mono_r; lia.
  - destruct (Z.eq_dec e (-1074)) as [|Hne]; auto. right.
    assert (Zpos (digits2_pos m) = 53) by lia.
    replace 52 with (Zpos (digits2_pos m) - 1) by lia. exact Hlo.
Qed.

Lemma V_lt_pow (m e k : Z) :
  -1074 <= e -> 0 <= k -> m < 2 ^ k -> V m e < 2 ^ (k + e + 1074).
Proof.
  intros He Hk Hm. unfold V.
  replace (k + e + 1074) with (k + (e + 1074)) by lia.
  rewrite (Z.pow_add_r 2 k (e + 1074)) by lia.
  assert (0 < 2 ^ (e + 1074)) by (apply Z.pow_pos_nonneg; lia). nia.
Qed.

Lemma V_ge_pow (m e k : Z) :
  -1074 <= e -> 0 <= k -> 2 ^ k <= m -> 2 ^ (k + e + 1074) <= V m e.
Proof.
  intros He Hk Hm. unfold V.
  replace (k + e + 1074) with (k + (e + 1074)) by lia.
  rewrite (Z.pow_add_r 2 k (e + 1074)) by lia.
  assert (0 < 2 ^ (e + 1074)) by (apply Z.pow_pos_nonneg; lia). nia.
Qed.

(** The order of two valid positive numbers is the order of their values. *)
Lemma SFleb_V (ma mb : positive) (ea eb : Z) :
  valid_binary (S754_finite false ma ea) = true ->
  valid_binary (S754_finite false mb eb) = true ->
  V (Zpos ma) ea <= V (Zpos mb) eb ->
  SFleb (S754_finite false ma ea) (S754_finite false mb eb) = true.
Proof.
  intros Ha Hb HV.
  apply valid_finite in Ha. destruct Ha as (Hahi & Hae & Hacan).
  apply valid_finite in Hb. destruct Hb as (Hbhi & Hbe & Hbcan).
  unfold SFleb, SFcompare.
  destruct (Z.compare_spec ea eb) as [Heq|Hlt|Hgt]; auto.
  - subst eb. rewrite Pos.compare_cont_spec. simpl.
    assert (Zpos ma <= Zpos mb).
    { unfold V in HV.
      assert (0 < 2 ^ (ea + 1074)) by (apply Z.pow_pos_nonneg; lia). nia. }
    destruct (Pos.compare_spec ma mb); auto. lia.
  - exfalso.
    assert (H52 : 2 ^ 52 <= Zpos ma) by lia.
    pose proof (@V_lt_pow (Zpos mb) eb 53 ltac:(lia) ltac:(lia) Hbhi).
    pose proof (@V_ge_pow (Zpos ma) ea 52 ltac:(lia) ltac:(lia) H52).
    assert (2 ^ (53 + eb + 1074) <= 2 ^ (52 + ea + 1074))
      by (apply Z.pow_le_mono_r; lia).
    lia.
Qed.

(** A valid number that is below the next point [k + 1] of a grid of step
    [2^E] is at most the point [k], when [k] has 53 digits or [E] is the
    smallest exponent. *)
Lemma grid_below (mA : positive) (eA k E : Z) :
  valid_binary (S754_finite false mA eA) = true ->
  -1074 <= E -> 0 <= k -> (E = -1074 \/ 2 ^ 52 <= k) ->
  V (Zpos mA) eA < V (k + 1) E -> V (Zpos mA) eA <= V k E.
Proof.
  intros HA HE Hk Hcan Hlt.
  apply valid_finite in HA. destruct HA as (Hhi & He & _).
  destruct (Z.le_gt_cases E eA) as [Hle|Hgt].
  - replace eA with (E + (eA - E)) in Hlt |- * by lia.
    rewrite <- V_shift in Hlt |- * by lia.
    unfold V in *.
    assert (HP : 0 < 2 ^ (E + 1074)) by (apply Z.pow_pos_nonneg; lia).
    apply Z.mul_lt_mono_pos_r in Hlt; auto.
    apply Z.mul_le_mono_nonneg_r; lia.
  - assert (H52 : 2 ^ 52 <= k) by lia.
    pose proof (@V_lt_pow (Zpos mA) eA 53 ltac:(lia) ltac:(lia) Hhi).
    pose proof (@V_ge_pow k E 52 ltac:(lia) ltac:(lia) H52).
    assert (2 ^ (53 + eA + 1074) <= 2 ^ (52 + E + 1074))
      by (apply Z.pow_le_mono_r; lia).
    lia.
Qed.

Lemma grid_above (mA : positive) (eA k E : Z) :
  valid_binary (S754_finite false mA eA) = true ->
  -1074 <= E -> 0 <= k -> (E = -1074 \/ 2 ^ 52 <= k) ->
  V k E < V (Zpos mA) eA -> V (k + 1) E <= V (Zpos mA) eA.
Proof.
  intros HA HE Hk Hcan Hlt.
  apply valid_finite in HA. destruct HA as (Hhi & He & _).
  destruct (Z.le_gt_cases E eA) as [Hle|Hgt].
  - replace eA with (E + (eA - E)) in Hlt |- * by lia.
    rewrite <- V_shift in Hlt |- * by lia.
    unfold V in *.
    assert (HP : 0 < 2 ^ (E + 1074)) by (apply Z.pow_pos_nonneg; lia).
    apply Z.mul_lt_mono_pos_r in Hlt; auto.
    apply Z.mul_le_mono_nonneg_r; lia.
  - exfalso. assert (H52 : 2 ^ 52 <= k) by lia.
    pose proof (@V_lt_pow (Zpos mA) eA 53 ltac:(lia) ltac:(lia) Hhi).
    pose proof (@V_ge_pow k E 52 ltac:(lia) ltac:(lia) H52).
    assert (2 ^ (53 + eA + 1074) <= 2 ^ (52 + E + 1074))
      by (apply Z.pow_le_mono_r; lia).
    lia.
Qed.

(** The mantissa cut down to the exponent of the format. *)
Lemma cut_mantissa (mx ex : Z) :
  0 < mx -> -1074 <= ex -> ex <= fexp prec emax (Zdigits2 mx + ex) ->
  let E := fexp prec emax (Zdigits2 mx + ex) in
  let m1 := mx / 2 ^ (E - ex) in
  -1074 <= E /\ 0 <= m1 /\ (E = -1074 \/ 2 ^ 52 <= m1) /\
  V m1 E <= V mx ex < V (m1 + 1) E.
Proof.
  intros Hmx Hex Henough. cbv zeta.
  pose proof (Zdigits2_bounds Hmx) as [Hdlo Hdhi].
  pose proof (Zdigits2_pos Hmx) as Hdpos.
  remember (Zdigits2 mx) as d eqn:Hd.
  remember (fexp prec emax (d + ex)) as E eqn:HE0.
  assert (HE : E = Z.max (d + ex - 53) (-1074)) by (subst E; apply fexp_eq).
  assert (H2n : 0 < 2 ^ (E - ex)) by (apply Z.pow_pos_nonneg; lia).
  pose proof (Z.mul_div_le mx _ H2n) as Hlo.
  pose proof (Z.mul_succ_div_gt mx _ H2n) as Hhi.
  remember (mx / 2 ^ (E - ex)) as m1 eqn:Hm1def.
  assert (Hm1 : 0 <= m1) by (subst m1; apply Z.div_pos; lia).
  split; [lia|]. split; [exact Hm1|]. split.
  - destruct (Z.eq_dec E (-1074)) as [|Hne]; auto. right.
    assert (HEd : E - ex = d - 53) by lia.
    subst m1. apply Z.div_le_lower_bound; auto.
    rewrite HEd, <- Z.pow_add_r by lia.
    replace (d - 53 + 52) with (d - 1) by lia. exact Hdlo.
  - assert (HV : forall m, V m E = V (m * 2 ^ (E - ex)) ex).
    { intros m. rewrite V_shift by lia. f_equal. lia. }
    rewrite !HV. unfold V.
    assert (HP : 0 < 2 ^ (ex + 1074)) by (apply Z.pow_pos_nonneg; lia).
    split.
    + apply Z.mul_le_mono_nonneg_r; lia.
    + apply Z.mul_lt_mono_pos_r; lia.
Qed.

(** *** Rounding keeps the order with valid numbers *)

Lemma round_aux_lower (mx ex : Z) (lx : location) (mA : positive) (eA : Z) :
  0 < mx -> -1074 <= ex -> ex <= fexp prec emax (Zdigits2 mx + ex) ->
  valid_binary (S754_finite false mA eA) = true ->
  valid_binary (binary_round_aux prec emax false mx ex lx) = true ->
  V (Zpos mA) eA <= V mx ex ->
  SFleb (S754_finite false mA eA) (binary_round_aux prec emax false mx ex lx)
  = true.
Proof.
  intros Hmx Hex Henough HA HR HV.
  destruct (@binary_round_aux_value mx ex lx Hmx Hex Henough)
    as (mr & Hmr & Hres).
  destruct (@cut_mantissa mx ex Hmx Hex Henough) as (HE & Hm1 & Hcan & Hlo & Hhi).
  assert (HAlo : V (Zpos mA) eA <= V (mx / 2 ^ (fexp prec emax (Zdigits2 mx + ex) - ex))
                                      (fexp prec emax (Zdigits2 mx + ex))).
  { apply grid_below; auto. lia. }
  assert (HAmr : V (Zpos mA) eA <= V mr (fexp prec emax (Zdigits2 mx + ex))).
  { eapply Z.le_trans; [exact HAlo|]. apply V_mono_m; lia. }
  assert (HApos : 0 < V (Zpos mA) eA).
  { apply V_pos; [lia|]. apply valid_finite in HA. lia. }
  destruct (binary_round_aux prec emax false mx ex lx) as [s|s| |s m e].
  - destruct Hres as [_ H0]. rewrite H0 in HAmr.
    change (V 0 (fexp prec emax (Zdigits2 mx + ex))) with 0 in HAmr. lia.
  - destruct Hres as [-> _]. reflexivity.
  - contradiction.
  - destruct Hres as [-> HVm]. apply SFleb_V; auto. lia.
Qed.

Lemma round_aux_upper (mx ex : Z) (lx : location) (mA : positive) (eA : Z) :
  0 < mx -> -1074 <= ex -> ex <= fexp prec emax (Zdigits2 mx + ex) ->
  valid_binary (S754_finite false mA eA) = true ->
  valid_binary (binary_round_aux prec emax false mx ex lx) = true ->
  V (mx + 1) ex <= V (Zpos mA) eA ->
  SFleb (binary_round_aux prec emax false mx ex lx) (S754_finite false mA eA)
  = true.
Proof.
  intros Hmx Hex Henough HA HR HV.
  destruct (@binary_round_aux_value mx ex lx Hmx Hex Henough)
    as (mr & Hmr & Hres).
  destruct (@cut_mantissa mx ex Hmx Hex Henough) as (HE & Hm1 & Hcan & Hlo & Hhi).
  assert (Hlt : V mx ex < V (mx + 1) ex).
  { unfold V. assert (0 < 2 ^ (ex + 1074)) by (apply Z.pow_pos_nonneg; lia).
    nia. }
  assert (HAhi : V (mx / 2 ^ (fexp prec emax (Zdigits2 mx + ex) - ex) + 1)
                   (fexp prec emax (Zdigits2 mx + ex)) <= V (Zpos mA) eA).
  { apply grid_above; auto. lia. }
  assert (HAmr : V mr (fexp prec emax (Zdigits2 mx + ex)) <= V (Zpos mA) eA).
  { eapply Z.le_trans; [|exact HAhi]. apply V_mono_m; lia. }
  pose proof (@valid_finite _ _ _ HA) as (HmA & HeA & _).
  destruct (binary_round_aux prec emax false mx ex lx) as [s|s| |s m e].
  - destruct Hres as [-> _]. reflexivity.
  - exfalso. destruct Hres as [_ Hbig].
    pose proof (@V_lt_pow (Zpos mA) eA 53 ltac:(lia) ltac:(lia) HmA).
    assert (2 ^ (53 + eA + 1074) <= 2 ^ 2098)
      by (apply Z.pow_le_mono_r; lia).
    lia.
  - contradiction.
  - destruct Hres as [-> HVm]. apply SFleb_V; auto. lia.
Qed.

(** *** [binary_round] first gives the mantissa enough digits *)

Lemma iter_xO_value (m p : positive) :
  Zpos (Pos.iter xO m p) = Zpos m * 2 ^ Zpos p.
Proof.
  induction p as [|p IH] using Pos.peano_ind.
  - simpl. lia.
  - rewrite Pos.iter_succ, Pos2Z.inj_xO, IH, Pos2Z.inj_succ.
    rewrite Z.pow_succ_r by lia. ring.
Qed.

Lemma binary_round_aligned (mx : positive) (ex : Z) :
  -1074 <= ex ->
  exists (mz : positive) (ez k : Z),
    binary_round prec emax false mx ex
    = binary_round_aux prec emax false (Zpos mz) ez loc_Exact /\
    -1074 <= ez /\ ez <= fexp prec emax (Zdigits2 (Zpos mz) + ez) /\
    0 <= k /\ Zpos mz = Zpos mx * 2 ^ k /\ ex = ez + k.
Proof.
  intros Hex. unfold binary_round, shl_align.
  remember (fexp prec emax (Zpos (digits2_pos mx) + ex)) as E eqn:HE.
  assert (HE' : E = Z.max (Zpos (digits2_pos mx) + ex - 53) (-1074))
    by (subst E; apply fexp_eq).
  destruct (E - ex) as [|p|p] eqn:Hn.
  - exists mx, ex, 0. simpl Zdigits2. rewrite <- HE.
    repeat split; try lia.
  - exists mx, ex, 0. simpl Zdigits2. rewrite <- HE.
    repeat split; try lia.
  - exists (Pos.iter xO mx p), E, (Zpos p). simpl Zdigits2.
    rewrite digits2_pos_shift, iter_xO_value.
    replace (Zpos (digits2_pos mx + p) + E)
      with (Zpos (digits2_pos mx) + ex) by lia.
    rewrite <- HE. repeat split; try lia.
Qed.

Lemma binary_round_lower (mx mA : positive) (ex eA : Z) :
  -1074 <= ex ->
  valid_binary (S754_finite false mA eA) = true ->
  valid_binary (binary_round prec emax false mx ex) = true ->
  V (Zpos mA) eA <= V (Zpos mx) ex ->
  SFleb (S754_finite false mA eA) (binary_round prec emax false mx ex) = true.
Proof.
  intros Hex HA HR HV.
  destruct (@binary_round_aligned mx ex Hex)
    as (mz & ez & k & Heq & Hez & Henough & Hk & Hmz & Hexk).
  rewrite Heq in *. apply round_aux_lower; auto; try lia.
  rewrite Hmz, V_shift, <- Hexk by lia. exact HV.
Qed.

Lemma binary_round_upper (mx mA : positive) (ex eA : Z) :
  -1074 <= ex ->
  valid_binary (S754_finite false mA eA) = true ->
  valid_binary (binary_round prec emax false mx ex) = true ->
  V (Zpos mx + 1) ex <= V (Zpos mA) eA ->
  SFleb (binary_round prec emax false mx ex) (S754_finite false mA eA) = true.
Proof.
  intros Hex HA HR HV.
  destruct (@binary_round_aligned mx ex Hex)
    as (mz & ez & k & Heq & Hez & Henough & Hk & Hmz & Hexk).
  rewrite Heq in *. apply round_aux_upper; auto; try lia.
  eapply Z.le_trans; [|exact HV].
  apply Z.le_trans with (V ((Zpos mx + 1) * 2 ^ k) ez).
  - apply V_mono_m; [lia|]. rewrite Hmz.
    assert (0 < 2 ^ k) by (apply Z.pow_pos_nonneg; lia). nia.
  - rewrite V_shift, <- Hexk by lia. lia.
Qed.

(** *** Numbers that are not negative *)

Lemma binary_round_aux_nonneg (mx ex : Z) (lx : location) :
  0 <= mx -> SF_nonneg (binary_round_aux prec emax false mx ex lx).
Proof.
  intros Hm. pose proof (@binary_round_aux_not_nan false mx ex lx Hm) as Hnan.
  unfold binary_round_aux in *.
  destruct (shr_fexp prec emax mx ex lx) as [mrs' e'].
  destruct (shr_fexp prec emax _ e' loc_Exact) as [mrs'' e''].
  destruct (shr_m mrs'') as [|p|p]; [exact I| |congruence].
  destruct (e'' <=? emax - prec); exact I.
Qed.

Lemma binary_round_nonneg (m : positive) (e : Z) :
  SF_nonneg (binary_round prec emax false m e).
Proof.
  unfold binary_round. destruct (shl_align _ _ _) as [mz ez].
  apply binary_round_aux_nonneg. lia.
Qed.

Lemma SFadd_nonneg (x y : spec_float) :
  SF_nonneg x -> SF_nonneg y -> SF_nonneg (SF64add x y).
Proof.
  intros Hx Hy.
  destruct x as [[|]|[|]| |[|] mx ex]; try contradiction;
    destruct y as [[|]|[|]| |[|] my ey]; try contradiction; try exact I.
  unfold SF64add, SFadd, binary_normalize. cbn [cond_Zopp Z.add].
  apply binary_round_nonneg.
Qed.

Lemma add_nonneg (x y : number) : nonneg x -> nonneg y -> nonneg (x + y)%float.
Proof. unfold nonneg. rewrite add_spec. apply SFadd_nonneg. Qed.

Lemma SFdiv_finite_nonneg (x : spec_float) (my : positive) (ey : Z) :
  SF_nonneg x -> SF_nonneg (SF64div x (S754_finite false my ey)).
Proof.
  intros Hx.
  destruct x as [[|]|[|]| |[|] mx ex]; try contradiction; try exact I.
  unfold SF64div, SFdiv, SFdiv_core_binary. cbn [xorb].
  set (m' := match _ - _ with Zpos _ => _ | Z0 => _ | Zneg _ => _ end).
  assert (Hm' : 0 <= m').
  { subst m'. destruct (_ - _); try lia. apply Z.shiftl_nonneg. lia. }
  pose proof (Z.div_pos m' (Zpos my) Hm' ltac:(lia)) as Hq.
  unfold Z.div in Hq.
  destruct (Z.div_eucl m' (Z.pos my)) as [q r]. simpl in Hq.
  now apply binary_round_aux_nonneg.
Qed.

(** The ratio of a number that is not negative to a positive one is NaN
    (for Infinity over Infinity) or not negative. *)
Lemma SFdiv_nonneg_positive (x y : spec_float) :
  SF_nonneg x -> SF_nonneg y -> SFeqb y (S754_zero false) = false ->
  SF64div x y = S754_nan \/ SF_nonneg (SF64div x y).
Proof.
  intros Hx Hy Hy0.
  destruct y as [[|]|[|]| |[|] my ey]; simpl in Hy; try contradiction;
    try discriminate.
  - destruct x as [[|]|[|]| |[|] mx ex]; simpl in *; try contradiction; auto.
  - right. now apply SFdiv_finite_nonneg.
Qed.

Lemma nonneg_not_nan (x : number) : nonneg x -> is_nan x = false.
Proof.
  unfold nonneg. intros H. destruct (is_nan x) eqn:Hn; auto.
  apply Prim2SF_nan in Hn. rewrite Hn in H. contradiction.
Qed.

Lemma nonneg_zero_le (x : number) : nonneg x -> (zero <=? x)%float = true.
Proof.
  unfold nonneg. rewrite leb_spec.
  change (Prim2SF zero) with (S754_zero false).
  destruct (Prim2SF x) as [[|]|[|]| |[|] m e]; simpl; try contradiction; auto.
Qed.

(** The gains and the losses of [calculateRSI]. *)
Lemma gain_nonneg (change : number) :
  nonneg (if (zero <? change)%float then change else zero).
Proof.
  destruct (zero <? change)%float eqn:H; [|exact I].
  unfold nonneg. rewrite ltb_spec in H.
  change (Prim2SF zero) with (S754_zero false) in H.
  destruct (Prim2SF change) as [[|]|[|]| |[|] m e]; simpl in *;
    try discriminate; auto.
Qed.

Lemma loss_nonneg (change : number) :
  nonneg (if (change <? zero)%float then Math_abs change else zero).
Proof.
  destruct (change <? zero)%float eqn:H; [|exact I].
  unfold nonneg, Math_abs. rewrite abs_spec. rewrite ltb_spec in H.
  change (Prim2SF zero) with (S754_zero false) in H.
  destruct (Prim2SF change) as [[|]|[|]| |[|] m e]; simpl in *;
    try discriminate; auto.
Qed.

Lemma reduce_add_nonneg (l : list number) (sum : number) :
  Forall nonneg l -> reduce PrimFloat.add l = Ok sum -> nonneg sum.
Proof.
  destruct l as [|x l]; [discriminate|]. simpl. intros Hl [= <-].
  inversion Hl as [|? ? Hx Hrest]; subst. clear Hl.
  revert x Hx. induction Hrest as [|y l Hy Hrest IH]; intros x Hx; simpl; auto.
  apply IH. now apply add_nonneg.
Qed.

Lemma div_period_nonneg (x : number) (k : Z) :
  0 < k < 2 ^ 53 -> nonneg x -> nonneg (x / of_int k)%float.
Proof.
  intros Hk Hx. unfold nonneg. rewrite div_spec.
  destruct (of_int_finite Hk) as (m & e & ->).
  now apply SFdiv_finite_nonneg.
Qed.

Lemma SFleb_V_inv (ma mb : positive) (ea eb : Z) :
  valid_binary (S754_finite false ma ea) = true ->
  valid_binary (S754_finite false mb eb) = true ->
  SFleb (S754_finite false ma ea) (S754_finite false mb eb) = true ->
  V (Zpos ma) ea <= V (Zpos mb) eb.
Proof.
  intros Ha Hb Hle.
  apply valid_finite in Ha. destruct Ha as (Hahi & Hae & Hacan).
  apply valid_finite in Hb. destruct Hb as (Hbhi & Hbe & Hbcan).
  unfold SFleb, SFcompare in Hle.
  destruct (Z.compare_spec ea eb) as [Heq|Hlt|Hgt]; try discriminate.
  - subst eb. rewrite Pos.compare_cont_spec in Hle. simpl in Hle.
    apply V_mono_m; [lia|].
    destruct (Pos.compare_spec ma mb); try discriminate; lia.
  - assert (H52 : 2 ^ 52 <= Zpos mb) by lia.
    pose proof (@V_lt_pow (Zpos ma) ea 53 ltac:(lia) ltac:(lia) Hahi).
    pose proof (@V_ge_pow (Zpos mb) eb 52 ltac:(lia) ltac:(lia) H52).
    assert (2 ^ (53 + ea + 1074) <= 2 ^ (52 + eb + 1074))
      by (apply Z.pow_le_mono_r; lia).
    lia.
Qed.

Lemma shl_align_value (mx : positive) (ex ez : Z) :
  ez <= ex -> -1074 <= ez ->
  V (Zpos (fst (shl_align mx ex ez))) ez = V (Zpos mx) ex.
Proof.
  intros Hle Hez. unfold shl_align.
  destruct (ez - ex) as [|p|p] eqn:Hn; try lia.
  - replace ez with ex by lia. reflexivity.
  - cbn [fst]. rewrite iter_xO_value, V_shift by lia. f_equal. lia.
Qed.

Lemma Prim2SF_one : Prim2SF 1%float = SF_one.
Proof. reflexivity. Qed.

Lemma Prim2SF_hundred : Prim2SF 100%float = SF_hundred.
Proof. reflexivity. Qed.

(** *** [1 + rs] is at least 1 *)

Lemma one_plus_positive (rs : number) (m : positive) (e : Z) :
  Prim2SF rs = S754_finite false m e ->
  SFleb SF_one (Prim2SF (1 + rs)%float) = true.
Proof.
  intros Hrs.
  pose proof (Prim2SF_valid rs) as Hvalid. rewrite Hrs in Hvalid.
  pose proof (valid_finite _ _ _ Hvalid) as (_ & He & _).
  pose proof (Prim2SF_valid (1 + rs)%float) as Hres.
  rewrite add_spec, Prim2SF_one, Hrs in Hres |- *.
  unfold SF_one, SF64add, SFadd, binary_normalize in Hres |- *.
  cbn [cond_Zopp Z.add] in Hres |- *.
  remember (Z.min (-52) e) as ez eqn:Hez.
  apply binary_round_lower;
    [lia | exact (Prim2SF_valid 1%float) | exact Hres |].
  rewrite Pos2Z.inj_add.
  rewrite <- (@shl_align_value 4503599627370496 (-52) ez) by lia.
  apply V_mono_m; lia.
Qed.

(** *** [100 / d] is at most 100 when [d] is at least 1 *)

Lemma Zdigits2_ge (m k : Z) : 0 <= k -> 2 ^ k <= m -> k < Zdigits2 m.
Proof.
  intros Hk Hm.
  assert (Hpos : 0 < m).
  { assert (0 < 2 ^ k) by (apply Z.pow_pos_nonneg; lia). lia. }
  pose proof (Zdigits2_bounds Hpos) as [_ Hhi].
  pose proof (Zdigits2_pos Hpos).
  apply (Z.pow_lt_mono_r_iff 2); lia.
Qed.

(** A valid number that is at least 1. *)
Lemma at_least_one (md : positive) (ed : Z) :
  valid_binary (S754_finite false md ed) = true ->
  SFleb SF_one (S754_finite false md ed) = true ->
  -52 <= ed <= 971 /\ 2 ^ 52 <= Zpos md < 2 ^ 53 /\
  2 ^ 52 <= Zpos md * 2 ^ (ed + 52).
Proof.
  intros Hvalid Hle.
  assert (Hv1 : valid_binary SF_one = true) by reflexivity.
  unfold SF_one in Hv1, Hle.
  pose proof (@SFleb_V_inv _ _ _ _ Hv1 Hvalid Hle) as HV.
  pose proof (valid_finite _ _ _ Hvalid) as (Hhi & He & Hcan).
  assert (H1 : V 4503599627370496 (-52) = 2 ^ 1074) by reflexivity.
  rewrite H1 in HV.
  pose proof (@V_lt_pow (Zpos md) ed 53 ltac:(lia) ltac:(lia) Hhi) as Hlt.
  assert (Hed : -52 <= ed).
  { assert (1074 < 53 + ed + 1074)
      by (apply (Z.pow_lt_mono_r_iff 2); lia). lia. }
  split; [lia|]. split; [lia|].
  unfold V in HV. replace (ed + 1074) with (ed + 52 + 1022) in HV by lia.
  rewrite Z.pow_add_r, Z.mul_assoc in HV by lia.
  change (2 ^ 1074) with (2 ^ 52 * 2 ^ 1022) in HV.
  apply Z.mul_le_mono_pos_r in HV; [exact HV | reflexivity].
Qed.

Lemma div_core_hundred (md : positive) (ed : Z) :
  -52 <= ed <= 971 -> 2 ^ 52 <= Zpos md < 2 ^ 53 ->
  SFdiv_core_binary prec emax 7036874417766400 (-46) (Zpos md) ed
  = (7036874417766400 * 2 ^ 53 / Zpos md, -99 - ed,
     new_location (Zpos md) ((7036874417766400 * 2 ^ 53) mod Zpos md)).
Proof.
  intros Hed Hmd. unfold SFdiv_core_binary.
  assert (Hd : Zdigits2 (Zpos md) = 53) by (apply Zdigits2_spec; lia).
  rewrite Hd. change (Zdigits2 7036874417766400) with 53.
  rewrite fexp_eq.
  replace (Z.min (Z.max (53 + -46 - (53 + ed) - 53) (-1074)) (-46 - ed))
    with (-99 - ed) by lia.
  replace (-46 - ed - (-99 - ed)) with 53 by lia.
  rewrite Z.shiftl_mul_pow2 by lia.
  unfold Z.div, Z.modulo.
  destruct (Z.div_eucl (7036874417766400 * 2 ^ 53) (Zpos md)) as [q r].
  reflexivity.
Qed.

Lemma hundred_over (d : number) (md : positive) (ed : Z) :
  Prim2SF d = S754_finite false md ed ->
  SFleb SF_one (Prim2SF d) = true ->
  SF_nonneg (Prim2SF (100 / d)%float) /\
  SFleb (Prim2SF (100 / d)%float) SF_hundred = true.
Proof.
  intros Hd Hle. split.
  { rewrite div_spec, Hd. now apply SFdiv_finite_nonneg. }
  pose proof (Prim2SF_valid d) as Hvalid. rewrite Hd in Hvalid, Hle.
  destruct (at_least_one _ _ Hvalid Hle) as (Hed & Hmd & Hone).
  destruct (Z.eq_dec (Zpos md * 2 ^ (ed + 52)) (2 ^ 52)) as [Heq|Hne].
  - (* [d] is 1 *)
    assert (ed = -52).
    { destruct (Z.eq_dec ed (-52)); auto. exfalso.
      assert (2 ^ 1 <= 2 ^ (ed + 52)) by (apply Z.pow_le_mono_r; lia).
      change (2 ^ 1) with 2 in *. nia. }
    subst ed. change (2 ^ (-52 + 52)) with 1 in Heq.
    assert (md = 4503599627370496%positive) by lia. subst md.
    assert (d = 1%float) by (apply Prim2SF_inj; rewrite Hd; reflexivity).
    subst d. reflexivity.
  - (* [d] is above 1 *)
    assert (Hstrict : 2 ^ 52 < Zpos md * 2 ^ (ed + 52)) by lia.
    pose proof (Prim2SF_valid (100 / d)%float) as Hres.
    rewrite div_spec, Prim2SF_hundred, Hd in Hres |- *.
    unfold SF_hundred, SF64div, SFdiv in Hres |- *.
    rewrite div_core_hundred in Hres |- * by assumption.
    cbn [xorb] in Hres |- *.
    remember (7036874417766400 * 2 ^ 53 / Zpos md) as q eqn:Hq.
    assert (Hmul : Zpos md * q <= 7036874417766400 * 2 ^ 53)
      by (subst q; apply Z.mul_div_le; lia).
    assert (Hq52 : 2 ^ 52 <= q).
    { subst q. apply Z.div_le_lower_bound; [lia|].
      change (7036874417766400 * 2 ^ 53)
        with (7036874417766400 * 2 * 2 ^ 52).
      apply Z.mul_le_mono_nonneg_r; lia. }
    assert (Hqpos : 0 < q) by lia.
    pose proof (@Zdigits2_ge q 52 ltac:(lia) Hq52) as Hdq.
    apply round_aux_upper;
      [lia | lia | rewrite fexp_eq; lia | exact (Prim2SF_valid 100%float)
       | exact Hres |].
    + (* the next point above the quotient is at most 100 *)
      assert (Hnext : q + 1 <= 7036874417766400 * 2 ^ (53 + ed)).
      { destruct (Z.le_gt_cases (q + 1) (7036874417766400 * 2 ^ (53 + ed)))
          as [|Hgt]; auto. exfalso.
        assert (Hge : 7036874417766400 * 2 ^ (53 + ed) <= q) by lia.
        replace (53 + ed) with (1 + (ed + 52)) in Hge by lia.
        rewrite Z.pow_add_r in Hge by lia. change (2 ^ 1) with 2 in Hge.
        assert (H53 : 2 ^ 53 = 2 * 2 ^ 52) by reflexivity.
        rewrite H53 in Hmul.
        assert (0 < 2 ^ (ed + 52)) by (apply Z.pow_pos_nonneg; lia).
        nia. }
      unfold V.
      replace (-46 + 1074) with (53 + ed + (-99 - ed + 1074)) by lia.
      rewrite (Z.pow_add_r 2 (53 + ed)), Z.mul_assoc by lia.
      apply Z.mul_le_mono_nonneg_r; [|exact Hnext].
      apply Z.pow_nonneg. lia.
Qed.

(** *** [100 - q] is between 0 and 100 when [q] is *)

Lemma hundred_minus (q : number) :
  SF_nonneg (Prim2SF q) -> SFleb (Prim2SF q) SF_hundred = true ->
  SF_nonneg (Prim2SF (100 - q)%float) /\
  SFleb (Prim2SF (100 - q)%float) SF_hundred = true.
Proof.
  intros Hq Hle.
  pose proof (Prim2SF_valid q) as Hvalid.
  pose proof (Prim2SF_valid (100 - q)%float) as Hres.
  rewrite sub_spec, Prim2SF_hundred in Hres |- *.
  destruct (Prim2SF q) as [[|]|[|]| |[|] mq eq]; try contradiction;
    try discriminate.
  - split; reflexivity.
  - assert (Hv100 : valid_binary SF_hundred = true) by reflexivity.
    unfold SF_hundred in Hle, Hv100.
    pose proof (@SFleb_V_inv _ _ _ _ Hvalid Hv100 Hle) as HV.
    pose proof (valid_finite _ _ _ Hvalid) as (Hmq & Heq & _).
    assert (Heq46 : eq <= -46).
    { unfold SFleb, SFcompare in Hle.
      destruct (Z.compare_spec eq (-46)); try discriminate; lia. }
    unfold SF_hundred, SF64sub, SFsub in Hres |- *.
    cbn [cond_Zopp] in Hres |- *.
    replace (Z.min (-46) eq) with eq in Hres |- * by lia.
    assert (Hself : fst (shl_align mq eq eq) = mq).
    { unfold shl_align. now rewrite Z.sub_diag. }
    rewrite Hself in Hres |- *.
    pose proof (@shl_align_value 7036874417766400 (-46) eq Heq46 ltac:(lia))
      as HM.
    remember (fst (shl_align 7036874417766400 (-46) eq)) as M eqn:HMdef.
    rewrite <- HM in HV.
    assert (HmqM : Zpos mq <= Zpos M).
    { unfold V in HV.
      assert (0 < 2 ^ (eq + 1074)) by (apply Z.pow_pos_nonneg; lia). nia. }
    unfold binary_normalize in Hres |- *.
    destruct (Zpos M - Zpos mq) as [|p|p] eqn:HD; try lia.
    + split; reflexivity.
    + split; [apply binary_round_nonneg|].
      apply binary_round_upper; [lia | exact Hv100 | exact Hres |].
      rewrite <- HM. apply V_mono_m; lia.
Qed.

(** *** The RSI formula *)

Lemma SF_nonneg_zero (x : number) : Prim2SF x = S754_zero false -> x = zero.
Proof. intros H. apply Prim2SF_inj. now rewrite H. Qed.

Lemma SF_nonneg_infinity (x : number) :
  Prim2SF x = S754_infinity false -> x = infinity.
Proof. intros H. apply Prim2SF_inj. now rewrite H. Qed.

(** For a relative strength [rs] that is not negative,
    [100 - 100 / (1 + rs)] lies between 0 and 100. *)
Lemma rsi_value_bounded (rs : number) :
  nonneg rs ->
  nonneg (100 - 100 / (1 + rs))%float /\
  (100 - 100 / (1 + rs) <=? 100)%float = true.
Proof.
  unfold nonneg. intros Hrs. rewrite leb_spec, Prim2SF_hundred.
  destruct (Prim2SF rs) as [[|]|[|]| |[|] m e] eqn:Hsf; try contradiction.
  - rewrite (SF_nonneg_zero _ Hsf). split; reflexivity.
  - rewrite (SF_nonneg_infinity _ Hsf). split; reflexivity.
  - pose proof (one_plus_positive _ Hsf) as Hone.
    destruct (Prim2SF (1 + rs)%float) as [[|]|[|]| |[|] md ed] eqn:Hd;
      try discriminate.
    + rewrite (SF_nonneg_infinity _ Hd). split; reflexivity.
    + rewrite <- Hd in Hone.
      destruct (hundred_over _ Hd Hone) as [Hq Hqle].
      exact (hundred_minus _ Hq Hqle).
Qed.

(** ** [createSequences] *)

Lemma createSequences_maps (data : list number) (lookback : nat) :
  createSequences data lookback =
  (map (fun i => slice data (i - Z.of_nat lookback) i)
       (range (Z.of_nat lookback) (Z.of_nat (length data))),
   map (fun i => nth (Z.to_nat i) data nan)
       (range (Z.of_nat lookback) (Z.of_nat (length data)))).
Proof. unfold createSequences. now rewrite push2_loop. Qed.

Lemma createSequences_length (data : list number) (lookback : nat) :
  length (fst (createSequences data lookback)) = (length data - lookback)%nat /\
  length (snd (createSequences data lookback)) = (length data - lookback)%nat.
Proof.
  rewrite createSequences_maps; simpl.
  rewrite !length_map, range_length. lia.
Qed.

Lemma createSequences_nth (data : list number) (lookback k : nat) :
  (k < length data - lookback)%nat ->
  nth k (fst (createSequences data lookback)) [] = firstn lookback (skipn k data) /\
  nth k (snd (createSequences data lookback)) nan = nth (lookback + k) data nan.
Proof.
  intros Hk. rewrite createSequences_maps; simpl.
  rewrite !map_range_nth by lia. split.
  - replace (Z.of_nat lookback + Z.of_nat k - Z.of_nat lookback)
      with (Z.of_nat k) by lia.
    rewrite <- Nat2Z.inj_add, slice_inside by lia.
    f_equal. lia.
  - f_equal. lia.
Qed.

(** C5. For every series and lookback, [createSequences] returns
    [max(0, len - lookback)] windows and as many targets; the [k]-th pair,
    produced for [i = lookback + k], is the window [series[i-lookback : i]]
    (the [lookback] values starting at position [k]), of length [lookback],
    with the target [series[i]]: pairs come in chronological order.  On
    [[1,2,3,4,5]] with lookback 2 the windows are [[1,2],[2,3],[3,4]] and the
    targets [3,4,5]. *)
Theorem createSequences_chronological_windows
        (data : list number) (lookback : nat) :
  let X := fst (createSequences data lookback) in
  let y := snd (createSequences data lookback) in
  length X = (length data - lookback)%nat /\
  length y = (length data - lookback)%nat /\
  (forall k, (k < length data - lookback)%nat ->
     nth k X [] = firstn lookback (skipn k data) /\
     length (nth k X []) = lookback /\
     nth k y nan = nth (lookback + k) data nan) /\
  createSequences [1; 2; 3; 4; 5]%float 2
  = ([[1; 2]; [2; 3]; [3; 4]], [3; 4; 5])%float.
Proof.
  cbv zeta. destruct (createSequences_length data lookback) as [HX Hy].
  repeat split; auto.
  - now apply createSequences_nth.
  - destruct (createSequences_nth data lookback H) as [-> _].
    rewrite length_firstn, length_skipn. lia.
  - now apply createSequences_nth.
Qed.

Lemma lastn_slide {A} (L : nat) (l : list A) (v : A) :
  (1 <= L <= length l)%nat ->
  slice_from (lastn L l) 1 ++ [v] = lastn L (l ++ [v]).
Proof.
  intros HL. unfold lastn.
  change 1 with (Z.of_nat 1).
  rewrite slice_from_drop, skipn_skipn, length_app, skipn_app.
  replace (length l + length [v] - L - length l)%nat with 0%nat
    by (simpl; lia).
  rewrite skipn_O. do 2 f_equal. simpl length. lia.
Qed.

Lemma map_nth_range {A B} (g : A -> B) (l : list A) (d : A) :
  map (fun i => g (nth (Z.to_nat i) l d)) (range 0 (Z.of_nat (length l)))
  = map g l.
Proof.
  apply nth_ext with (d := g d) (d' := g d).
  - rewrite !length_map, range_length. lia.
  - intros k Hk. rewrite length_map, range_length in Hk.
    rewrite map_range_nth by lia.
    rewrite nth_map_inside with (d' := d) by lia.
    do 2 f_equal. lia.
Qed.

(** ** [LSTMService] *)

Section ServiceProperties.
Context {tf : Backend}.

(** What [trainModel] does when the history is no longer than [lookback]. *)
Lemma trainModel_short (this : LSTMService) prices epochs lookback :
  (length prices <= lookback)%nat ->
  trainModel this prices epochs lookback =
  ({| model := model this;
      scaler := Some {| min := Math_min prices; max := Math_max prices |} |},
   Throw not_enough_data).
Proof.
  intros Hlen. unfold trainModel, normalizeData.
  match goal with
  | |- context [createSequences ?n _] => set (normalized := n)
  end.
  destruct (createSequences_length normalized lookback) as [HX _].
  destruct (createSequences normalized lookback) as [X y]; simpl in *.
  replace (length X) with 0%nat; [reflexivity|].
  subst normalized. rewrite length_map in HX. lia.
Qed.

(** What [trainModel] does when the history is longer than [lookback]. *)
Lemma trainModel_long (this : LSTMService) prices epochs lookback :
  (lookback < length prices)%nat ->
  let normalized := fst (normalizeData prices) in
  let X := fst (createSequences normalized lookback) in
  let y := snd (createSequences normalized lookback) in
  trainModel this prices epochs lookback =
  match tensors X y with
  | Some e =>
      ({| model := model this; scaler := Some (snd (normalizeData prices)) |},
       Throw e)
  | None =>
      ({| model := Some (fst (fit (buildModel lookback) X y epochs));
          scaler := Some (snd (normalizeData prices)) |},
       match snd (fit (buildModel lookback) X y epochs) with
       | Some e => Throw e
       | None => Ok tt
       end)
  end.
Proof.
  intros Hlen. cbv zeta. unfold trainModel, normalizeData. cbn [fst snd].
  match goal with
  | |- context [createSequences ?n _] => set (normalized := n)
  end.
  destruct (createSequences_length normalized lookback) as [HX _].
  destruct (createSequences normalized lookback) as [X y]; simpl in *.
  assert (Hn : length normalized = length prices)
    by (subst normalized; now rewrite length_map).
  destruct (Nat.eqb_spec (length X) 0) as [H0|_]; [lia|].
  destruct (tensors X y); [reflexivity|].
  destruct (fit (buildModel lookback) X y epochs) as [trained [e|]];
    reflexivity.
Qed.

Lemma predict_stored (m : LayersModel) (s : Scaler) now prices lookback h :
  predict {| model := Some m; scaler := Some s |} now prices lookback h =
  match rollout m h (slice_from (map (normalize s) prices)
                                (- Z.of_nat lookback)) [] with
  | Throw e => Throw e
  | Ok predictions =>
      Ok (datedPredictions now (denormalizeData predictions s))
  end.
Proof. reflexivity. Qed.

(** [setDate(getDate() + k)] moves the local time [k] days on. *)
Lemma setDate_getDate (t k : Z) :
  Date.setDate t (Date.getDate t + k)
  = Date.UTC (Date.LocalTime t + k * Date.msPerDay).
Proof.
  unfold Date.setDate, Date.getDate, Date.MakeDate, Date.MakeDay,
    Date.TimeWithinDay, Date.Day. cbv zeta. f_equal.
  pose proof (Z.div_mod (Date.LocalTime t) Date.msPerDay ltac:(discriminate))
    as H.
  unfold Date.msPerDay in *. lia.
Qed.


Lemma datedPredictions_map now (denormalized : list number) :
  datedPredictions now denormalized =
  map (fun i => {| date := shifted_date now (i + 1);
                   prediction := toFixed2 (nth (Z.to_nat i) denormalized nan) |})
      (range 0 (Z.of_nat (length denormalized))).
Proof.
  unfold datedPredictions. rewrite push_loop. cbn [app].
  apply map_ext. intros i. cbv zeta. f_equal.
  rewrite <- Z.add_assoc. now rewrite setDate_getDate.
Qed.

Lemma datedPredictions_length now denormalized :
  length (datedPredictions now denormalized) = length denormalized.
Proof.
  rewrite datedPredictions_map, length_map, range_length. lia.
Qed.

Lemma datedPredictions_values now denormalized :
  map prediction (datedPredictions now denormalized)
  = map toFixed2 denormalized.
Proof.
  rewrite datedPredictions_map, map_map; simpl.
  apply map_nth_range.
Qed.


(** The loop of [predict], step by step: every window is the last [L]
    values of the normalized history followed by the predictions made so
    far. *)
Lemma rollout_windows (m : LayersModel) (base : list number) (L : nat) :
  forall steps acc out,
    (1 <= L <= length (base ++ acc))%nat ->
    rollout m steps (lastn L (base ++ acc)) acc = Ok out ->
    exists new,
      out = acc ++ new /\ length new = steps /\
      forall j, (j < steps)%nat ->
        modelPredict m (lastn L (base ++ acc ++ firstn j new))
        = Ok (nth j new nan).
Proof.
  induction steps as [|steps IH]; intros acc out HL Hrun; simpl in Hrun.
  - exists []. rewrite app_nil_r. repeat split; [congruence | lia].
  - destruct (modelPredict m (lastn L (base ++ acc))) as [v|e] eqn:Hv;
      [|discriminate].
    rewrite lastn_slide, <- app_assoc in Hrun by assumption.
    apply IH in Hrun; [|rewrite !length_app in *; simpl; lia].
    destruct Hrun as (new & -> & Hlen & Hstep).
    exists (v :: new). rewrite <- app_assoc. repeat split; simpl; [lia|].
    intros [|j] Hj; simpl.
    + now rewrite app_nil_r.
    + specialize (Hstep j ltac:(lia)).
      now rewrite <- app_assoc in Hstep.
Qed.

Lemma rollout_total (m : LayersModel) :
  (forall window, exists v, modelPredict m window = Ok v) ->
  forall steps current acc, exists out, rollout m steps current acc = Ok out.
Proof.
  intros Htotal. induction steps as [|steps IH]; intros current acc; simpl.
  - now exists acc.
  - destruct (Htotal current) as [v ->]. apply IH.
Qed.

End ServiceProperties.

Section ServiceClaims.
Context {tf : Backend}.

Lemma rollout_length (m : LayersModel) :
  forall steps current acc out,
    rollout m steps current acc = Ok out ->
    length out = (length acc + steps)%nat.
Proof.
  induction steps as [|steps IH]; intros current acc out Hrun; simpl in Hrun.
  - injection Hrun as <-. lia.
  - destruct (modelPredict m current) as [v|e]; [|discriminate].
    apply IH in Hrun. rewrite length_app in Hrun. simpl in Hrun. lia.
Qed.

(** C1. With a model and a scaler stored and a history of at least
    [lookback] prices, a forecast that returns has exactly [h] points; there
    are [h] predictions such that the input of step [k] is the last
    [lookback] values of the history normalized with the stored scaler
    followed by the predictions of the steps before [k] (step 0 sees the
    last [lookback] normalized prices), the model's output on that window is
    prediction [k], and the returned values are these predictions
    denormalized with the stored scaler (then rounded to two decimals by
    [toFixed2]).  When the model answers on every window the forecast
    returns. *)
Theorem predict_iterative_rollout
        (m : LayersModel) (s : Scaler) (now : Z) (prices : list number)
        (lookback h : nat) :
  (0 < lookback <= length prices)%nat ->
  let this := {| model := Some m; scaler := Some s |} in
  let normalized := map (normalize s) prices in
  (forall out,
      predict this now prices lookback h = Ok out ->
      exists predictions,
        length predictions = h /\ length out = h /\
        (forall k, (k < h)%nat ->
           modelPredict m (lastn lookback (normalized ++ firstn k predictions))
           = Ok (nth k predictions nan)) /\
        map prediction out = map toFixed2 (map (denormalize s) predictions)) /\
  ((forall window, exists v, modelPredict m window = Ok v) ->
   exists out, predict this now prices lookback h = Ok out).
Proof.
  intros Hlook this normalized. subst this. split.
  - intros out Hout. rewrite predict_stored in Hout.
    fold normalized in Hout.
    rewrite slice_from_last in Hout by lia.
    change (skipn (length normalized - lookback) normalized)
      with (lastn lookback normalized) in Hout.
    rewrite <- (app_nil_r normalized) in Hout at 1.
    destruct (rollout m h (lastn lookback (normalized ++ [])) [])
      as [predictions|e] eqn:Hrun; [|discriminate].
    injection Hout as <-.
    apply rollout_windows in Hrun;
      [|rewrite app_nil_r; unfold normalized; rewrite length_map; lia].
    destruct Hrun as (new & -> & Hlen & Hstep). simpl in *.
    exists new. repeat split; auto.
    + rewrite datedPredictions_length. unfold denormalizeData.
      now rewrite length_map.
    + apply datedPredictions_values.
  - intros Htotal. rewrite predict_stored.
    destruct (rollout_total m Htotal h
                (slice_from (map (normalize s) prices) (- Z.of_nat lookback)) [])
      as [predictions ->].
    eauto.
Qed.




(** C8. A history of at most [lookback] prices makes [trainModel] throw
    [Error('Not enough data to train the model')]: the sequence dataset
    built from it is empty. *)
Theorem trainModel_insufficient_data
        (this : LSTMService) (prices : list number) (epochs lookback : nat) :
  (length prices <= lookback)%nat ->
  fst (createSequences (fst (normalizeData prices)) lookback) = [] /\
  snd (trainModel this prices epochs lookback) = Throw not_enough_data.
Proof.
  intros Hlen. split.
  - apply length_zero_iff_nil.
    destruct (createSequences_length (fst (normalizeData prices)) lookback)
      as [-> _].
    unfold normalizeData; simpl. rewrite length_map. lia.
  - now rewrite trainModel_short.
Qed.


(** C10. When the history is no longer than [lookback], [trainModel]
    throws after it has replaced the stored scaler by the minimum and
    maximum of that history, and leaves the stored model as it was; a
    forecast made afterwards runs the old model with the new scaler. *)
Theorem trainModel_failure_keeps_model_replaces_scaler
        (this : LSTMService) (prices : list number) (epochs lookback : nat) :
  (length prices <= lookback)%nat ->
  let fitted := {| min := Math_min prices; max := Math_max prices |} in
  let after := fst (trainModel this prices epochs lookback) in
  snd (trainModel this prices epochs lookback) = Throw not_enough_data /\
  model after = model this /\
  scaler after = Some fitted /\
  forall m now history lookback' h,
    model this = Some m ->
    predict after now history lookback' h =
    match rollout m h (slice_from (map (normalize fitted) history)
                                  (- Z.of_nat lookback')) [] with
    | Throw e => Throw e
    | Ok predictions =>
        Ok (datedPredictions now (denormalizeData predictions fitted))
    end.
Proof.
  intros Hlen fitted after. subst after.
  rewrite trainModel_short by assumption. simpl.
  repeat split.
  intros m now history lookback' h Hm.
  rewrite Hm. apply predict_stored.
Qed.

End ServiceClaims.

(** ** The scaler *)

Lemma SFeqb_finite_refl (x : spec_float) :
  SF_finite x -> SFeqb x x = true.
Proof.
  destruct x as [s|s| |[|] m e]; simpl; try contradiction; auto; intros _;
    unfold SFeqb; simpl;
    now rewrite Z.compare_refl, Pos.compare_cont_refl.
Qed.







(** C3, as stated, fails: the constant series [[5, 5, 5]] is accepted and
    its normalized values are all NaN.  [trainModel] raises nothing of its
    own on it either: with a lookback of 1 it hands the NaN windows and
    targets to the library, whichever it is, and the outcome of the call is
    the library's. *)
Lemma constant_series_is_accepted :
  normalizeData [5; 5; 5]%float
  = ([nan; nan; nan], {| min := 5; max := 5 |}) /\
  createSequences [nan; nan; nan]%float 1 = ([[nan]; [nan]], [nan; nan]) /\
  (forall (tf : Backend) (this : LSTMService) (epochs : nat),
      let X := [[nan]; [nan]]%float in
      let y := [nan; nan]%float in
      trainModel this [5; 5; 5]%float epochs 1 =
      match tensors X y with
      | Some e =>
          ({| model := model this;
              scaler := Some {| min := 5; max := 5 |} |}, Throw e)
      | None =>
          ({| model := Some (fst (fit (buildModel 1) X y epochs));
              scaler := Some {| min := 5; max := 5 |} |},
           match snd (fit (buildModel 1) X y epochs) with
           | Some e => Throw e
           | None => Ok tt
           end)
      end).
Proof.
  split; [reflexivity|]. split; [reflexivity|].
  intros tf this epochs X y.
  rewrite (@trainModel_long tf this [5; 5; 5]%float epochs 1
             ltac:(simpl; lia)).
  reflexivity.
Qed.

(** C3, as the code has it. Fitting the scaler checks nothing and raises
    nothing.  On the empty series [normalizeData] returns no values and the
    scaler [{min: Infinity, max: -Infinity}]; [trainModel] stores that
    scaler and then throws [Error('Not enough data to train the model')].
    On a constant series every normalized value is NaN; when the series is
    longer than [lookback], [trainModel] stores the scaler, hands the NaN
    dataset to the library and resolves or rejects as the tensor
    construction and [model.fit] do. *)
Theorem normalizeData_accepts_degenerate_series {tf : Backend} :
  normalizeData [] = ([], {| min := infinity; max := neg_infinity |}) /\
  (forall this epochs lookback,
      trainModel this [] epochs lookback =
      ({| model := model this;
          scaler := Some {| min := infinity; max := neg_infinity |} |},
       Throw not_enough_data)) /\
  (forall c n,
      normalizeData (repeat c (S n))
      = (repeat nan (S n), {| min := c; max := c |})) /\
  (forall this c n epochs lookback,
      (lookback <= n)%nat ->
      let X := fst (createSequences (repeat nan (S n)) lookback) in
      let y := snd (createSequences (repeat nan (S n)) lookback) in
      X <> [] /\
      trainModel this (repeat c (S n)) epochs lookback =
      match tensors X y with
      | Some e =>
          ({| model := model this;
              scaler := Some {| min := c; max := c |} |}, Throw e)
      | None =>
          ({| model := Some (fst (fit (buildModel lookback) X y epochs));
              scaler := Some {| min := c; max := c |} |},
           match snd (fit (buildModel lookback) X y epochs) with
           | Some e => Throw e
           | None => Ok tt
           end)
      end).
Proof.
  split; [reflexivity|]. split; [|split].
  - intros this epochs lookback.
    now rewrite trainModel_short by (simpl; lia).
  - exact normalizeData_constant.
  - intros this c n epochs lookback Hlook X y. split.
    + subst X.
      destruct (createSequences_length (repeat nan (S n)) lookback) as [HX _].
      rewrite repeat_length in HX. intros H. rewrite H in HX.
      cbn [length] in HX. lia.
    + rewrite (@trainModel_long tf this (repeat c (S n)) epochs lookback)
        by (rewrite repeat_length; lia).
      cbv zeta. rewrite normalizeData_constant. reflexivity.
Qed.

(** ** The indicators *)

Lemma fold_left_ext {A B} (f g : A -> B -> A) (l : list B) (init : A) :
  (forall acc i, f acc i = g acc i) -> fold_left f l init = fold_left g l init.
Proof.
  intros Hfg. revert init; induction l as [|i l IH]; intros init; simpl; auto.
  now rewrite Hfg, IH.
Qed.

Lemma sum_prices (points : list Stock.HistoricalPoint) (acc : number) :
  reduce_from (fun acc point => (acc + Stock.price point)%float) acc points
  = fold_left PrimFloat.add (map Stock.price points) acc.
Proof.
  unfold reduce_from. revert acc.
  induction points as [|p points IH]; intros acc; simpl; auto.
Qed.

Lemma Forall_window {A} (P : A -> Prop) (l : list A) (n k : nat) :
  Forall P l -> Forall P (firstn n (skipn k l)).
Proof.
  intros Hl.
  assert (Hskip : Forall P (skipn k l)).
  { revert k. induction Hl as [|x l Hx Hl IH]; intros [|k]; simpl; auto. }
  revert n. induction Hskip as [|x l' Hx Hl' IH]; intros [|n]; simpl; auto.
Qed.

Lemma calculateMovingAverage_map (data : list Stock.HistoricalPoint) period :
  Stock.calculateMovingAverage data period =
  map (fun i =>
         if i <? period - 1 then nan
         else arithmetic_mean
                (map Stock.price (slice data (i - period + 1) (i + 1))) period)
      (range 0 (Z.of_nat (length data))).
Proof.
  unfold Stock.calculateMovingAverage.
  rewrite <- (app_nil_l (map _ _)), <- push_loop.
  apply fold_left_ext. intros ma i.
  destruct (i <? period - 1); [reflexivity|].
  unfold arithmetic_mean. now rewrite sum_prices.
Qed.

(** C7. For a period [k > 0] the moving average has as many entries as the
    history.  The entry at [i] is NaN when [i < k - 1]; from [i = k - 1] on
    it is the mean of the [k] prices [prices[i-k+1 .. i]], and that mean is
    not NaN when the prices are finite numbers (and [k] is below [2^53]).
    On [[10, 20, 30]] with period 2 the result is [[NaN, 15, 25]]. *)
Theorem calculateMovingAverage_mean
        (data : list Stock.HistoricalPoint) (period : Z) :
  0 < period ->
  let ma := Stock.calculateMovingAverage data period in
  length ma = length data /\
  (forall i, (i < length data)%nat ->
     (Z.of_nat i < period - 1 -> nth i ma zero = nan) /\
     (period - 1 <= Z.of_nat i ->
      nth i ma zero
      = arithmetic_mean
          (map Stock.price
               (firstn (Z.to_nat period)
                       (skipn (i + 1 - Z.to_nat period) data)))
          period /\
      (period < 2 ^ 53 ->
       Forall (fun point => is_finite (Stock.price point) = true) data ->
       is_nan (nth i ma zero) = false))) /\
  Stock.calculateMovingAverage (Demo.points [10; 20; 30]%float) 2
  = [nan; 15; 25]%float.
Proof.
  intros Hperiod ma. subst ma. rewrite calculateMovingAverage_map.
  split; [|split; [|reflexivity]].
  - rewrite length_map, range_length. lia.
  - intros i Hi. rewrite map_range_nth by lia. simpl (0 + _).
    destruct (Z.ltb_spec (Z.of_nat i) (period - 1)) as [Hlt|Hge];
      split; try lia; auto.
    intros _.
    assert (Hslice : slice data (Z.of_nat i - period + 1) (Z.of_nat i + 1)
                     = firstn (Z.to_nat period)
                              (skipn (i + 1 - Z.to_nat period) data)).
    { replace (Z.of_nat i - period + 1)
        with (Z.of_nat (i + 1 - Z.to_nat period)) by lia.
      replace (Z.of_nat i + 1) with (Z.of_nat (i + 1)) by lia.
      rewrite slice_inside by lia. f_equal. lia. }
    rewrite Hslice. split; [reflexivity|].
    intros Hsmall Hfinite. apply mean_not_nan; [lia|].
    apply Forall_map. now apply Forall_window.
Qed.

(** *** [calculateRSI] *)

Lemma changes_length (data : list Stock.HistoricalPoint) :
  length (fst (Stock.changes data)) = (length data - 1)%nat /\
  length (snd (Stock.changes data)) = (length data - 1)%nat.
Proof.
  unfold Stock.changes. rewrite push2_loop; simpl.
  rewrite !length_map, range_length. lia.
Qed.

Lemma reduce_nonempty {A} (f : A -> A -> A) (l : list A) :
  l <> [] -> exists v, reduce f l = Ok v.
Proof. destruct l as [|x l]; [congruence|]. simpl. eauto. Qed.

Lemma window_nonempty {A} (l : list A) (period i : Z) :
  0 < period -> period - 1 <= i < Z.of_nat (length l) ->
  slice l (i - period + 1) (i + 1) <> [].
Proof.
  intros Hp Hi Hnil. apply (f_equal (@length A)) in Hnil.
  replace (i - period + 1)
    with (Z.of_nat (Z.to_nat (i - period + 1))) in Hnil by lia.
  replace (i + 1) with (Z.of_nat (Z.to_nat (i + 1))) in Hnil by lia.
  rewrite slice_inside in Hnil by lia.
  rewrite length_firstn, length_skipn in Hnil. simpl in Hnil. lia.
Qed.

(** With a positive period every entry of the second loop is computed. *)
Lemma rsi_entry_returns (gains losses : list number) (period i : Z) :
  0 < period -> length gains = length losses ->
  0 <= i < Z.of_nat (length gains) ->
  exists entry, Stock.rsi_entry gains losses period i = Ok entry.
Proof.
  intros Hp Hlen Hi. unfold Stock.rsi_entry.
  destruct (Z.ltb_spec i (period - 1)); [eauto|].
  destruct (reduce_nonempty PrimFloat.add
              (window_nonempty gains Hp (conj H (proj2 Hi)))) as [sg ->].
  rewrite Hlen in Hi.
  destruct (reduce_nonempty PrimFloat.add
              (window_nonempty losses Hp (conj H (proj2 Hi)))) as [sl ->].
  simpl. destruct (_ =? _)%float; eauto.
Qed.

Lemma rsi_loop_returns (gains losses : list number) (period : Z)
      (indices : list Z) :
  (forall i, In i indices ->
             exists entry, Stock.rsi_entry gains losses period i = Ok entry) ->
  forall init, exists rsi,
    fold_left
      (fun acc i =>
         rsi <- acc ;;
         entry <- Stock.rsi_entry gains losses period i ;;
         Ok (rsi ++ [entry]))
      indices (Ok init) = Ok rsi /\
    length rsi = (length init + length indices)%nat.
Proof.
  induction indices as [|i indices IH]; intros Hall init; simpl.
  - exists init. split; [reflexivity | lia].
  - destruct (Hall i (or_introl eq_refl)) as [entry ->]. simpl.
    destruct (IH (fun j Hj => Hall j (or_intror Hj)) (init ++ [entry]))
      as (rsi & -> & Hlen).
    exists rsi. split; [reflexivity|].
    rewrite length_app in Hlen. simpl in Hlen. lia.
Qed.

(** On a history that is not empty, and with a positive period, the RSI
    series has as many entries as the history. *)
Lemma calculateRSI_length (data : list Stock.HistoricalPoint) (period : Z) :
  0 < period -> data <> [] ->
  exists rsi, Stock.calculateRSI data period = Ok rsi /\
              length rsi = length data.
Proof.
  intros Hp Hdata. unfold Stock.calculateRSI.
  destruct (changes_length data) as [Hg Hl].
  destruct (Stock.changes data) as [gains losses]; simpl in *.
  destruct (@rsi_loop_returns gains losses period
              (range 0 (Z.of_nat (length gains)))) with (init := @nil number)
    as (rsi & -> & Hlen).
  - intros i Hi. apply rsi_entry_returns; [lia | congruence |].
    unfold range in Hi. apply in_map_iff in Hi.
    destruct Hi as (k & <- & Hk). apply in_seq in Hk. lia.
  - simpl. exists (nan :: rsi). split; [reflexivity|].
    rewrite range_length in Hlen. simpl in *.
    destruct data; [congruence|]. simpl in *. lia.
Qed.

(** An entry computed from a window whose average loss is 0 is 100. *)
Lemma rsi_entry_no_loss (gains losses : list number) (period i : Z)
      (sumGain sumLoss : number) :
  (i <? period - 1) = false ->
  reduce PrimFloat.add (slice gains (i - period + 1) (i + 1)) = Ok sumGain ->
  reduce PrimFloat.add (slice losses (i - period + 1) (i + 1)) = Ok sumLoss ->
  (sumLoss / of_int period =? zero)%float = true ->
  Stock.rsi_entry gains losses period i = Ok 100%float.
Proof.
  intros Hi Hg Hl Hzero. unfold Stock.rsi_entry.
  rewrite Hi, Hg, Hl. simpl. now rewrite Hzero.
Qed.

Lemma Forall_slice {A} (P : A -> Prop) (l : list A) (a b : Z) :
  Forall P l -> Forall P (slice l a b).
Proof. intros Hl. unfold slice. now apply Forall_window. Qed.

Lemma changes_nonneg (data : list Stock.HistoricalPoint) :
  Forall nonneg (fst (Stock.changes data)) /\
  Forall nonneg (snd (Stock.changes data)).
Proof.
  unfold Stock.changes. rewrite push2_loop. simpl.
  split; apply Forall_map, Forall_forall; intros i _;
    [apply gain_nonneg | apply loss_nonneg].
Qed.

Lemma rsi_entry_range (gains losses : list number) (period i : Z)
      (entry : number) :
  0 < period < 2 ^ 53 ->
  Forall nonneg gains -> Forall nonneg losses ->
  Stock.rsi_entry gains losses period i = Ok entry ->
  rsi_range entry.
Proof.
  intros Hp Hg Hl. unfold Stock.rsi_entry.
  destruct (i <? period - 1); [intros [= <-]; now left|].
  destruct (reduce PrimFloat.add (slice gains _ _)) as [sumGain|] eqn:Hsg;
    [|discriminate].
  destruct (reduce PrimFloat.add (slice losses _ _)) as [sumLoss|] eqn:Hsl;
    [|discriminate].
  cbn [bind].
  assert (HavgGain : nonneg (sumGain / of_int period)%float).
  { apply div_period_nonneg; auto.
    eapply reduce_add_nonneg; [|exact Hsg]. now apply Forall_slice. }
  assert (HavgLoss : nonneg (sumLoss / of_int period)%float).
  { apply div_period_nonneg; auto.
    eapply reduce_add_nonneg; [|exact Hsl]. now apply Forall_slice. }
  destruct (_ =? zero)%float eqn:Hzero; intros [= <-].
  - right. reflexivity.
  - rewrite eqb_spec in Hzero.
    destruct (@SFdiv_nonneg_positive _ _ HavgGain HavgLoss Hzero)
      as [Hnan|Hrs].
    + left. rewrite <- div_spec in Hnan. apply Prim2SF_nan in Hnan.
      rewrite (is_nan_eq _ Hnan). reflexivity.
    + right. rewrite <- div_spec in Hrs.
      destruct (@rsi_value_bounded _ Hrs) as [H0 H100].
      now rewrite (@nonneg_zero_le _ H0), H100.
Qed.

Lemma rsi_loop_range (gains losses : list number) (period : Z)
      (indices : list Z) :
  (forall i entry,
      Stock.rsi_entry gains losses period i = Ok entry -> rsi_range entry) ->
  forall init rsi,
    Forall rsi_range init ->
    fold_left
      (fun acc i =>
         rsi <- acc ;;
         entry <- Stock.rsi_entry gains losses period i ;;
         Ok (rsi ++ [entry]))
      indices (Ok init) = Ok rsi ->
    Forall rsi_range rsi.
Proof.
  intros Hentry. induction indices as [|i indices IH]; intros init rsi Hinit;
    simpl.
  - now intros [= <-].
  - destruct (Stock.rsi_entry gains losses period i) as [entry|e] eqn:Hi;
      simpl.
    + apply IH. apply Forall_app. split; auto.
      constructor; [|constructor]. eapply Hentry; eauto.
    + intros Hthrow. exfalso. clear -Hthrow.
      induction indices as [|j indices IH]; simpl in Hthrow;
        [discriminate | auto].
Qed.

Lemma calculateRSI_range (data : list Stock.HistoricalPoint) (period : Z)
      (rsi : list number) :
  0 < period < 2 ^ 53 ->
  Stock.calculateRSI data period = Ok rsi -> Forall rsi_range rsi.
Proof.
  intros Hp. unfold Stock.calculateRSI.
  destruct (changes_nonneg data) as [Hg Hl].
  destruct (Stock.changes data) as [gains losses]. simpl in Hg, Hl.
  destruct (fold_left _ _ (Ok [])) as [entries|e] eqn:Hloop; [|discriminate].
  cbn [bind]. intros [= <-].
  constructor; [now left|].
  eapply rsi_loop_range; [| |exact Hloop]; [|constructor].
  intros i entry. now apply rsi_entry_range.
Qed.

(** C6. On the empty history [calculateRSI] returns the one-entry series
    [[NaN]], whatever the period: one entry for no data point, so the output
    is one longer than the input.  On every other history, with a positive
    period, it returns a series of the length of the history; with a period
    below [2^53] every entry is NaN or lies between 0 and 100; and an entry
    whose window has an average loss of 0 is exactly 100. *)
Theorem calculateRSI_alignment_and_range :
  (forall period,
      Stock.calculateRSI [] period = Ok [nan] /\
      length [nan] <> length (@nil Stock.HistoricalPoint)) /\
  (forall data period,
      0 < period -> data <> [] ->
      exists rsi, Stock.calculateRSI data period = Ok rsi /\
                  length rsi = length data) /\
  (forall data period rsi,
      0 < period < 2 ^ 53 ->
      Stock.calculateRSI data period = Ok rsi -> Forall rsi_range rsi) /\
  (forall gains losses period i sumGain sumLoss,
      (i <? period - 1) = false ->
      reduce PrimFloat.add (slice gains (i - period + 1) (i + 1)) = Ok sumGain ->
      reduce PrimFloat.add (slice losses (i - period + 1) (i + 1)) = Ok sumLoss ->
      (sumLoss / of_int period =? zero)%float = true ->
      Stock.rsi_entry gains losses period i = Ok 100%float).
Proof.
  split; [|split; [|split]].
  - intros period. split; [reflexivity | discriminate].
  - exact calculateRSI_length.
  - intros data period rsi. apply calculateRSI_range.
  - exact rsi_entry_no_loss.
Qed.

(** ** More on [createSequences] *)

Lemma firstn_succ_nth {A} (l : list A) (n : nat) (d : A) :
  (n < length l)%nat -> firstn (S n) l = firstn n l ++ [nth n l d].
Proof.
  revert n; induction l as [|a l IH]; intros [|n] Hn; simpl in *; try lia; auto.
  rewrite IH by lia. reflexivity.
Qed.

Lemma nth_skipn {A} (l : list A) (a k : nat) (d : A) :
  nth k (skipn a l) d = nth (a + k) l d.
Proof.
  revert l; induction a as [|a IH]; intros [|x l]; simpl; auto.
  now destruct k.
Qed.

Lemma tl_firstn_skipn {A} (l : list A) (n k : nat) :
  tl (firstn (S n) (skipn k l)) = firstn n (skipn (S k) l).
Proof.
  revert l; induction k as [|k IH]; intros [|x l];
    try (simpl; now rewrite firstn_nil); try reflexivity.
  apply IH.
Qed.

Lemma createSequences_targets (data : list number) (lookback : nat) :
  snd (createSequences data lookback) = skipn lookback data.
Proof.
  apply nth_ext with (d := nan) (d' := nan).
  - destruct (createSequences_length data lookback) as [_ ->].
    now rewrite length_skipn.
  - intros k Hk.
    destruct (createSequences_length data lookback) as [_ Hy].
    rewrite Hy in Hk.
    destruct (createSequences_nth data lookback Hk) as [_ ->].
    now rewrite nth_skipn.
Qed.

(** X1. The targets of [createSequences] are the series without its first
    [lookback] values; a window followed by its target is a run of
    [lookback + 1] consecutive values of the series; and, for a positive
    [lookback], each window is the window before it without its first value,
    followed by the target of that window. *)
Theorem createSequences_windows_slide (data : list number) (lookback : nat) :
  let X := fst (createSequences data lookback) in
  let y := snd (createSequences data lookback) in
  y = skipn lookback data /\
  (forall k, (k < length data - lookback)%nat ->
     nth k X [] ++ [nth k y nan] = firstn (S lookback) (skipn k data)) /\
  (forall k, (0 < lookback)%nat -> (S k < length data - lookback)%nat ->
     nth (S k) X [] = tl (nth k X []) ++ [nth k y nan]).
Proof.
  cbv zeta. split; [apply createSequences_targets|]. split.
  - intros k Hk. destruct (createSequences_nth data lookback Hk) as [-> ->].
    rewrite firstn_succ_nth with (d := nan)
      by (rewrite length_skipn; lia).
    now rewrite nth_skipn, Nat.add_comm.
  - intros k HL Hk.
    destruct (createSequences_nth data lookback Hk) as [-> _].
    assert (Hk' : (k < length data - lookback)%nat) by lia.
    destruct (createSequences_nth data lookback Hk') as [-> ->].
    destruct lookback as [|L]; [lia|].
    rewrite firstn_succ_nth with (d := nan) (n := L)
      by (rewrite length_skipn; lia).
    rewrite nth_skipn.
    replace (S k + L)%nat with (S L + k)%nat by lia.
    rewrite <- tl_firstn_skipn. reflexivity.
Qed.


(** ** More on [LSTMService] *)

Lemma last_nth_length {A} (l : list A) (d : A) :
  last l d = nth (length l - 1) l d.
Proof.
  induction l as [|a [|b l] IH]; try reflexivity.
  change (last (a :: b :: l) d) with (last (b :: l) d). rewrite IH.
  simpl length. replace (S (S (length l)) - 1)%nat with (S (length l - 0)) by lia.
  simpl. now rewrite Nat.sub_0_r.
Qed.

Lemma slice_from_whole {A} (l : list A) : slice_from l (- 0) = l.
Proof.
  change (- 0) with (Z.of_nat 0). now rewrite slice_from_drop.
Qed.

(** [slice(-lookback)] keeps [window_size] values. *)
Lemma slice_from_window_size {A} (l : list A) (lookback : nat) :
  length (slice_from l (- Z.of_nat lookback)) = window_size lookback (length l).
Proof.
  unfold window_size. destruct lookback as [|L].
  - simpl Z.of_nat. now rewrite slice_from_whole.
  - rewrite slice_from_last, length_skipn by lia.
    change (S L =? 0)%nat with false. cbv iota. lia.
Qed.

Section MoreService.
Context {tf : Backend}.

(** The window [predict] starts from, on the prices the model was trained
    on: the last training window moved on by one value. *)
Lemma first_window_follows_training (data : list number) (lookback : nat) :
  (0 < lookback < length data)%nat ->
  slice_from data (- Z.of_nat lookback)
  = tl (last (fst (createSequences data lookback)) [])
    ++ [last (snd (createSequences data lookback)) nan].
Proof.
  intros HL.
  destruct (createSequences_length data lookback) as [HX Hy].
  rewrite !last_nth_length, HX, Hy.
  assert (Hk : (length data - lookback - 1 < length data - lookback)%nat) by lia.
  destruct (createSequences_nth data lookback Hk) as [-> ->].
  rewrite slice_from_last by lia.
  destruct lookback as [|L]; [lia|].
  remember (length data - S L - 1)%nat as k eqn:Hkdef.
  rewrite (firstn_succ_nth (n := L) (skipn k data) nan)
    by (rewrite length_skipn; lia).
  rewrite nth_skipn.
  replace (length data - S L)%nat with (S k) by lia.
  assert (Hall : skipn (S k) data = firstn (S L) (skipn (S k) data)).
  { symmetry. apply firstn_all2. rewrite length_skipn. lia. }
  rewrite Hall at 1.
  rewrite (firstn_succ_nth (n := L) (skipn (S k) data) nan)
    by (rewrite length_skipn; lia).
  rewrite nth_skipn, <- tl_firstn_skipn.
  rewrite (firstn_succ_nth (n := L) (skipn k data) nan)
    by (rewrite length_skipn; lia).
  rewrite nth_skipn.
  replace (S k + L)%nat with (S L + k)%nat by lia.
  destruct L as [|L].
  - simpl. replace (k + 0)%nat with k by lia. reflexivity.
  - destruct (firstn (S L) (skipn k data)) eqn:Hf.
    + exfalso. apply (f_equal (@length _)) in Hf.
      rewrite length_firstn, length_skipn in Hf. cbn [length] in Hf. lia.
    + simpl. now rewrite <- app_assoc.
Qed.

(** X2. When the history is longer than [lookback] and no TensorFlow call
    throws, [trainModel] resolves and stores the scaler fitted to the prices
    and the model [fit] returned, whatever the service held before.  A
    [predict] on the same prices then runs that model on the series
    [normalizeData] produced; for a positive [lookback] its first window is
    the last training window without its first value, followed by the last
    target; and it returns [h] points when the model answers on every
    window. *)
Theorem trainModel_then_predict
        (this : LSTMService) (prices : list number) (epochs lookback : nat)
        (now : Z) (h : nat) :
  let normalized := fst (normalizeData prices) in
  let fitted := snd (normalizeData prices) in
  let X := fst (createSequences normalized lookback) in
  let y := snd (createSequences normalized lookback) in
  let trained := fst (fit (buildModel lookback) X y epochs) in
  let after := fst (trainModel this prices epochs lookback) in
  (lookback < length prices)%nat ->
  tensors X y = None ->
  snd (fit (buildModel lookback) X y epochs) = None ->
  snd (trainModel this prices epochs lookback) = Ok tt /\
  after = {| model := Some trained; scaler := Some fitted |} /\
  predict after now prices lookback h =
    match rollout trained h (slice_from normalized (- Z.of_nat lookback)) [] with
    | Throw e => Throw e
    | Ok predictions =>
        Ok (datedPredictions now (denormalizeData predictions fitted))
    end /\
  ((0 < lookback)%nat ->
   slice_from normalized (- Z.of_nat lookback)
   = tl (last X []) ++ [last y nan]) /\
  ((forall window, exists v, modelPredict trained window = Ok v) ->
   exists out,
     predict after now prices lookback h = Ok out /\ length out = h).
Proof.
  intros normalized fitted X y trained after Hlen Htensors Hfit.
  subst after. rewrite (@trainModel_long _ this prices epochs lookback Hlen).
  fold normalized. fold X. fold y. rewrite Htensors, Hfit.
  fold trained. fold fitted. cbn [fst snd].
  assert (Hpredict :
            predict {| model := Some trained; scaler := Some fitted |}
                    now prices lookback h =
            match rollout trained h
                          (slice_from normalized (- Z.of_nat lookback)) [] with
            | Throw e => Throw e
            | Ok predictions =>
                Ok (datedPredictions now (denormalizeData predictions fitted))
            end) by apply predict_stored.
  repeat split; auto.
  - intros HL. apply first_window_follows_training.
    subst normalized. unfold normalizeData; simpl. rewrite length_map. lia.
  - intros Htotal. rewrite Hpredict.
    destruct (rollout_total trained Htotal h
                (slice_from normalized (- Z.of_nat lookback)) [])
      as [predictions Hrun].
    rewrite Hrun. eexists. split; [reflexivity|].
    rewrite datedPredictions_length. unfold denormalizeData.
    rewrite length_map. apply rollout_length in Hrun. simpl in Hrun. lia.
Qed.

(** X3. [trainModel] does not undo what it stored when a TensorFlow call
    throws.  An error of the tensor construction leaves the old model with
    the new scaler; an error of [model.fit] leaves the freshly built model
    stored with the new scaler, and [predict] then runs that model.  The
    error is rethrown as it is. *)
Theorem trainModel_library_failure
        (this : LSTMService) (prices : list number) (epochs lookback : nat)
        (e : error) :
  let normalized := fst (normalizeData prices) in
  let fitted := snd (normalizeData prices) in
  let X := fst (createSequences normalized lookback) in
  let y := snd (createSequences normalized lookback) in
  let built := fst (fit (buildModel lookback) X y epochs) in
  (lookback < length prices)%nat ->
  (tensors X y = Some e ->
   trainModel this prices epochs lookback
   = ({| model := model this; scaler := Some fitted |}, Throw e)) /\
  (tensors X y = None ->
   snd (fit (buildModel lookback) X y epochs) = Some e ->
   trainModel this prices epochs lookback
   = ({| model := Some built; scaler := Some fitted |}, Throw e) /\
   forall now history lookback' h,
     predict (fst (trainModel this prices epochs lookback))
             now history lookback' h =
     match rollout built h (slice_from (map (normalize fitted) history)
                                       (- Z.of_nat lookback')) [] with
     | Throw e' => Throw e'
     | Ok predictions =>
         Ok (datedPredictions now (denormalizeData predictions fitted))
     end).
Proof.
  intros normalized fitted X y built Hlen.
  rewrite (@trainModel_long _ this prices epochs lookback Hlen).
  fold normalized. fold X. fold y. fold fitted. split.
  - intros ->. reflexivity.
  - intros -> Hfit. rewrite Hfit. fold built. split; [reflexivity|].
    intros now history lookback' h. apply predict_stored.
Qed.

Lemma lastn_map {A B} (f : A -> B) (n : nat) (l : list A) :
  lastn n (map f l) = map f (lastn n l).
Proof. unfold lastn. now rewrite skipn_map, length_map. Qed.

(** X4. For a positive [lookback], a forecast depends on the history only
    through its last [lookback] prices. *)
Theorem predict_reads_last_lookback
        (this : LSTMService) (now : Z) (prices prices' : list number)
        (lookback h : nat) :
  (0 < lookback)%nat ->
  lastn lookback prices = lastn lookback prices' ->
  predict this now prices lookback h = predict this now prices' lookback h.
Proof.
  intros HL Hsame. unfold predict.
  destruct (model this) as [m|]; [|reflexivity].
  destruct (scaler this) as [s|]; [|reflexivity].
  rewrite !slice_from_last by assumption.
  change (skipn (length ?l - lookback) ?l) with (lastn lookback l).
  fold (lastn lookback (map (fun price => ((price - min s) / (max s - min s))%float) prices)).
  fold (lastn lookback (map (fun price => ((price - min s) / (max s - min s))%float) prices')).
  now rewrite !lastn_map, Hsame.
Qed.

Lemma rollout_same_windows (m m' : LayersModel) (w : nat) :
  (0 < w)%nat ->
  (forall window, length window = w ->
     modelPredict m window = modelPredict m' window) ->
  forall steps current acc,
    length current = w ->
    rollout m steps current acc = rollout m' steps current acc.
Proof.
  intros Hw Hagree. induction steps as [|steps IH]; intros current acc Hlen;
    simpl; [reflexivity|].
  rewrite <- (Hagree current Hlen).
  destruct (modelPredict m current) as [v|e]; [|reflexivity].
  apply IH. rewrite length_app. change 1 with (Z.of_nat 1).
  rewrite slice_from_drop, length_skipn. simpl. lia.
Qed.

(** X5. On a history that is not empty every window [predict] hands to
    the model has [window_size lookback len] values, the smaller of
    [lookback] and the length of the history, and the whole history when
    [lookback] is 0: two models that agree on the windows of that size give
    the same forecast. *)
Theorem predict_window_size
        (m m' : LayersModel) (s : Scaler) (now : Z) (prices : list number)
        (lookback h : nat) :
  prices <> [] ->
  (forall window,
      length window = window_size lookback (length prices) ->
      modelPredict m window = modelPredict m' window) ->
  predict {| model := Some m; scaler := Some s |} now prices lookback h
  = predict {| model := Some m'; scaler := Some s |} now prices lookback h.
Proof.
  intros Hne Hagree. rewrite !predict_stored.
  assert (Hsize : length (slice_from (map (normalize s) prices)
                                     (- Z.of_nat lookback))
                  = window_size lookback (length prices)).
  { now rewrite slice_from_window_size, length_map. }
  rewrite (@rollout_same_windows m m' (window_size lookback (length prices)));
    auto.
  unfold window_size. destruct prices; [congruence|].
  destruct (lookback =? 0)%nat eqn:H0; simpl; [lia|].
  apply Nat.eqb_neq in H0. lia.
Qed.

Lemma rollout_split (m : LayersModel) :
  forall h k current acc out,
    rollout m (h + k) current acc = Ok out ->
    exists mid current',
      rollout m h current acc = Ok mid /\
      rollout m k current' mid = Ok out.
Proof.
  induction h as [|h IH]; intros k current acc out Hrun; simpl in *.
  - eauto.
  - destruct (modelPredict m current) as [v|e]; [|discriminate].
    now apply IH in Hrun.
Qed.

Lemma rollout_extends (m : LayersModel) :
  forall steps current acc out,
    rollout m steps current acc = Ok out ->
    firstn (length acc) out = acc.
Proof.
  induction steps as [|steps IH]; intros current acc out Hrun; simpl in Hrun.
  - injection Hrun as <-. apply firstn_all.
  - destruct (modelPredict m current) as [v|e]; [|discriminate].
    apply IH in Hrun. rewrite length_app in Hrun. simpl in Hrun.
    apply (f_equal (firstn (length acc))) in Hrun.
    rewrite firstn_firstn in Hrun.
    replace (Nat.min (length acc) (length acc + 1)) with (length acc)
      in Hrun by lia.
    rewrite Hrun, firstn_app, firstn_all, Nat.sub_diag. simpl.
    now rewrite app_nil_r.
Qed.

Lemma datedPredictions_firstn now (denormalized : list number) (h : nat) :
  firstn h (datedPredictions now denormalized)
  = datedPredictions now (firstn h denormalized).
Proof.
  apply nth_ext
    with (d := {| date := EmptyString; prediction := nan |})
         (d' := {| date := EmptyString; prediction := nan |}).
  - now rewrite length_firstn, !datedPredictions_length, length_firstn.
  - intros k Hk.
    rewrite length_firstn, datedPredictions_length in Hk.
    rewrite nth_firstn.
    destruct (Nat.ltb_spec k h) as [_|]; [|lia].
    rewrite !datedPredictions_map.
    rewrite !map_range_nth by (rewrite ?length_firstn; lia).
    rewrite nth_firstn.
    replace (Z.to_nat (0 + Z.of_nat k)) with k by lia.
    destruct (Nat.ltb_spec k h) as [_|]; [reflexivity|lia].
Qed.

(** X6. A longer horizon does not change the earlier points: the first
    [h] points of a forecast of horizon [h + k] are the forecast of
    horizon [h]. *)
Theorem predict_horizon_prefix
        (this : LSTMService) (now : Z) (prices : list number)
        (lookback h k : nat) (out : list PredictionData) :
  predict this now prices lookback (h + k) = Ok out ->
  predict this now prices lookback h = Ok (firstn h out).
Proof.
  unfold predict.
  destruct (model this) as [m|]; [|discriminate].
  destruct (scaler this) as [s|]; [|discriminate].
  destruct (rollout m (h + k) _ []) as [predictions|e] eqn:Hrun;
    [|discriminate].
  intros [= <-].
  destruct (rollout_split _ _ _ _ _ Hrun) as (mid & current' & Hh & Hk).
  rewrite Hh. f_equal.
  pose proof (rollout_extends _ _ _ _ Hk) as Hmid.
  pose proof (rollout_length _ _ _ _ Hh) as Hlen. simpl in Hlen.
  rewrite Hlen in Hmid.
  rewrite datedPredictions_firstn. unfold denormalizeData.
  now rewrite firstn_map, Hmid.
Qed.

End MoreService.


(** ** The order of numbers *)

Lemma V_valid_bounds (s : bool) (m : positive) (e : Z) :
  valid_binary (S754_finite s m e) = true ->
  0 < V (Zpos m) e < 2 ^ 2098.
Proof.
  intros H. apply valid_finite in H. destruct H as (Hm & He & _). split.
  - apply V_pos; lia.
  - apply Z.lt_le_trans with (2 ^ (53 + e + 1074)).
    + apply V_lt_pow; lia.
    + apply Z.pow_le_mono_r; lia.
Qed.

Lemma compare_V (ma mb : positive) (ea eb : Z) :
  valid_binary (S754_finite false ma ea) = true ->
  valid_binary (S754_finite false mb eb) = true ->
  match ea ?= eb with
  | Eq => Pos.compare_cont Eq ma mb
  | Lt => Lt
  | Gt => Gt
  end = (V (Zpos ma) ea ?= V (Zpos mb) eb).
Proof.
  intros Ha Hb.
  apply valid_finite in Ha. destruct Ha as (Hahi & Hae & Hacan).
  apply valid_finite in Hb. destruct Hb as (Hbhi & Hbe & Hbcan).
  symmetry. destruct (Z.compare_spec ea eb) as [Heq|Hlt|Hgt].
  - subst eb. rewrite Pos.compare_cont_spec. simpl.
    unfold V. assert (0 < 2 ^ (ea + 1074)) by (apply Z.pow_pos_nonneg; lia).
    change (Pos.compare ma mb) with (Zpos ma ?= Zpos mb).
    destruct (Z.compare_spec (Zpos ma) (Zpos mb)) as [E|L|G].
    + rewrite E. apply Z.compare_refl.
    + apply Z.compare_lt_iff. nia.
    + apply Z.compare_gt_iff. nia.
  - apply Z.compare_lt_iff.
    assert (H52 : 2 ^ 52 <= Zpos mb) by lia.
    pose proof (@V_lt_pow (Zpos ma) ea 53 ltac:(lia) ltac:(lia) Hahi).
    pose proof (@V_ge_pow (Zpos mb) eb 52 ltac:(lia) ltac:(lia) H52).
    assert (2 ^ (53 + ea + 1074) <= 2 ^ (52 + eb + 1074))
      by (apply Z.pow_le_mono_r; lia).
    lia.
  - apply Z.compare_gt_iff.
    assert (H52 : 2 ^ 52 <= Zpos ma) by lia.
    pose proof (@V_lt_pow (Zpos mb) eb 53 ltac:(lia) ltac:(lia) Hbhi).
    pose proof (@V_ge_pow (Zpos ma) ea 52 ltac:(lia) ltac:(lia) H52).
    assert (2 ^ (53 + eb + 1074) <= 2 ^ (52 + ea + 1074))
      by (apply Z.pow_le_mono_r; lia).
    lia.
Qed.

Lemma valid_sign (s s' : bool) (m : positive) (e : Z) :
  valid_binary (S754_finite s m e) = valid_binary (S754_finite s' m e).
Proof. reflexivity. Qed.

Lemma CompOpp_compare (a b : Z) : CompOpp (a ?= b) = (- a ?= - b).
Proof. rewrite <- Z.compare_antisym. now rewrite Z.compare_opp. Qed.

(** Two valid numbers neither of which is NaN compare as their values. *)
Lemma SFcompare_rank (x y : spec_float) :
  valid_binary x = true -> valid_binary y = true ->
  x <> S754_nan -> y <> S754_nan ->
  SFcompare x y = Some (SF_rank x ?= SF_rank y).
Proof.
  intros Hx Hy Hxn Hyn.
  assert (Hbig : 0 < 2 ^ 2100) by reflexivity.
  assert (H98 : 2 ^ 2098 < 2 ^ 2100) by reflexivity.
  destruct x as [sx|sx| |sx mx ex]; try congruence;
    destruct y as [sy|sy| |sy my ey]; try congruence;
    try (pose proof (V_valid_bounds _ _ _ Hx) as [Hx0 Hx1]);
    try (pose proof (V_valid_bounds _ _ _ Hy) as [Hy0 Hy1]);
    cbn [SFcompare SF_rank]; f_equal; symmetry;
    try (destruct sx); try (destruct sy); cbn [cond_Zopp];
    try reflexivity;
    try (apply Z.compare_lt_iff; lia); try (apply Z.compare_gt_iff; lia).
  - rewrite <- CompOpp_compare. rewrite <- compare_V.
    + destruct (ex ?= ey); reflexivity.
    + now rewrite (valid_sign false true).
    + now rewrite (valid_sign false true).
  - symmetry. now apply compare_V.
Qed.

Lemma SF_not_nan (x : number) : is_nan x = false -> Prim2SF x <> S754_nan.
Proof. intros H Hn. apply Prim2SF_nan in Hn. congruence. Qed.

Lemma compare_rank (x y : number) :
  is_nan x = false -> is_nan y = false ->
  SFcompare (Prim2SF x) (Prim2SF y) = Some (rank x ?= rank y).
Proof.
  intros Hx Hy. apply SFcompare_rank; auto using Prim2SF_valid, SF_not_nan.
Qed.

Lemma ltb_rank (x y : number) :
  is_nan x = false -> is_nan y = false ->
  (x <? y)%float = (rank x <? rank y).
Proof.
  intros Hx Hy. rewrite ltb_spec. unfold SFltb.
  rewrite compare_rank by assumption. unfold Z.ltb.
  destruct (rank x ?= rank y); reflexivity.
Qed.

Lemma leb_rank (x y : number) :
  is_nan x = false -> is_nan y = false ->
  (x <=? y)%float = (rank x <=? rank y).
Proof.
  intros Hx Hy. rewrite leb_spec. unfold SFleb.
  rewrite compare_rank by assumption. unfold Z.leb.
  destruct (rank x ?= rank y); reflexivity.
Qed.

Lemma eqb_rank (x y : number) :
  is_nan x = false -> is_nan y = false ->
  (x =? y)%float = (rank x =? rank y).
Proof.
  intros Hx Hy. rewrite eqb_spec. unfold SFeqb.
  rewrite compare_rank by assumption.
  destruct (Z.compare_spec (rank x) (rank y)); symmetry;
    [apply Z.eqb_eq | apply Z.eqb_neq | apply Z.eqb_neq]; lia.
Qed.

Lemma ltb_nan_l (x y : number) : is_nan x = true -> (x <? y)%float = false.
Proof.
  intros H. rewrite ltb_spec. apply Prim2SF_nan in H. now rewrite H.
Qed.

Lemma ltb_nan_r (x y : number) : is_nan y = true -> (x <? y)%float = false.
Proof.
  intros H. rewrite ltb_spec. apply Prim2SF_nan in H. rewrite H.
  unfold SFltb, SFcompare. now destruct (Prim2SF x).
Qed.

Lemma rank_zero (x : number) : is_zero x = true -> rank x = 0.
Proof.
  unfold is_zero. rewrite eqb_spec. unfold rank.
  change (Prim2SF zero) with (S754_zero false).
  pose proof (Prim2SF_valid x) as Hv.
  destruct (Prim2SF x) as [s|s| |s m e]; try reflexivity;
    unfold SFeqb, SFcompare; destruct s; discriminate.
Qed.

(** ** The scaler that [normalizeData] fits *)

Lemma min_from_nan (values : list number) :
  (exists x, In x values /\ is_nan x = true) ->
  forall lowest, min_from lowest values = nan.
Proof.
  induction values as [|v values IH]; intros (x & Hin & Hx) lowest.
  - destruct Hin.
  - simpl. destruct (is_nan v) eqn:Hv; [reflexivity|].
    assert (Hrest : exists x, In x values /\ is_nan x = true).
    { destruct Hin as [->|Hin]; [congruence | eauto]. }
    destruct (_ && _); [|destruct (_ <? _)%float]; now apply IH.
Qed.

Lemma max_from_nan (values : list number) :
  (exists x, In x values /\ is_nan x = true) ->
  forall highest, max_from highest values = nan.
Proof.
  induction values as [|v values IH]; intros (x & Hin & Hx) highest.
  - destruct Hin.
  - simpl. destruct (is_nan v) eqn:Hv; [reflexivity|].
    assert (Hrest : exists x, In x values /\ is_nan x = true).
    { destruct Hin as [->|Hin]; [congruence | eauto]. }
    destruct (_ && _); [|destruct (_ <? _)%float]; now apply IH.
Qed.

Lemma scale_nan (value : number) : ((value - nan) / (nan - nan))%float = nan.
Proof.
  apply Prim2SF_inj. rewrite div_spec, !sub_spec.
  change (Prim2SF nan) with S754_nan.
  now destruct (Prim2SF value) as [[|]|[|]| |[|] m e].
Qed.

(** X7. One NaN among the prices makes the fitted scaler
    [{min: NaN, max: NaN}] and every normalized value NaN. *)
Theorem normalizeData_nan_poisons (data : list number) :
  (exists x, In x data /\ is_nan x = true) ->
  normalizeData data
  = (map (fun _ => nan) data, {| min := nan; max := nan |}).
Proof.
  intros Hnan. unfold normalizeData, Math_min, Math_max.
  rewrite (@min_from_nan data Hnan), (@max_from_nan data Hnan). f_equal.
  apply map_ext. intros value. apply scale_nan.
Qed.

Lemma rank_infinity (x : number) :
  is_nan x = false -> 2 ^ 2100 <= rank x -> x = infinity.
Proof.
  intros Hx Hr. apply Prim2SF_inj. unfold rank in Hr.
  pose proof (Prim2SF_valid x) as Hv.
  assert (H98 : 2 ^ 2098 < 2 ^ 2100) by reflexivity.
  destruct (Prim2SF x) as [s|s| |s m e] eqn:E; cbn [SF_rank] in Hr.
  - exfalso. lia.
  - destruct s; [exfalso; cbn [cond_Zopp] in Hr; lia | reflexivity].
  - exfalso. lia.
  - exfalso. pose proof (V_valid_bounds _ _ _ Hv).
    destruct s; cbn [cond_Zopp] in Hr; lia.
Qed.

Lemma rank_neg_infinity (x : number) :
  is_nan x = false -> rank x <= - 2 ^ 2100 -> x = neg_infinity.
Proof.
  intros Hx Hr. apply Prim2SF_inj. unfold rank in Hr.
  pose proof (Prim2SF_valid x) as Hv.
  assert (H98 : 2 ^ 2098 < 2 ^ 2100) by reflexivity.
  destruct (Prim2SF x) as [s|s| |s m e] eqn:E; cbn [SF_rank] in Hr.
  - exfalso. lia.
  - destruct s; [reflexivity | exfalso; cbn [cond_Zopp] in Hr; lia].
  - exfalso. lia.
  - exfalso. pose proof (V_valid_bounds _ _ _ Hv).
    destruct s; cbn [cond_Zopp] in Hr; lia.
Qed.

Lemma zero_rank (x : number) : is_neg_zero x = true \/ is_pos_zero x = true ->
  rank x = 0.
Proof.
  unfold is_neg_zero, is_pos_zero.
  intros [H|H]; apply andb_prop in H; destruct H as [H _];
    now apply rank_zero.
Qed.

Lemma min_from_spec (values : list number) :
  Forall (fun x => is_nan x = false) values ->
  forall lowest, is_nan lowest = false ->
  let r := min_from lowest values in
  is_nan r = false /\ (r = lowest \/ In r values) /\
  rank r <= rank lowest /\ Forall (fun x => rank r <= rank x) values.
Proof.
  induction 1 as [|v values Hv Hvalues IH]; intros lowest Hlow; cbv zeta.
  - simpl. repeat split; auto. lia.
  - simpl. rewrite Hv.
    destruct (is_neg_zero v && is_pos_zero lowest) eqn:Hz.
    + apply andb_prop in Hz. destruct Hz as [Hz1 Hz2].
      pose proof (@zero_rank v (or_introl Hz1)) as Hrv.
      pose proof (@zero_rank lowest (or_intror Hz2)) as Hrl.
      destruct (IH v Hv) as (Hn & Hin & Hle & Hall).
      repeat split; auto; [|lia].
      destruct Hin as [Hin|Hin];
        [right; left; now rewrite Hin | right; right; exact Hin].
    + destruct (v <? lowest)%float eqn:Hlt.
      * rewrite ltb_rank in Hlt by assumption. apply Z.ltb_lt in Hlt.
        destruct (IH v Hv) as (Hn & Hin & Hle & Hall).
        repeat split; auto; [|lia].
      destruct Hin as [Hin|Hin];
        [right; left; now rewrite Hin | right; right; exact Hin].
      * rewrite ltb_rank in Hlt by assumption. apply Z.ltb_ge in Hlt.
        destruct (IH lowest Hlow) as (Hn & Hin & Hle & Hall).
        repeat split; auto.
        -- destruct Hin as [Hin|Hin]; [now left | right; right; exact Hin].
        -- constructor; auto. lia.
Qed.

Lemma max_from_spec (values : list number) :
  Forall (fun x => is_nan x = false) values ->
  forall highest, is_nan highest = false ->
  let r := max_from highest values in
  is_nan r = false /\ (r = highest \/ In r values) /\
  rank highest <= rank r /\ Forall (fun x => rank x <= rank r) values.
Proof.
  induction 1 as [|v values Hv Hvalues IH]; intros highest Hhigh; cbv zeta.
  - simpl. repeat split; auto. lia.
  - simpl. rewrite Hv.
    destruct (is_pos_zero v && is_neg_zero highest) eqn:Hz.
    + apply andb_prop in Hz. destruct Hz as [Hz1 Hz2].
      pose proof (@zero_rank v (or_intror Hz1)) as Hrv.
      pose proof (@zero_rank highest (or_introl Hz2)) as Hrl.
      destruct (IH v Hv) as (Hn & Hin & Hle & Hall).
      repeat split; auto; [|lia].
      destruct Hin as [Hin|Hin];
        [right; left; now rewrite Hin | right; right; exact Hin].
    + destruct (highest <? v)%float eqn:Hlt.
      * rewrite ltb_rank in Hlt by assumption. apply Z.ltb_lt in Hlt.
        destruct (IH v Hv) as (Hn & Hin & Hle & Hall).
        repeat split; auto; [|lia].
      destruct Hin as [Hin|Hin];
        [right; left; now rewrite Hin | right; right; exact Hin].
      * rewrite ltb_rank in Hlt by assumption. apply Z.ltb_ge in Hlt.
        destruct (IH highest Hhigh) as (Hn & Hin & Hle & Hall).
        repeat split; auto.
        -- destruct Hin as [Hin|Hin]; [now left | right; right; exact Hin].
        -- constructor; auto. lia.
Qed.

Lemma Math_min_spec (data : list number) :
  data <> [] -> Forall (fun x => is_nan x = false) data ->
  is_nan (Math_min data) = false /\ In (Math_min data) data /\
  Forall (fun x => rank (Math_min data) <= rank x) data.
Proof.
  intros Hne Hdata. unfold Math_min.
  destruct (@min_from_spec data Hdata infinity eq_refl) as (Hn & Hin & Hle & Hall).
  repeat split; auto.
  destruct Hin as [Heq|Hin]; [|exact Hin].
  destruct data as [|x data]; [congruence|].
  inversion Hall as [|? ? Hx _]; subst. inversion Hdata; subst.
  rewrite Heq in Hx. rewrite Heq. left.
  apply rank_infinity; auto.
Qed.

Lemma Math_max_spec (data : list number) :
  data <> [] -> Forall (fun x => is_nan x = false) data ->
  is_nan (Math_max data) = false /\ In (Math_max data) data /\
  Forall (fun x => rank x <= rank (Math_max data)) data.
Proof.
  intros Hne Hdata. unfold Math_max.
  destruct (@max_from_spec data Hdata neg_infinity eq_refl)
    as (Hn & Hin & Hle & Hall).
  repeat split; auto.
  destruct Hin as [Heq|Hin]; [|exact Hin].
  destruct data as [|x data]; [congruence|].
  inversion Hall as [|? ? Hx _]; subst. inversion Hdata; subst.
  rewrite Heq in Hx. rewrite Heq. left.
  apply rank_neg_infinity; auto.
Qed.

(** X8. On a series without NaN that is not empty, the minimum and the
    maximum of the fitted scaler are elements of the series and every
    element lies between them. *)
Theorem normalizeData_scaler_bounds (data : list number) :
  data <> [] -> Forall (fun x => is_nan x = false) data ->
  let s := snd (normalizeData data) in
  In (min s) data /\ In (max s) data /\
  Forall (fun x => ((min s <=? x) && (x <=? max s))%float = true) data.
Proof.
  intros Hne Hdata s. subst s. unfold normalizeData. cbn [snd min max].
  destruct (@Math_min_spec data Hne Hdata) as (Hnmin & Hinmin & Hmin).
  destruct (@Math_max_spec data Hne Hdata) as (Hnmax & Hinmax & Hmax).
  repeat split; auto.
  rewrite Forall_forall in *. intros x Hx.
  rewrite !leb_rank by auto.
  apply andb_true_intro. split; apply Z.leb_le; auto.
Qed.


(** ** The windows of [calculateRSI] *)

Lemma range_cons (a b : Z) : a < b -> range a b = a :: range (a + 1) b.
Proof.
  intros Hab. unfold range.
  replace (Z.to_nat (b - a)) with (S (Z.to_nat (b - (a + 1)))) by lia.
  simpl seq. simpl map. f_equal; [lia|].
  rewrite <- seq_shift, map_map. apply map_ext. intros k. lia.
Qed.

Lemma slice_map_range {A} (f : Z -> A) (a b s e : Z) :
  0 <= s <= e -> e <= b - a ->
  slice (map f (range a b)) s e = map f (range (a + s) (a + e)).
Proof.
  intros Hs He.
  assert (Hlen : length (map f (range a b)) = Z.to_nat (b - a))
    by now rewrite length_map, range_length.
  replace s with (Z.of_nat (Z.to_nat s)) at 1 by lia.
  replace e with (Z.of_nat (Z.to_nat e)) at 1 by lia.
  rewrite slice_inside by lia.
  destruct (Z.to_nat (b - a)) as [|n] eqn:Hn.
  - assert (s = 0 /\ e = 0) as [-> ->] by lia. simpl.
    replace (a + 0) with a by lia. unfold range. rewrite Z.sub_diag.
    reflexivity.
  - apply nth_ext with (d := f 0) (d' := f 0).
    + rewrite length_firstn, length_skipn, Hlen, length_map, range_length.
      lia.
    + intros k Hk.
      rewrite length_firstn, length_skipn, Hlen in Hk.
      rewrite nth_firstn.
      destruct (Nat.ltb_spec k (Z.to_nat e - Z.to_nat s)) as [_|]; [|lia].
      rewrite nth_skipn, !map_range_nth by lia. f_equal. lia.
Qed.

Lemma changes_maps (data : list Stock.HistoricalPoint) :
  Stock.changes data =
  (map (fun i => gain (price_change data i))
       (range 1 (Z.of_nat (length data))),
   map (fun i => loss (price_change data i))
       (range 1 (Z.of_nat (length data)))).
Proof. unfold Stock.changes. now rewrite push2_loop. Qed.

(** An entry of the second loop that is computed is the index of the
    [period] changes that end at its position. *)
Lemma rsi_entry_window (data : list Stock.HistoricalPoint) (period i : Z) :
  0 < period -> period - 1 <= i < Z.of_nat (length data) - 1 ->
  Stock.rsi_entry (fst (Stock.changes data)) (snd (Stock.changes data))
                  period i
  = Ok (relative_strength_index
          (map (price_change data) (range (i - period + 2) (i + 2))) period).
Proof.
  intros Hp Hi. rewrite changes_maps. cbn [fst snd]. unfold Stock.rsi_entry.
  destruct (Z.ltb_spec i (period - 1)) as [|_]; [lia|].
  rewrite !slice_map_range by lia.
  replace (1 + (i - period + 1)) with (i - period + 2) by lia.
  replace (1 + (i + 1)) with (i + 2) by lia.
  rewrite (@range_cons (i - period + 2) (i + 2)) by lia.
  cbn [map reduce bind relative_strength_index].
  rewrite !map_map. now destruct (_ =? zero)%float.
Qed.

Lemma rsi_loop_map (gains losses : list number) (period : Z)
      (entry : Z -> number) (indices : list Z) :
  (forall i, In i indices ->
             Stock.rsi_entry gains losses period i = Ok (entry i)) ->
  forall init,
    fold_left
      (fun acc i =>
         rsi <- acc ;;
         entry <- Stock.rsi_entry gains losses period i ;;
         Ok (rsi ++ [entry]))
      indices (Ok init) = Ok (init ++ map entry indices).
Proof.
  induction indices as [|i indices IH]; intros Hall init; simpl.
  - now rewrite app_nil_r.
  - rewrite (Hall i (or_introl eq_refl)). simpl.
    rewrite IH by (intros j Hj; apply Hall; now right).
    now rewrite <- app_assoc.
Qed.

Lemma calculateRSI_map (data : list Stock.HistoricalPoint) (period : Z) :
  0 < period ->
  Stock.calculateRSI data period =
  Ok (nan ::
      map (fun i =>
             if i <? period - 1 then nan
             else relative_strength_index
                    (map (price_change data) (range (i - period + 2) (i + 2)))
                    period)
          (range 0 (Z.of_nat (length data) - 1))).
Proof.
  intros Hp. unfold Stock.calculateRSI.
  pose proof (changes_length data) as [Hg _].
  pose proof (fun i => @rsi_entry_window data period i Hp) as Hentry.
  destruct (Stock.changes data) as [gains losses]. cbn [fst snd] in *.
  rewrite rsi_loop_map
    with (entry := fun i =>
            if i <? period - 1 then nan
            else relative_strength_index
                   (map (price_change data) (range (i - period + 2) (i + 2)))
                   period).
  - cbn [bind app]. rewrite Hg.
    replace (range 0 (Z.of_nat (length data - 1)))
      with (range 0 (Z.of_nat (length data) - 1))
      by (unfold range; do 2 f_equal; lia).
    reflexivity.
  - intros i Hin. unfold range in Hin. apply in_map_iff in Hin.
    destruct Hin as (k & <- & Hk). apply in_seq in Hk.
    destruct (Z.ltb_spec (0 + Z.of_nat k) (period - 1)) as [Hlt|Hge].
    + unfold Stock.rsi_entry.
      destruct (Z.ltb_spec (0 + Z.of_nat k) (period - 1)); [reflexivity|lia].
    + apply Hentry. lia.
Qed.

(** X11. With a positive period the RSI series is NaN at the first
    [period] positions of the history, and its entry at a later position
    [j] is the relative strength index of the [period] price changes that
    end at [j]. *)
Theorem calculateRSI_window
        (data : list Stock.HistoricalPoint) (period : Z) :
  0 < period ->
  exists rsi,
    Stock.calculateRSI data period = Ok rsi /\
    forall j, (j < length data)%nat ->
      (Z.of_nat j < period -> nth j rsi zero = nan) /\
      (period <= Z.of_nat j ->
       nth j rsi zero
       = relative_strength_index
           (map (price_change data)
                (range (Z.of_nat j - period + 1) (Z.of_nat j + 1)))
           period).
Proof.
  intros Hp. rewrite calculateRSI_map by assumption.
  eexists. split; [reflexivity|].
  intros [|j] Hj.
  - split; [reflexivity | lia].
  - cbn [nth]. rewrite map_range_nth by lia.
    destruct (Z.ltb_spec (0 + Z.of_nat j) (period - 1)) as [Hlt|Hge];
      split; try lia; try reflexivity.
    intros _. do 3 f_equal; lia.
Qed.


(** ** The sign of a difference *)

Lemma binary_round_sign (s : bool) (m : positive) (e : Z) :
  match binary_round prec emax s m e with
  | S754_zero s' | S754_infinity s' | S754_finite s' _ _ => s' = s
  | S754_nan => False
  end.
Proof.
  unfold binary_round. destruct (shl_align _ _ _) as [mz ez].
  pose proof (@binary_round_aux_not_nan s (Zpos mz) ez loc_Exact
                ltac:(lia)) as Hnan.
  unfold binary_round_aux in *.
  destruct (shr_fexp prec emax (Zpos mz) ez loc_Exact) as [mrs' e'].
  destruct (shr_fexp prec emax _ e' loc_Exact) as [mrs'' e''].
  destruct (shr_m mrs'') as [|p|p]; [reflexivity| |congruence].
  destruct (e'' <=? emax - prec); reflexivity.
Qed.

Lemma V_cond_Zopp (s : bool) (m e : Z) :
  cond_Zopp s (V m e) = V (cond_Zopp s m) e.
Proof. destruct s; unfold V; simpl; ring. Qed.

Lemma V_sub (m m' e : Z) : V (m - m') e = V m e - V m' e.
Proof. unfold V. ring. Qed.

(** The integer [SFsub] rounds, for two finite numbers: their difference
    in units of [2^ez]. *)
Lemma difference_value (sx sy : bool) (mx my : positive) (ex ey : Z) :
  -1074 <= ex -> -1074 <= ey ->
  let ez := Z.min ex ey in
  V (cond_Zopp sx (Zpos (fst (shl_align mx ex ez)))
     - cond_Zopp sy (Zpos (fst (shl_align my ey ez)))) ez
  = SF_rank (S754_finite sx mx ex) - SF_rank (S754_finite sy my ey).
Proof.
  intros Hex Hey ez. cbn [SF_rank].
  rewrite V_sub, <- !V_cond_Zopp.
  rewrite !shl_align_value by (subst ez; lia). reflexivity.
Qed.


Lemma V_sign' (m e : Z) : -1074 <= e -> 0 <= V m e -> 0 <= m.
Proof.
  intros He H. unfold V in H.
  assert (0 < 2 ^ (e + 1074)) by (apply Z.pow_pos_nonneg; lia). nia.
Qed.


Lemma SFsub_not_below_zero (x y : spec_float) :
  valid_binary x = true -> valid_binary y = true ->
  x <> S754_nan -> y <> S754_nan ->
  SF_rank y <= SF_rank x -> SF_not_below_zero (SF64sub x y).
Proof.
  intros Hx Hy Hxn Hyn Hle.
  assert (Hbig : 0 < 2 ^ 2100) by reflexivity.
  assert (H98 : 2 ^ 2098 < 2 ^ 2100) by reflexivity.
  destruct x as [sx|sx| |sx mx ex]; try congruence;
    destruct y as [sy|sy| |sy my ey]; try congruence;
    try (pose proof (V_valid_bounds _ _ _ Hx) as [Hx0 Hx1]);
    try (pose proof (V_valid_bounds _ _ _ Hy) as [Hy0 Hy1]);
    try (destruct sx); try (destruct sy);
    cbn [SF_rank cond_Zopp] in Hle;
    try (exfalso; lia); try exact I; try reflexivity.
  all: pose proof (valid_finite _ _ _ Hx) as (_ & Hex & _).
  all: pose proof (valid_finite _ _ _ Hy) as (_ & Hey & _).
  all: unfold SF64sub, SFsub.
  all: match goal with
       | |- context [binary_normalize _ _ ?D ?ez _] =>
           assert (HD : 0 <= D);
           [ apply (@V_sign' D ez); [lia|];
             rewrite difference_value by lia;
             cbn [SF_rank cond_Zopp]; lia
           | destruct D as [|p|p]; [exact I | | lia];
             cbn [binary_normalize];
             pose proof (binary_round_sign false p ez) as Hs;
             destruct (binary_round prec emax false p ez);
               try contradiction; simpl; auto ]
       end.
Qed.


Lemma not_below_zero (x : number) :
  SF_not_below_zero (Prim2SF x) -> (x <? zero)%float = false.
Proof.
  rewrite ltb_spec. change (Prim2SF zero) with (S754_zero false).
  destruct (Prim2SF x) as [s|s| |s m e]; simpl; try reflexivity;
    intros ->; reflexivity.
Qed.

Lemma sub_nan_l (y : number) : (nan - y)%float = nan.
Proof. apply Prim2SF_inj. rewrite sub_spec. reflexivity. Qed.

Lemma sub_nan_r (x : number) : (x - nan)%float = nan.
Proof.
  apply Prim2SF_inj. rewrite sub_spec. change (Prim2SF nan) with S754_nan.
  now destruct (Prim2SF x) as [[|]|[|]| |[|] m e].
Qed.


Lemma no_fall_no_loss (a b : number) :
  (b <? a)%float = false -> loss (b - a) = zero.
Proof.
  intros H. unfold loss.
  enough (Hsign : (b - a <? zero)%float = false) by now rewrite Hsign.
  destruct (is_nan a) eqn:Ha.
  { rewrite (is_nan_eq _ Ha), sub_nan_r. reflexivity. }
  destruct (is_nan b) eqn:Hb.
  { rewrite (is_nan_eq _ Hb), sub_nan_l. reflexivity. }
  rewrite ltb_rank in H by assumption. apply Z.ltb_ge in H.
  apply not_below_zero. rewrite sub_spec.
  apply SFsub_not_below_zero; auto using Prim2SF_valid, SF_not_nan.
Qed.

(** ** The extremes of the index *)

Lemma sum_zeros (l : list number) :
  Forall (fun x => x = zero) l -> fold_left PrimFloat.add l zero = zero.
Proof.
  induction 1 as [|x l -> _ IH]; simpl; [reflexivity|].
  change (zero + zero)%float with zero. exact IH.
Qed.

Lemma zero_over_period (k : Z) :
  0 < k < 2 ^ 53 -> (zero / of_int k)%float = zero.
Proof.
  intros Hk. apply Prim2SF_inj. rewrite div_spec.
  destruct (of_int_finite Hk) as (m & e & ->). reflexivity.
Qed.



Lemma relative_strength_index_no_fall (changes : list number) (period : Z) :
  0 < period < 2 ^ 53 -> changes <> [] ->
  Forall (fun c => loss c = zero) changes ->
  relative_strength_index changes period = 100%float.
Proof.
  intros Hp Hne Hall. destruct changes as [|first rest]; [congruence|].
  inversion Hall as [|? ? Hfirst Hrest]; subst.
  unfold relative_strength_index. rewrite Hfirst.
  rewrite sum_zeros by (apply Forall_map; exact Hrest).
  now rewrite zero_over_period.
Qed.




(** ** A period that is not positive *)

Lemma slice_backwards {A} (l : list A) (a b : Z) :
  0 <= b <= a -> slice l a b = [].
Proof.
  intros H. unfold slice, relative_index.
  destruct (Z.ltb_spec a 0); [lia|]. destruct (Z.ltb_spec b 0); [lia|].
  replace (Z.to_nat (Z.min b (Z.of_nat (length l))
                     - Z.min a (Z.of_nat (length l)))) with 0%nat by lia.
  reflexivity.
Qed.

Lemma rsi_loop_thrown (gains losses : list number) (period : Z) (e : error)
      (indices : list Z) :
  fold_left
    (fun acc i =>
       rsi <- acc ;;
       entry <- Stock.rsi_entry gains losses period i ;;
       Ok (rsi ++ [entry]))
    indices (Throw e) = Throw e.
Proof. induction indices as [|i indices IH]; simpl; auto. Qed.

(** X9. With a period that is not positive [calculateRSI] throws the
    [TypeError] of [reduce] on an empty array as soon as the history has two
    points; on a shorter history it returns [[NaN]]. *)
Theorem calculateRSI_nonpositive_period
        (data : list Stock.HistoricalPoint) (period : Z) :
  period <= 0 ->
  Stock.calculateRSI data period =
  if (length data <=? 1)%nat then Ok [nan]
  else Throw (TypeError "Reduce of empty array with no initial value").
Proof.
  intros Hp. unfold Stock.calculateRSI.
  destruct (changes_length data) as [Hg _].
  destruct (Stock.changes data) as [gains losses]. cbn [fst] in Hg.
  destruct (Nat.leb_spec (length data) 1) as [Hshort|Hlong].
  - replace (length gains) with 0%nat by lia. reflexivity.
  - assert (Hfirst : Stock.rsi_entry gains losses period 0
                     = Throw (TypeError
                                "Reduce of empty array with no initial value")).
    { unfold Stock.rsi_entry.
      destruct (Z.ltb_spec 0 (period - 1)) as [|_]; [lia|].
      rewrite slice_backwards by lia. reflexivity. }
    rewrite range_cons by lia. cbn [fold_left bind].
    rewrite Hfirst. cbn [bind].
    now rewrite rsi_loop_thrown.
Qed.

Lemma of_int_negative (k : Z) :
  - 2 ^ 53 < k < 0 -> exists m e, Prim2SF (of_int k) = S754_finite true m e.
Proof.
  intros Hk. destruct k as [|p|p]; try lia. unfold of_int.
  rewrite opp_spec.
  change (- Z.neg p) with (Zpos p).
  assert (Hpos : 0 < Zpos p < 2 ^ 53) by lia.
  destruct (of_int_finite Hpos) as (m & e & Hfin).
  unfold of_int in Hfin. rewrite Hfin. simpl. eauto.
Qed.

(** X10. [calculateMovingAverage] accepts a period that is not positive:
    with period 0 every entry is NaN (the empty sum 0 over 0), and with a
    negative period every entry is [-0] (the empty sum 0 over the
    period). *)
Theorem calculateMovingAverage_nonpositive_period
        (data : list Stock.HistoricalPoint) (period : Z) :
  - 2 ^ 53 < period <= 0 ->
  Stock.calculateMovingAverage data period =
  map (fun _ => if period =? 0 then nan else neg_zero) data.
Proof.
  intros Hp. rewrite calculateMovingAverage_map.
  assert (Hentry : forall i, 0 <= i ->
            (if i <? period - 1 then nan
             else arithmetic_mean
                    (map Stock.price (slice data (i - period + 1) (i + 1)))
                    period)
            = if period =? 0 then nan else neg_zero).
  { intros i Hi. destruct (Z.ltb_spec i (period - 1)); [lia|].
    rewrite slice_backwards by lia. unfold arithmetic_mean. simpl.
    destruct (Z.eqb_spec period 0) as [->|Hne]; [reflexivity|].
    apply Prim2SF_inj. rewrite div_spec.
    destruct (@of_int_negative period ltac:(lia)) as (m & e & ->).
    reflexivity. }
  apply nth_ext with (d := nan) (d' := nan).
  - rewrite !length_map, range_length. lia.
  - intros k Hk. rewrite length_map, range_length in Hk.
    rewrite map_range_nth by lia. rewrite Hentry by lia.
    rewrite nth_map_inside
      with (d' := {| Stock.date := EmptyString; Stock.price := nan;
                     Stock.volume := 0 |}) by lia.
    reflexivity.
Qed.

(** ** The cards of the dashboard *)

Lemma last_map_range {A} (f : Z -> A) (n : nat) (d : A) :
  (0 < n)%nat ->
  last (map f (range 0 (Z.of_nat n))) d = f (Z.of_nat n - 1).
Proof.
  intros Hn. unfold range.
  replace (Z.to_nat (Z.of_nat n - 0)) with (S (n - 1)) by lia.
  rewrite seq_S, !map_app. simpl. rewrite last_last. f_equal. lia.
Qed.

(** The figure [slice(-k).reduce(...) / k] of the "Moving Averages" card
    against the indicator of the chart. *)
Lemma card_average (historicalData : list Stock.HistoricalPoint) (k : nat) :
  (0 < k)%nat ->
  arithmetic_mean
    (map Stock.price (slice_from historicalData (- Z.of_nat k))) (Z.of_nat k)
  = if (k <=? length historicalData)%nat
    then last (Stock.calculateMovingAverage historicalData (Z.of_nat k)) nan
    else arithmetic_mean (map Stock.price historicalData) (Z.of_nat k).
Proof.
  intros Hk. rewrite slice_from_last by assumption.
  destruct (Nat.leb_spec k (length historicalData)) as [Hle|Hgt].
  - rewrite calculateMovingAverage_map, last_map_range by lia.
    destruct (Z.ltb_spec (Z.of_nat (length historicalData) - 1)
                         (Z.of_nat k - 1)); [lia|].
    replace (Z.of_nat (length historicalData) - 1 - Z.of_nat k + 1)
      with (Z.of_nat (length historicalData - k)) by lia.
    replace (Z.of_nat (length historicalData) - 1 + 1)
      with (Z.of_nat (length historicalData)) by lia.
    rewrite slice_inside by lia.
    rewrite firstn_all2 by (rewrite length_skipn; lia). reflexivity.
  - replace (length historicalData - k)%nat with 0%nat by lia. reflexivity.
Qed.

(** X14. The figures of the "Moving Averages" card are the last entries
    of the moving averages of the chart when the history has at least 10
    (respectively 20) points; on a shorter history the card shows the sum of
    all the prices divided by 10 (respectively 20), where the chart has
    NaN. *)
Theorem movingAverage_card_matches_chart (data : StockData.t) :
  let history := StockData.historicalData data in
  Dashboard.movingAverage10 data
  = (if (10 <=? length history)%nat
     then last (Stock.calculateMovingAverage history 10) nan
     else arithmetic_mean (map Stock.price history) 10) /\
  Dashboard.movingAverage20 data
  = (if (20 <=? length history)%nat
     then last (Stock.calculateMovingAverage history 20) nan
     else arithmetic_mean (map Stock.price history) 20).
Proof.
  cbv zeta. unfold Dashboard.movingAverage10, Dashboard.movingAverage20.
  rewrite !sum_prices. split.
  - exact (@card_average (StockData.historicalData data) 10 ltac:(lia)).
  - exact (@card_average (StockData.historicalData data) 20 ltac:(lia)).
Qed.


(** ** The mock quotes *)

Lemma map_indexed_from {A B} (f : A -> nat -> B) (l : list A) (start : nat) :
  forall (C : Type) (g : B -> C) (h : A -> C),
    (forall x index, g (f x index) = h x) ->
    map g (map (fun '(index, x) => f x index)
               (combine (seq start (length l)) l))
    = map h l.
Proof.
  intros C g h Hgh. revert start.
  induction l as [|x l IH]; intros start; simpl; [reflexivity|].
  now rewrite Hgh, IH.
Qed.

Lemma map_map_indexed {A B C} (f : A -> nat -> B) (g : B -> C) (h : A -> C)
      (l : list A) :
  (forall x index, g (f x index) = h x) ->
  map g (map_indexed f l) = map h l.
Proof. intros H. unfold map_indexed. now apply map_indexed_from. Qed.

Lemma length_map_indexed {A B} (f : A -> nat -> B) (l : list A) :
  length (map_indexed f l) = length l.
Proof.
  unfold map_indexed.
  rewrite length_map, length_combine, length_seq. lia.
Qed.

Lemma Forall_map_indexed {A B} (P : B -> Prop) (f : A -> nat -> B)
      (l : list A) :
  (forall x index, (index < length l)%nat -> P (f x index)) ->
  Forall P (map_indexed f l).
Proof.
  intros H. unfold map_indexed. apply Forall_forall. intros b Hb.
  apply in_map_iff in Hb. destruct Hb as ([index x] & <- & Hin).
  apply in_combine_l in Hin. apply in_seq in Hin. apply H. lia.
Qed.

Section QuoteProperties.
Context {tf : Backend}.
Variable toFixed1 : number -> string.
Variable random : nat -> number.

Lemma generateMockData_dates (clock : nat -> Z) (symbol : string) (days : Z) :
  map Stock.date (StockService.generateMockData random clock symbol days)
  = Stock.generateMockDates clock days.
Proof.
  unfold StockService.generateMockData, Stock.generateMockDates.
  match goal with
  | |- context [fold_left ?f _ _] => set (step := f)
  end.
  assert (Hloop : forall l data currentPrice calls,
             map Stock.date (fst (fst (fold_left step l
                                                 (data, currentPrice, calls))))
             = map Stock.date data
               ++ map (fun i => Stock.mockDate (clock (Z.to_nat (days - i))) i)
                      l).
  { induction l as [|i l IH]; intros data currentPrice calls; simpl.
    - now rewrite app_nil_r.
    - rewrite IH, map_app, <- app_assoc. unfold Stock.mockDate.
      cbn [map Stock.date app]. reflexivity. }
  specialize (Hloop (rev (range 0 (days + 1))) []
                    (ToNumber (StockService.getBasePrice symbol)) O).
  destruct (fold_left step _ _) as [[data currentPrice] calls].
  exact Hloop.
Qed.

Lemma generateMockData_length (clock : nat -> Z) (symbol : string) (days : Z) :
  length (StockService.generateMockData random clock symbol days)
  = Z.to_nat (days + 1).
Proof.
  rewrite <- (length_map Stock.date), generateMockData_dates.
  unfold Stock.generateMockDates.
  rewrite length_map, length_rev, range_length. lia.
Qed.

Lemma point_at_inside (historicalData : list Stock.HistoricalPoint)
      (index : nat) (d : Stock.HistoricalPoint) :
  (index < length historicalData)%nat ->
  StockService.point_at historicalData (Z.of_nat index)
  = Ok (nth index historicalData d).
Proof.
  intros H. unfold StockService.point_at.
  destruct (Z.ltb_spec (Z.of_nat index) 0); [lia|].
  rewrite Nat2Z.id. now rewrite (nth_error_nth' _ d H).
Qed.


Lemma getStockData_returns (clock : nat -> Z) (symbol : string) :
  exists data,
    StockService.getStockData toFixed1 random clock symbol = Ok data /\
    let history := StockData.historicalData data in
    StockData.symbol data = symbol /\
    length history = 31%nat /\
    map Stock.date history = Stock.generateMockDates clock 30 /\
    StockData.price data = Stock.price (nth 30 history no_point) /\
    StockData.volume data = Stock.volume (nth 30 history no_point) /\
    StockData.change data
    = (Stock.price (nth 30 history no_point)
       - Stock.price (nth 29 history no_point))%float.
Proof.
  unfold StockService.getStockData.
  pose proof (generateMockData_length clock symbol 30) as Hlen.
  pose proof (generateMockData_dates clock symbol 30) as Hdates.
  remember (StockService.generateMockData random clock symbol 30)
    as history eqn:Hhistory.
  change (Z.to_nat (30 + 1)) with 31%nat in Hlen.
  rewrite Hlen. change (Z.of_nat 31 - 1) with (Z.of_nat 30).
  change (Z.of_nat 30 - 1) with (Z.of_nat 29).
  rewrite !(@point_at_inside history _ no_point) by lia.
  cbn [bind]. eexists. split; [reflexivity|].
  cbn [StockData.historicalData StockData.symbol StockData.price
       StockData.volume StockData.change].
  repeat split; auto.
Qed.


End QuoteProperties.


(** ** The dashboard *)

Lemma calculateMovingAverage_length (data : list Stock.HistoricalPoint)
      (period : Z) :
  length (Stock.calculateMovingAverage data period) = length data.
Proof.
  rewrite calculateMovingAverage_map, length_map, range_length. lia.
Qed.

Lemma nth_error_inside {A} (l : list A) (n : nat) :
  (n < length l)%nat -> nth_error l n <> None.
Proof. intros H. now apply nth_error_Some. Qed.

Section DashboardProperties.
Context {tf : Backend}.
Variable toFixed1 : number -> string.

Lemma loadStockData_state
        (st : Dashboard.State) (clock : nat -> Z) (random : nat -> number)
        (symbol : string) :
  let st' := Dashboard.loadStockData toFixed1 st clock random symbol in
  exists data,
    StockService.getStockData toFixed1 random clock symbol = Ok data /\
    Dashboard.stockData st' = Some data /\
    Dashboard.loading st' = false /\
    Dashboard.predictions st' = Dashboard.predictions st /\
    Dashboard.showPredictions st' = Dashboard.showPredictions st /\
    map ChartPoint.date (Dashboard.chartData st')
    = map Stock.date (StockData.historicalData data) /\
    map ChartPoint.price (Dashboard.chartData st')
    = map Stock.price (StockData.historicalData data) /\
    Forall (fun point =>
              ChartPoint.prediction point = None /\
              ChartPoint.ma10 point <> None /\
              ChartPoint.ma20 point <> None /\
              ChartPoint.rsi point <> None)
           (Dashboard.chartData st').
Proof.
  cbv zeta. unfold Dashboard.loadStockData.
  destruct (getStockData_returns toFixed1 random clock symbol)
    as (data & Hdata & _ & Hlen & _).
  rewrite Hdata. exists data. split; [reflexivity|].
  assert (Hne : StockData.historicalData data <> []).
  { intros H. rewrite H in Hlen. discriminate Hlen. }
  destruct (@calculateRSI_length (StockData.historicalData data) 14
              ltac:(lia) Hne) as (rsi & Hrsi & Hrsilen).
  rewrite Hrsi.
  cbn [Dashboard.stockData Dashboard.loading Dashboard.predictions
       Dashboard.showPredictions Dashboard.chartData
       Dashboard.setLoading Dashboard.setChartData Dashboard.setStockData].
  repeat split; auto.
  - unfold Dashboard.enrichedChartData. now apply map_map_indexed.
  - unfold Dashboard.enrichedChartData. now apply map_map_indexed.
  - unfold Dashboard.enrichedChartData. apply Forall_map_indexed.
    intros point index Hindex. cbn.
    repeat split; auto; apply nth_error_inside;
      rewrite ?calculateMovingAverage_length; lia.
Qed.

(** X15. [loadStockData] always ends with the quote stored and a chart of
    one point per historical point, with its date and price; every chart
    point has its three indicators (no read beyond the end of an indicator)
    and no forecast.  The forecasts of the page and the forecast switch are
    left as they were. *)
Theorem loadStockData_chart
        (st : Dashboard.State) (clock : nat -> Z) (random : nat -> number)
        (symbol : string) :
  let st' := Dashboard.loadStockData toFixed1 st clock random symbol in
  exists data,
    StockService.getStockData toFixed1 random clock symbol = Ok data /\
    Dashboard.stockData st' = Some data /\
    Dashboard.loading st' = false /\
    Dashboard.predictions st' = Dashboard.predictions st /\
    Dashboard.showPredictions st' = Dashboard.showPredictions st /\
    map ChartPoint.date (Dashboard.chartData st')
    = map Stock.date (StockData.historicalData data) /\
    map ChartPoint.price (Dashboard.chartData st')
    = map Stock.price (StockData.historicalData data) /\
    Forall (fun point =>
              ChartPoint.prediction point = None /\
              ChartPoint.ma10 point <> None /\
              ChartPoint.ma20 point <> None /\
              ChartPoint.rsi point <> None)
           (Dashboard.chartData st').
Proof. exact (loadStockData_state st clock random symbol). Qed.

(** *** The forecast in the chart *)








End DashboardProperties.


(** *** The RSI card *)

Lemma nth_error_last {A} (l : list A) (d : A) :
  l <> [] -> nth_error (slice_from l (-1)) 0 = Some (last l d).
Proof.
  intros Hne. change (-1) with (- Z.of_nat 1).
  rewrite slice_from_last by lia.
  rewrite last_nth_length.
  assert (Hlen : (0 < length l)%nat) by (destruct l; [congruence|simpl; lia]).
  rewrite <- (Nat.add_0_r (length l - 1)) at 2.
  rewrite <- nth_skipn. apply nth_error_nth'.
  rewrite length_skipn. lia.
Qed.

Lemma last_cons_nonempty {A} (x : A) (l : list A) (d : A) :
  l <> [] -> last (x :: l) d = last l d.
Proof. destruct l; [congruence | reflexivity]. Qed.

(** The last entry of the RSI of period 14: NaN up to 14 points, and then
    the index of the last 14 changes. *)
Lemma lastRSI_value (data : StockData.t) :
  let history := StockData.historicalData data in
  Dashboard.lastRSI data =
  Ok (Some (if (length history <=? 14)%nat then nan
            else relative_strength_index
                   (map (price_change history)
                        (range (Z.of_nat (length history) - 14)
                               (Z.of_nat (length history))))
                   14)).
Proof.
  cbv zeta. unfold Dashboard.lastRSI.
  rewrite calculateRSI_map by lia. cbn [bind]. do 1 f_equal.
  rewrite nth_error_last with (d := nan) by discriminate. f_equal.
  remember (StockData.historicalData data) as history.
  destruct (Nat.le_gt_cases (length history) 1) as [H1|H1].
  - replace (range 0 (Z.of_nat (length history) - 1)) with (@nil Z).
    + destruct (Nat.leb_spec (length history) 14); [reflexivity | lia].
    + unfold range.
      replace (Z.to_nat (Z.of_nat (length history) - 1 - 0)) with 0%nat by lia.
      reflexivity.
  - replace (Z.of_nat (length history) - 1)
      with (Z.of_nat (length history - 1)) by lia.
    rewrite last_cons_nonempty.
    + rewrite last_map_range by lia.
      destruct (Nat.leb_spec (length history) 14) as [Hshort|Hlong];
        destruct (Z.ltb_spec (Z.of_nat (length history - 1) - 1) (14 - 1));
        try lia; try reflexivity.
      do 3 f_equal; lia.
    + intros Hnil. apply (f_equal (@length _)) in Hnil.
      rewrite length_map, range_length in Hnil. simpl in Hnil. lia.
Qed.

(** X17. The signal of the RSI card is always one of the three labels.
    On a history of at most 14 points it is "Oversold" (the RSI is NaN,
    which [|| 0] turns into 0); on a longer history whose last 14 price
    changes have no fall, flat prices included, it is "Overbought". *)
Theorem rsiSignal_cases (data : StockData.t) :
  let history := StockData.historicalData data in
  (exists label,
      Dashboard.rsiSignal data = Ok label /\
      In label ["Overbought"; "Oversold"; "Neutral"]%string) /\
  ((length history <= 14)%nat ->
   Dashboard.rsiSignal data = Ok "Oversold"%string) /\
  ((14 < length history)%nat ->
   (forall i, Z.of_nat (length history) - 14 <= i < Z.of_nat (length history) ->
      (Stock.price_at history i <? Stock.price_at history (i - 1))%float
      = false) ->
   Dashboard.rsiSignal data = Ok "Overbought"%string).
Proof.
  cbv zeta. unfold Dashboard.rsiSignal. rewrite !lastRSI_value. cbn [bind].
  split; [|split].
  - destruct (70 <? _)%float; [eexists; split; [reflexivity|simpl; tauto]|].
    cbn [bind].
    destruct (_ <? 30)%float; eexists; (split; [reflexivity|simpl; tauto]).
  - intros Hshort.
    destruct (Nat.leb_spec (length (StockData.historicalData data)) 14);
      [reflexivity | lia].
  - intros Hlong Hprices.
    destruct (Nat.leb_spec (length (StockData.historicalData data)) 14);
      [lia|].
    rewrite relative_strength_index_no_fall; [reflexivity | lia | |].
    + rewrite range_cons by lia. discriminate.
    + apply Forall_map, Forall_forall. intros i Hi.
      apply no_fall_no_loss. apply Hprices.
      unfold range in Hi. apply in_map_iff in Hi.
      destruct Hi as (k & <- & Hk). apply in_seq in Hk. lia.
Qed.

(** *** From the quote to the forecast *)

Section EndToEnd.
Context {tf : Backend}.
Variable toFixed1 : number -> string.




End EndToEnd.

(** ** Rounding to nearest *)

(** *** What [shr] keeps of the digits it drops *)

Lemma loc_code_record (mrs : shr_record) :
  loc_code (loc_of_shr_record mrs)
  = 2 * (if shr_r mrs then 1 else 0) + (if shr_s mrs then 1 else 0).
Proof. destruct mrs as [m [|] [|]]; reflexivity. Qed.

Lemma loc_code_of_loc (m : Z) (l : location) :
  loc_code (loc_of_shr_record (shr_record_of_loc m l)) = loc_code l.
Proof. destruct l as [|[ | | ]]; reflexivity. Qed.

Lemma position_range (r G : Z) : 0 <= position r G <= 3.
Proof.
  unfold position.
  destruct (r =? 0), (2 * r <? G), (2 * r =? G); lia.
Qed.

(** One more digit dropped. *)
Lemma shr_1_position (Y G : Z) (mrs : shr_record) :
  0 < G -> 0 <= Y ->
  shr_m mrs = Y / G ->
  loc_code (loc_of_shr_record mrs) = position (Y mod G) G ->
  shr_m (shr_1 mrs) = Y / (2 * G) /\
  loc_code (loc_of_shr_record (shr_1 mrs)) = position (Y mod (2 * G)) (2 * G).
Proof.
  intros HG HY Hm Hc.
  pose proof (Z.div_mod Y G ltac:(lia)) as Hdm.
  pose proof (Z.mod_pos_bound Y G HG) as Hr.
  assert (Hm0 : 0 <= shr_m mrs) by (rewrite Hm; apply Z.div_pos; lia).
  rewrite loc_code_record in Hc.
  assert (Hsticky : (if shr_r mrs || shr_s mrs then 1 else 0)
                    = if Y mod G =? 0 then 0 else 1).
  { unfold position in Hc.
    destruct (shr_r mrs), (shr_s mrs), (Y mod G =? 0), (2 * (Y mod G) <? G),
      (2 * (Y mod G) =? G); simpl in *; lia. }
  set (b := shr_m mrs mod 2).
  assert (Hb : 0 <= b < 2) by (apply Z.mod_pos_bound; lia).
  assert (Hm2 : shr_m mrs = 2 * (shr_m mrs / 2) + b)
    by (apply Z.div_mod; lia).
  assert (Hdiv : Y / (2 * G) = shr_m mrs / 2).
  { symmetry. apply Z.div_unique with (r := b * G + Y mod G); nia. }
  assert (Hmod : Y mod (2 * G) = b * G + Y mod G).
  { symmetry. apply Z.mod_unique with (q := shr_m mrs / 2); nia. }
  rewrite Hdiv, Hmod, loc_code_record.
  rewrite shr_1_m by assumption. split; [reflexivity|].
  assert (Hbit : (if shr_r (shr_1 mrs) then 1 else 0) = b /\
                 shr_s (shr_1 mrs) = shr_r mrs || shr_s mrs).
  { subst b. destruct mrs as [m r s]. cbn [shr_m] in *.
    destruct m as [|[p|p|]|p]; try lia; cbn [shr_1 shr_r shr_s];
      split; try reflexivity.
    - rewrite Pos2Z.inj_xI.
      apply Z.mod_unique with (q := Zpos p); lia.
    - rewrite Pos2Z.inj_xO.
      apply Z.mod_unique with (q := Zpos p); lia. }
  destruct Hbit as [Hbr Hbs]. rewrite Hbr, Hbs, Hsticky.
  unfold position.
  assert (Hcases : b = 0 \/ b = 1) by lia.
  destruct Hcases as [-> | ->];
    destruct (Z.eqb_spec (Y mod G) 0) as [H0|H0];
    repeat match goal with
           | |- context [?a =? ?c] => destruct (Z.eqb_spec a c)
           | |- context [?a <? ?c] => destruct (Z.ltb_spec a c)
           end; lia.
Qed.

Lemma pow2_xO (p : positive) : 2 ^ Zpos p~0 = 2 ^ Zpos p * 2 ^ Zpos p.
Proof.
  replace (Zpos p~0) with (Zpos p + Zpos p) by lia.
  apply Z.pow_add_r; lia.
Qed.

Lemma pow2_xI (p : positive) : 2 ^ Zpos p~1 = 2 * (2 ^ Zpos p * 2 ^ Zpos p).
Proof.
  replace (Zpos p~1) with (1 + (Zpos p + Zpos p)) by lia.
  rewrite !Z.pow_add_r by lia. reflexivity.
Qed.

Lemma iter_shr_1_position (Y : Z) (p : positive) :
  0 <= Y ->
  forall (G : Z) (mrs : shr_record),
    0 < G ->
    shr_m mrs = Y / G ->
    loc_code (loc_of_shr_record mrs) = position (Y mod G) G ->
    shr_m (iter_pos shr_1 p mrs) = Y / (2 ^ Zpos p * G) /\
    loc_code (loc_of_shr_record (iter_pos shr_1 p mrs))
    = position (Y mod (2 ^ Zpos p * G)) (2 ^ Zpos p * G).
Proof.
  intros HY. induction p as [p IH|p IH|]; intros G mrs HG Hm Hc.
  - cbn [iter_pos].
    destruct (@shr_1_position _ _ mrs HG HY Hm Hc) as [Hm0 Hc0].
    assert (HG0 : 0 < 2 * G) by lia.
    destruct (IH _ _ HG0 Hm0 Hc0) as [Hm1 Hc1].
    assert (HG1 : 0 < 2 ^ Zpos p * (2 * G))
      by (apply Z.mul_pos_pos; [apply Z.pow_pos_nonneg; lia | lia]).
    destruct (IH _ _ HG1 Hm1 Hc1) as [Hm2 Hc2].
    replace (2 ^ Zpos p~1 * G) with (2 ^ Zpos p * (2 ^ Zpos p * (2 * G))).
    + split; assumption.
    + rewrite pow2_xI. ring.
  - cbn [iter_pos].
    destruct (IH G mrs HG Hm Hc) as [Hm1 Hc1].
    assert (HG1 : 0 < 2 ^ Zpos p * G)
      by (apply Z.mul_pos_pos; [apply Z.pow_pos_nonneg; lia | lia]).
    destruct (IH _ _ HG1 Hm1 Hc1) as [Hm2 Hc2].
    replace (2 ^ Zpos p~0 * G) with (2 ^ Zpos p * (2 ^ Zpos p * G)).
    + split; assumption.
    + rewrite pow2_xO. ring.
  - cbn [iter_pos]. change (2 ^ 1) with 2.
    now apply shr_1_position.
Qed.

Lemma position_quarters (c : Z) : 0 <= c <= 3 -> position c 4 = c.
Proof.
  intros Hc. unfold position.
  assert (Hcases : c = 0 \/ c = 1 \/ c = 2 \/ c = 3) by lia.
  destruct Hcases as [-> | [-> | [-> | ->]]]; reflexivity.
Qed.

Lemma loc_code_range (l : location) : 0 <= loc_code l <= 3.
Proof. destruct l as [|[ | | ]]; simpl; lia. Qed.

Lemma quarters_div (m c : Z) : 0 <= c <= 3 -> (4 * m + c) / 4 = m.
Proof. intros Hc. symmetry. apply Z.div_unique with (r := c); lia. Qed.

Lemma quarters_mod (m c : Z) : 0 <= c <= 3 -> (4 * m + c) mod 4 = c.
Proof. intros Hc. symmetry. apply Z.mod_unique with (q := m); lia. Qed.

(** What [shr_fexp] returns, for a number given by its integer part [m] and
    its position [l] above it: the quotient of [4 * m + code] by the new
    unit, and the position of the remainder. *)
Lemma shr_fexp_position (m e : Z) (l : location) :
  0 <= m -> e <= fexp prec emax (Zdigits2 m + e) ->
  let E := fexp prec emax (Zdigits2 m + e) in
  let Y := 4 * m + loc_code l in
  let G := 4 * 2 ^ (E - e) in
  shr_m (fst (shr_fexp prec emax m e l)) = Y / G /\
  loc_code (loc_of_shr_record (fst (shr_fexp prec emax m e l)))
  = position (Y mod G) G /\
  snd (shr_fexp prec emax m e l) = E.
Proof.
  intros Hm He E Y G. unfold shr_fexp, shr. fold E.
  pose proof (loc_code_range l) as Hc.
  assert (HY : 0 <= Y) by (subst Y; lia).
  assert (Hm0 : shr_m (shr_record_of_loc m l) = Y / 4).
  { subst Y. now rewrite shr_record_of_loc_m, quarters_div. }
  assert (Hc0 : loc_code (loc_of_shr_record (shr_record_of_loc m l))
                = position (Y mod 4) 4).
  { subst Y. now rewrite loc_code_of_loc, quarters_mod, position_quarters. }
  subst G. destruct (E - e) as [|p|p] eqn:Hn; try lia; cbn [fst snd].
  - change (4 * 2 ^ 0) with 4. repeat split; auto. lia.
  - destruct (@iter_shr_1_position Y p HY 4 _ ltac:(lia) Hm0 Hc0)
      as [Hm1 Hc1].
    replace (4 * 2 ^ Zpos p) with (2 ^ Zpos p * 4) by ring.
    repeat split; auto. lia.
Qed.

(** *** Rounding to the nearest integer *)

Lemma RNE_cases (Y G : Z) : RNE Y G = Y / G \/ RNE Y G = Y / G + 1.
Proof.
  unfold RNE. destruct (_ <? _); auto. destruct (_ <? _); auto.
  destruct (Z.even _); auto.
Qed.

Lemma round_nearest_even_RNE (Y G : Z) (l : location) :
  0 < G -> loc_code l = position (Y mod G) G ->
  round_nearest_even (Y / G) l = RNE Y G.
Proof.
  intros HG Hl. pose proof (Z.mod_pos_bound Y G HG) as Hr.
  unfold RNE, position in *.
  destruct l as [|[ | | ]]; cbn [loc_code round_nearest_even] in *;
    repeat match goal with
           | H : context [?a =? ?c] |- _ => destruct (Z.eqb_spec a c)
           | H : context [?a <? ?c] |- _ => destruct (Z.ltb_spec a c)
           | |- context [?a <? ?c] => destruct (Z.ltb_spec a c)
           end; try lia; try reflexivity.
Qed.

(** *** The number [binary_round_aux] returns *)

Lemma binary_round_aux_rounded (mx ex : Z) (lx : location) :
  0 < mx -> ex <= fexp prec emax (Zdigits2 mx + ex) ->
  let E := fexp prec emax (Zdigits2 mx + ex) in
  let mr := RNE (4 * mx + loc_code lx) (4 * 2 ^ (E - ex)) in
  match binary_round_aux prec emax false mx ex lx with
  | S754_zero s => s = false /\ mr = 0
  | S754_finite s m e => s = false /\ V (Zpos m) e = V mr E
  | S754_infinity s => s = false /\ 2 ^ 2098 <= V mr E
  | S754_nan => False
  end.
Proof.
  intros Hmx Henough. cbv zeta.
  pose proof (Zdigits2_bounds Hmx) as [Hdlo Hdhi].
  pose proof (Zdigits2_pos Hmx) as Hdpos.
  pose proof (@shr_fexp_position mx ex lx (Z.lt_le_incl _ _ Hmx) Henough)
    as (Hsm & Hsc & Hse). cbv zeta in Hsm, Hsc, Hse.
  pose proof (loc_code_range lx) as Hcode.
  remember (Zdigits2 mx) as d eqn:Hd.
  remember (fexp prec emax (d + ex)) as E eqn:HE0.
  assert (HE : E = Z.max (d + ex - 53) (-1074)) by (subst E; apply fexp_eq).
  assert (Hn : 0 <= E - ex) by lia.
  assert (H2n : 0 < 2 ^ (E - ex)) by (apply Z.pow_pos_nonneg; lia).
  assert (Hquot : (4 * mx + loc_code lx) / (4 * 2 ^ (E - ex))
                  = mx / 2 ^ (E - ex)).
  { rewrite <- Z.div_div by lia. now rewrite quarters_div. }
  remember (mx / 2 ^ (E - ex)) as m1 eqn:Hm1def.
  assert (Hm1 : 0 <= m1) by (subst m1; apply Z.div_pos; lia).
  unfold binary_round_aux.
  destruct (shr_fexp prec emax mx ex lx) as [mrs' e']. cbn [fst snd] in *.
  subst e'. rewrite Hsm.
  assert (HG : 0 < 4 * 2 ^ (E - ex)) by lia.
  rewrite (@round_nearest_even_RNE _ _ _ HG Hsc).
  remember (RNE (4 * mx + loc_code lx) (4 * 2 ^ (E - ex))) as mr eqn:Hmrdef.
  assert (Hmr : mr = m1 \/ mr = m1 + 1).
  { subst mr. rewrite <- Hquot. apply RNE_cases. }
  assert (Hmr0 : 0 <= mr) by lia.
  (* the digits of [m1] *)
  assert (Hcases : (m1 = 0 /\ E = -1074) \/
                   (0 < m1 /\ Zdigits2 m1 = d + ex - E /\ d + ex - E <= 53 /\
                    (E = -1074 \/ d + ex - E = 53))).
  { destruct (Z.eq_dec m1 0) as [H0|H0].
    - left. split; [exact H0|].
      assert (mx < 2 ^ (E - ex)).
      { subst m1. apply Z.div_small_iff in H0; lia. }
      assert (d - 1 < E - ex).
      { apply (Z.pow_lt_mono_r_iff 2); lia. }
      lia.
    - right. assert (0 < m1) by lia.
      assert (2 ^ (E - ex) <= mx).
      { destruct (Z.le_gt_cases (2 ^ (E - ex)) mx); auto.
        subst m1. rewrite Z.div_small in H0; lia. }
      assert (E - ex < d).
      { apply (Z.pow_lt_mono_r_iff 2); lia. }
      split; [assumption|]. split; [|lia].
      subst m1. rewrite Zdigits2_shiftr; rewrite <- ?Hd; lia. }
  (* when nothing more is shifted out *)
  assert (Hnoshift :
            fexp prec emax (Zdigits2 mr + E) <= E ->
            (971 < E -> 2 ^ 2098 <= V mr E) ->
            match
              (let '(mrs'', e'') := shr_fexp prec emax mr E loc_Exact in
               match shr_m mrs'' with
               | 0 => S754_zero false
               | Zpos m =>
                   if e'' <=? emax - prec then S754_finite false m e''
                   else S754_infinity false
               | Zneg _ => S754_nan
               end)
            with
            | S754_zero s => s = false /\ mr = 0
            | S754_finite s m e => s = false /\ V (Zpos m) e = V mr E
            | S754_infinity s => s = false /\ 2 ^ 2098 <= V mr E
            | S754_nan => False
            end).
  { intros Hfexp Hbig. rewrite (@shr_fexp_exact_noshift _ _ Hfexp).
    cbn [shr_m]. apply binary_round_aux_final; auto. }
  (* when the rounding carried into a 54th digit *)
  assert (Hcarry :
            mr = 2 ^ 53 ->
            fexp prec emax (Zdigits2 mr + E) = E + 1 ->
            match
              (let '(mrs'', e'') := shr_fexp prec emax mr E loc_Exact in
               match shr_m mrs'' with
               | 0 => S754_zero false
               | Zpos m =>
                   if e'' <=? emax - prec then S754_finite false m e''
                   else S754_infinity false
               | Zneg _ => S754_nan
               end)
            with
            | S754_zero s => s = false /\ mr = 0
            | S754_finite s m e => s = false /\ V (Zpos m) e = V mr E
            | S754_infinity s => s = false /\ 2 ^ 2098 <= V mr E
            | S754_nan => False
            end).
  { intros Hval Hfexp.
    destruct (@shr_fexp_exact_one _ _ Hmr0 Hfexp) as [Hm2 He2].
    destruct (shr_fexp prec emax mr E loc_Exact) as [mrs'' e''].
    simpl in Hm2, He2. subst e''. rewrite Hm2.
    assert (Hhalf : mr / 2 = 2 ^ 52) by (rewrite Hval; reflexivity).
    assert (HV : V (mr / 2) (E + 1) = V mr E).
    { rewrite Hhalf, Hval. unfold V.
      replace (E + 1 + 1074) with (1 + (E + 1074)) by lia.
      rewrite (Z.pow_add_r 2 1 (E + 1074)) by lia.
      change (2 ^ 53) with (2 ^ 52 * 2 ^ 1). ring. }
    apply binary_round_aux_final; auto.
    - rewrite Hhalf. lia.
    - rewrite Hhalf. intros Habs. discriminate Habs.
    - intros Hbig. rewrite <- HV, Hhalf. unfold V.
      rewrite <- Z.pow_add_r by lia. apply Z.pow_le_mono_r; lia. }
  destruct Hcases as [[H0 HEmin] | (Hpos & Hd1 & Hd1le & Hcanon)].
  - (* the value is below the smallest positive number *)
    apply Hnoshift; [|lia].
    rewrite fexp_eq. destruct Hmr as [Hm | Hm]; rewrite Hm, H0;
      [change (Zdigits2 0) with 0 | change (Zdigits2 (0 + 1)) with 1]; lia.
  - pose proof (Zdigits2_pos Hpos) as Hd1pos. rewrite Hd1 in Hd1pos.
    assert (H52 : E = -1074 \/ 2 ^ 52 <= m1).
    { destruct Hcanon as [|H53]; auto. right.
      pose proof (Zdigits2_bounds Hpos) as [Hlo _].
      rewrite Hd1, H53 in Hlo. exact Hlo. }
    assert (Hm1lo : 2 ^ (d + ex - E - 1) <= m1).
    { pose proof (Zdigits2_bounds Hpos) as [Hlo _]. now rewrite Hd1 in Hlo. }
    assert (Hbig : 971 < E -> 2 ^ 2098 <= V mr E).
    { intros HEbig. destruct H52 as [|H52]; [lia|].
      apply Z.le_trans with (V (2 ^ 52) E); [|apply V_mono_m; lia].
      unfold V. rewrite <- Z.pow_add_r by lia.
      apply Z.pow_le_mono_r; lia. }
    destruct (Z.lt_ge_cases mr (2 ^ (d + ex - E))) as [Hsame|Hover].
    + (* no carry into a new digit *)
      apply Hnoshift; [|exact Hbig].
      assert (Hdmr : Zdigits2 mr = d + ex - E)
        by (apply Zdigits2_spec; lia).
      rewrite fexp_eq, Hdmr. lia.
    + (* the rounding carried: [mr] is a power of two *)
      assert (Hm1hi : m1 < 2 ^ (d + ex - E)).
      { pose proof (Zdigits2_bounds Hpos) as [_ Hhi]. now rewrite Hd1 in Hhi. }
      assert (Hmrval : mr = 2 ^ (d + ex - E)) by lia.
      assert (Hdmr : Zdigits2 mr = d + ex - E + 1).
      { apply Zdigits2_spec; [lia|].
        replace (d + ex - E + 1 - 1) with (d + ex - E) by lia.
        split; [lia|]. rewrite Hmrval.
        apply Z.pow_lt_mono_r; lia. }
      destruct (Z.eq_dec (d + ex - E) 53) as [H53|Hlt].
      * apply Hcarry; [now rewrite Hmrval, H53|].
        rewrite fexp_eq, Hdmr. lia.
      * apply Hnoshift; [|exact Hbig]. rewrite fexp_eq, Hdmr. lia.
Qed.

(** *** Rounding is monotone *)

Lemma RNE_scale (c Y G : Z) : 0 < c -> 0 < G -> RNE (c * Y) (c * G) = RNE Y G.
Proof.
  intros Hc HG. unfold RNE.
  rewrite Z.div_mul_cancel_l, Z.mul_mod_distr_l by lia.
  pose proof (Z.mod_pos_bound Y G HG) as Hr.
  repeat match goal with
         | |- context [?a <? ?b] => destruct (Z.ltb_spec a b)
         end; try reflexivity; nia.
Qed.

Lemma RNE_lower (Y G : Z) : Y / G <= RNE Y G.
Proof. destruct (RNE_cases Y G) as [-> | ->]; lia. Qed.

Lemma RNE_upper (Y G : Z) : RNE Y G <= Y / G + 1.
Proof. destruct (RNE_cases Y G) as [-> | ->]; lia. Qed.

Lemma RNE_exact (k G : Z) : 0 < G -> RNE (k * G) G = k.
Proof.
  intros HG. unfold RNE. rewrite Z.div_mul, Z.mod_mul by lia.
  destruct (Z.ltb_spec (2 * 0) G); [reflexivity | lia].
Qed.

(** A multiple of the unit bounds the rounded quotient as it bounds the
    number. *)
Lemma RNE_le (Y G k : Z) : 0 < G -> Y <= k * G -> RNE Y G <= k.
Proof.
  intros HG HY. destruct (Z.eq_dec Y (k * G)) as [->|Hne].
  - rewrite RNE_exact by assumption. lia.
  - assert (Y / G < k) by (apply Z.div_lt_upper_bound; lia).
    pose proof (RNE_upper Y G). lia.
Qed.

Lemma RNE_ge (Y G k : Z) : 0 < G -> k * G <= Y -> k <= RNE Y G.
Proof.
  intros HG HY.
  assert (k <= Y / G) by (apply Z.div_le_lower_bound; lia).
  pose proof (RNE_lower Y G). lia.
Qed.

Lemma RNE_mono (Y Y' G : Z) : 0 < G -> Y <= Y' -> RNE Y G <= RNE Y' G.
Proof.
  intros HG HY.
  pose proof (Z.div_mod Y G ltac:(lia)) as Hdm.
  pose proof (Z.div_mod Y' G ltac:(lia)) as Hdm'.
  pose proof (Z.mod_pos_bound Y G HG) as Hr.
  pose proof (Z.mod_pos_bound Y' G HG) as Hr'.
  assert (Hq : Y / G <= Y' / G) by (apply Z.div_le_mono; lia).
  destruct (Z.eq_dec (Y / G) (Y' / G)) as [Heq|Hne].
  - assert (Hrr : Y mod G <= Y' mod G) by nia.
    unfold RNE. rewrite <- Heq.
    repeat match goal with
           | |- context [?a <? ?b] => destruct (Z.ltb_spec a b)
           end; try lia; destruct (Z.even (Y / G)); lia.
  - pose proof (RNE_upper Y G). pose proof (RNE_lower Y' G). lia.
Qed.

Lemma Zdigits2_mono (P Q : Z) : 0 < P <= Q -> Zdigits2 P <= Zdigits2 Q.
Proof.
  intros [HP HPQ].
  pose proof (@Zdigits2_bounds P HP) as [Hlo _].
  pose proof (@Zdigits2_bounds Q ltac:(lia)) as [_ Hhi].
  pose proof (@Zdigits2_pos P HP).
  destruct (Z.le_gt_cases (Zdigits2 P) (Zdigits2 Q)) as [|Hgt]; auto.
  assert (2 ^ Zdigits2 Q <= 2 ^ (Zdigits2 P - 1))
    by (apply Z.pow_le_mono_r; lia).
  lia.
Qed.

Lemma exponent_of_units (P : Z) :
  exponent_of P + 1074 = Z.max (Zdigits2 P - 53) 0.
Proof. unfold exponent_of. lia. Qed.

Lemma pow2_multiple (a b : Z) : 0 <= a <= b -> 2 ^ b = 2 ^ (b - a) * 2 ^ a.
Proof.
  intros H. rewrite <- Z.pow_add_r by lia. f_equal. lia.
Qed.

(** A larger value rounds to a larger one or to the same. *)
Lemma rounded_mono (P Q : Z) : 0 < P <= Q -> rounded P <= rounded Q.
Proof.
  intros [HP HPQ]. unfold rounded. rewrite !exponent_of_units.
  pose proof (@Zdigits2_mono P Q (conj HP HPQ)) as Hd.
  pose proof (@Zdigits2_bounds P HP) as [HPlo HPhi].
  pose proof (@Zdigits2_bounds Q ltac:(lia)) as [HQlo HQhi].
  pose proof (@Zdigits2_pos P HP) as HdP.
  remember (Z.max (Zdigits2 P - 53) 0) as a eqn:Ha.
  remember (Z.max (Zdigits2 Q - 53) 0) as b eqn:Hb.
  assert (Hab : 0 <= a <= b) by lia.
  assert (HGa : 0 < 2 ^ a) by (apply Z.pow_pos_nonneg; lia).
  assert (HGb : 0 < 2 ^ b) by (apply Z.pow_pos_nonneg; lia).
  destruct (Z.eq_dec a b) as [<-|Hne].
  - apply Z.mul_le_mono_nonneg_r; [lia|]. now apply RNE_mono.
  - (* a power of two lies between the two values *)
    assert (HdPQ : Zdigits2 P < Zdigits2 Q) by lia.
    assert (Hbval : b = Zdigits2 Q - 53) by lia.
    set (t := Zdigits2 Q - 1).
    assert (HPt : P < 2 ^ t).
    { apply Z.lt_le_trans with (2 ^ Zdigits2 P); [exact HPhi|].
      apply Z.pow_le_mono_r; subst t; lia. }
    apply Z.le_trans with (2 ^ t).
    + rewrite (@pow2_multiple a t) by (subst t; lia).
      apply Z.mul_le_mono_nonneg_r; [lia|].
      apply RNE_le; [exact HGa|].
      rewrite <- (@pow2_multiple a t) by (subst t; lia). lia.
    + rewrite (@pow2_multiple b t) by (subst t; lia).
      apply Z.mul_le_mono_nonneg_r; [lia|].
      apply RNE_ge; [exact HGb|].
      rewrite <- (@pow2_multiple b t) by (subst t; lia). exact HQlo.
Qed.

Lemma rounded_zero : rounded 0 = 0.
Proof. reflexivity. Qed.

Lemma rounded_nonneg (P : Z) : 0 <= P -> 0 <= rounded P.
Proof.
  intros HP. unfold rounded.
  pose proof (exponent_of_units P) as Hu.
  assert (0 < 2 ^ (exponent_of P + 1074)) by (apply Z.pow_pos_nonneg; lia).
  apply Z.mul_nonneg_nonneg; [|lia].
  pose proof (RNE_lower P (2 ^ (exponent_of P + 1074))).
  assert (0 <= P / 2 ^ (exponent_of P + 1074)) by (apply Z.div_pos; lia).
  lia.
Qed.

Lemma rounded_mono_nonneg (P Q : Z) : 0 <= P <= Q -> rounded P <= rounded Q.
Proof.
  intros [HP HPQ]. destruct (Z.eq_dec P 0) as [->|Hne].
  - rewrite rounded_zero. apply rounded_nonneg. lia.
  - apply rounded_mono. lia.
Qed.

Lemma clamp_mono (P Q : Z) : P <= Q -> clamp P <= clamp Q.
Proof.
  intros H. unfold clamp.
  assert (2 ^ 2098 < 2 ^ 2100) by reflexivity.
  destruct (Z.ltb_spec P (2 ^ 2098)), (Z.ltb_spec Q (2 ^ 2098)); lia.
Qed.

(** *** The value of a rounded number *)

Lemma Zdigits2_shift (m k : Z) :
  0 < m -> 0 <= k -> Zdigits2 (m * 2 ^ k) = Zdigits2 m + k.
Proof.
  intros Hm Hk.
  pose proof (@Zdigits2_bounds m Hm) as [Hlo Hhi].
  pose proof (@Zdigits2_pos m Hm) as Hd.
  assert (H2k : 0 < 2 ^ k) by (apply Z.pow_pos_nonneg; lia).
  assert (Hmk : 0 < m * 2 ^ k) by nia.
  pose proof (@Zdigits2_bounds (m * 2 ^ k) Hmk) as [Hlo' Hhi'].
  pose proof (@Zdigits2_pos (m * 2 ^ k) Hmk) as Hd'.
  assert (Hup : m * 2 ^ k < 2 ^ (Zdigits2 m + k))
    by (rewrite Z.pow_add_r by lia; nia).
  assert (Hdown : 2 ^ (Zdigits2 m - 1 + k) <= m * 2 ^ k)
    by (rewrite Z.pow_add_r by lia; nia).
  destruct (Z.lt_trichotomy (Zdigits2 (m * 2 ^ k)) (Zdigits2 m + k))
    as [Hlt|[Heq|Hgt]]; [|exact Heq|].
  - assert (2 ^ Zdigits2 (m * 2 ^ k) <= 2 ^ (Zdigits2 m - 1 + k))
      by (apply Z.pow_le_mono_r; lia). lia.
  - assert (2 ^ (Zdigits2 m + k) <= 2 ^ (Zdigits2 (m * 2 ^ k) - 1))
      by (apply Z.pow_le_mono_r; lia). lia.
Qed.

Lemma exponent_of_V (m e : Z) :
  0 < m -> -1074 <= e ->
  exponent_of (V m e) = fexp prec emax (Zdigits2 m + e).
Proof.
  intros Hm He. unfold exponent_of, V.
  rewrite Zdigits2_shift, fexp_eq by lia. lia.
Qed.

(** The quotient the rounding computes on the mantissa is the one of the
    value. *)
Lemma RNE_V (m e : Z) :
  0 < m -> -1074 <= e -> e <= fexp prec emax (Zdigits2 m + e) ->
  let E := fexp prec emax (Zdigits2 m + e) in
  V (RNE (4 * m + 0) (4 * 2 ^ (E - e))) E = rounded (V m e).
Proof.
  intros Hm He Henough E. unfold rounded.
  rewrite exponent_of_V by assumption. fold E.
  assert (HG : 0 < 2 ^ (E - e)) by (apply Z.pow_pos_nonneg; lia).
  assert (Hu : 0 < 2 ^ (e + 1074)) by (apply Z.pow_pos_nonneg; lia).
  rewrite Z.add_0_r, RNE_scale by lia.
  unfold V at 1. f_equal.
  replace (E + 1074) with ((E - e) + (e + 1074)) by lia.
  rewrite Z.pow_add_r by lia. unfold V.
  rewrite (Z.mul_comm m), (Z.mul_comm (2 ^ (E - e))).
  now rewrite RNE_scale.
Qed.

Lemma rank_round_aux_exact (mx ex : Z) :
  0 < mx -> -1074 <= ex -> ex <= fexp prec emax (Zdigits2 mx + ex) ->
  valid_binary (binary_round_aux prec emax false mx ex loc_Exact) = true ->
  SF_rank (binary_round_aux prec emax false mx ex loc_Exact)
  = clamp (rounded (V mx ex)).
Proof.
  intros Hmx Hex Henough Hvalid.
  pose proof (@binary_round_aux_rounded mx ex loc_Exact Hmx Henough) as H.
  cbv zeta in H. change (loc_code loc_Exact) with 0 in H.
  pose proof (@RNE_V mx ex Hmx Hex Henough) as HV. cbv zeta in HV.
  unfold clamp.
  destruct (binary_round_aux prec emax false mx ex loc_Exact)
    as [s|s| |s m e]; try contradiction; destruct H as [-> H].
  - rewrite H in HV. unfold V in HV at 1. simpl in HV. rewrite <- HV.
    reflexivity.
  - rewrite HV in H. destruct (Z.ltb_spec (rounded (V mx ex)) (2 ^ 2098));
      [lia | reflexivity].
  - rewrite HV in H. pose proof (V_valid_bounds _ _ _ Hvalid) as [_ Hb].
    rewrite <- H. cbn [SF_rank cond_Zopp].
    destruct (Z.ltb_spec (V (Zpos m) e) (2 ^ 2098)); [reflexivity | lia].
Qed.

Lemma rank_binary_round (mx : positive) (ex : Z) :
  -1074 <= ex ->
  valid_binary (binary_round prec emax false mx ex) = true ->
  SF_rank (binary_round prec emax false mx ex)
  = clamp (rounded (V (Zpos mx) ex)).
Proof.
  intros Hex Hvalid.
  destruct (@binary_round_aligned mx ex Hex)
    as (mz & ez & k & Heq & Hez & Henough & Hk & Hmz & Hexk).
  rewrite Heq in *. rewrite rank_round_aux_exact; auto; try lia.
  rewrite Hmz, V_shift, <- Hexk by lia. reflexivity.
Qed.

(** A number of the format rounds to itself. *)
Lemma rounded_representable (s : bool) (m : positive) (e : Z) :
  valid_binary (S754_finite s m e) = true ->
  clamp (rounded (V (Zpos m) e)) = V (Zpos m) e.
Proof.
  intros Hv. pose proof (V_valid_bounds _ _ _ Hv) as [_ Hb].
  pose proof (valid_finite _ _ _ Hv) as (Hm & He & Hcan).
  assert (Hexp : exponent_of (V (Zpos m) e) = e).
  { rewrite exponent_of_V, fexp_eq by lia.
    pose proof (@Zdigits2_bounds (Zpos m) ltac:(lia)) as [Hlo Hhi].
    pose proof (@Zdigits2_pos (Zpos m) ltac:(lia)) as Hd.
    assert (Zdigits2 (Zpos m) <= 53).
    { destruct (Z.le_gt_cases (Zdigits2 (Zpos m)) 53); auto.
      assert (2 ^ 53 <= 2 ^ (Zdigits2 (Zpos m) - 1))
        by (apply Z.pow_le_mono_r; lia). lia. }
    destruct Hcan as [->|Hbig]; [lia|].
    assert (53 <= Zdigits2 (Zpos m)).
    { destruct (Z.le_gt_cases 53 (Zdigits2 (Zpos m))); auto.
      assert (2 ^ Zdigits2 (Zpos m) <= 2 ^ 52)
        by (apply Z.pow_le_mono_r; lia). lia. }
    lia. }
  assert (Hr : rounded (V (Zpos m) e) = V (Zpos m) e).
  { unfold rounded. rewrite Hexp. unfold V at 1.
    rewrite RNE_exact by (apply Z.pow_pos_nonneg; lia). reflexivity. }
  rewrite Hr. unfold clamp.
  destruct (Z.ltb_spec (V (Zpos m) e) (2 ^ 2098)); [reflexivity | lia].
Qed.

Lemma clamp_zero : clamp (rounded 0) = 0.
Proof. reflexivity. Qed.

(** The difference of two finite numbers, the first not below the second,
    is their exact difference rounded. *)
Lemma SFsub_rank (x y : spec_float) :
  valid_binary x = true -> valid_binary y = true ->
  SF_finite x -> SF_finite y -> SF_rank y <= SF_rank x ->
  valid_binary (SF64sub x y) = true ->
  SF_rank (SF64sub x y) = clamp (rounded (SF_rank x - SF_rank y)).
Proof.
  intros Hx Hy Hfx Hfy Hle.
  destruct x as [sx|sx| |sx mx ex]; try contradiction;
    destruct y as [sy|sy| |sy my ey]; try contradiction;
    try (pose proof (V_valid_bounds _ _ _ Hx) as [Hx0 Hx1]);
    try (pose proof (V_valid_bounds _ _ _ Hy) as [Hy0 Hy1]).
  - intros _. unfold SF64sub, SFsub.
    destruct sx, sy; cbn [Bool.eqb negb SF_rank]; rewrite Z.sub_diag;
      symmetry; exact clamp_zero.
  - intros _. destruct sy; cbn [SF_rank cond_Zopp] in Hle; [|lia].
    unfold SF64sub, SFsub. cbn [SF_rank cond_Zopp negb].
    rewrite Z.sub_0_l, Z.opp_involutive.
    symmetry. exact (@rounded_representable true my ey Hy).
  - intros _. destruct sx; cbn [SF_rank cond_Zopp] in Hle; [lia|].
    unfold SF64sub, SFsub. cbn [SF_rank cond_Zopp].
    rewrite Z.sub_0_r.
    symmetry. exact (@rounded_representable false mx ex Hx).
  - pose proof (valid_finite _ _ _ Hx) as (_ & Hex & _).
    pose proof (valid_finite _ _ _ Hy) as (_ & Hey & _).
    unfold SF64sub, SFsub.
    match goal with
    | |- context [binary_normalize _ _ ?D ?ez _] =>
        pose proof (@difference_value sx sy mx my ex ey
                      ltac:(lia) ltac:(lia)) as HD;
        cbv zeta in HD;
        remember D as d eqn:Hd; remember ez as z eqn:Hz
    end.
    rewrite <- HD.
    assert (Hz' : -1074 <= z) by lia.
    assert (Hd0 : 0 <= d) by (apply (@V_sign' d z); lia).
    destruct d as [|p|p]; [| |lia]; cbn [binary_normalize].
    + intros _. reflexivity.
    + intros Hvalid. now apply rank_binary_round.
Qed.

(** *** A quotient that is at most one *)

(** What [SFdiv_core_binary] hands to the rounding: the quotient [q] of the
    shifted dividend at the exponent [e'], with the position of the
    remainder [r]. *)
Lemma div_core_spec (m1 m2 : positive) (e1 e2 : Z) :
  exists q r e' l,
    SFdiv_core_binary prec emax (Zpos m1) e1 (Zpos m2) e2 = (q, e', l) /\
    0 <= r < Zpos m2 /\
    e' <= e1 - e2 /\
    e' <= fexp prec emax (Zdigits2 (Zpos m1) + e1 - (Zdigits2 (Zpos m2) + e2)) /\
    Zpos m1 * 2 ^ (e1 - e2 - e') = q * Zpos m2 + r /\
    (r = 0 -> l = loc_Exact) /\
    0 <= q /\
    (0 < q -> e' <= fexp prec emax (Zdigits2 q + e')) /\
    (q = 0 -> e' <= -1074).
Proof.
  unfold SFdiv_core_binary.
  remember (Zdigits2 (Zpos m1)) as d1 eqn:Hd1.
  remember (Zdigits2 (Zpos m2)) as d2 eqn:Hd2.
  remember (fexp prec emax (d1 + e1 - (d2 + e2))) as F eqn:HF.
  assert (HF' : F = Z.max (d1 + e1 - (d2 + e2) - 53) (-1074))
    by (subst F; apply fexp_eq).
  remember (Z.min F (e1 - e2)) as e' eqn:He'.
  remember (e1 - e2 - e') as s eqn:Hs.
  assert (Hs0 : 0 <= s) by lia.
  set (m' := match s with Zpos _ => Z.shiftl (Zpos m1) s | 0 => Zpos m1
                        | Zneg _ => 0 end).
  assert (Hm' : m' = Zpos m1 * 2 ^ s).
  { subst m'. destruct s as [|p|p]; try lia.
    now rewrite Z.shiftl_mul_pow2 by lia. }
  assert (H2s : 0 < 2 ^ s) by (apply Z.pow_pos_nonneg; lia).
  assert (Hm'pos : 0 < m') by nia.
  pose proof (Z.div_mod m' (Zpos m2) ltac:(lia)) as Hdm.
  pose proof (Z.mod_pos_bound m' (Zpos m2) ltac:(lia)) as Hr.
  pose proof (Z.div_pos m' (Zpos m2) ltac:(lia) ltac:(lia)) as Hq.
  unfold Z.div, Z.modulo in Hdm, Hr, Hq.
  destruct (Z.div_eucl m' (Zpos m2)) as [q r]. cbn [fst snd] in *.
  exists q, r, e', (new_location (Zpos m2) r).
  assert (Hbig : -1074 < e' -> 2 ^ 52 <= q).
  { intros He.
    pose proof (@Zdigits2_bounds (Zpos m1) ltac:(lia)) as [Hlo1 _].
    pose proof (@Zdigits2_bounds (Zpos m2) ltac:(lia)) as [_ Hhi2].
    pose proof (@Zdigits2_pos (Zpos m1) ltac:(lia)) as Hp1.
    pose proof (@Zdigits2_pos (Zpos m2) ltac:(lia)) as Hp2.
    rewrite <- Hd1 in *. rewrite <- Hd2 in *.
    assert (Hs53 : 53 + d2 - d1 <= s) by lia.
    assert (H1 : 2 ^ (52 + d2) <= 2 ^ (d1 - 1 + s))
      by (apply Z.pow_le_mono_r; lia).
    rewrite (Z.pow_add_r 2 52 d2) in H1 by lia.
    rewrite (Z.pow_add_r 2 (d1 - 1) s) in H1 by lia.
    assert (H2 : 2 ^ (d1 - 1) * 2 ^ s <= m') by nia.
    assert (H52 : 0 < 2 ^ 52) by reflexivity.
    destruct (Z.le_gt_cases (2 ^ 52) q) as [|Hlt]; [assumption|].
    exfalso. assert (q + 1 <= 2 ^ 52) by lia.
    assert (m' < (q + 1) * Zpos m2) by lia.
    assert ((q + 1) * Zpos m2 <= 2 ^ 52 * Zpos m2) by nia.
    assert (2 ^ 52 * Zpos m2 <= 2 ^ 52 * 2 ^ d2) by nia.
    lia. }
  split; [reflexivity|]. repeat split; try lia.
  - rewrite <- Hs, <- Hm'. lia.
  - intros ->. unfold new_location, new_location_even, new_location_odd.
    now destruct (Z.even (Zpos m2)).
  - intros Hq0. rewrite fexp_eq.
    destruct (Z.le_gt_cases e' (-1074)) as [|He]; [lia|].
    specialize (Hbig He).
    pose proof (@Zdigits2_bounds q Hq0) as [_ Hhi].
    assert (53 <= Zdigits2 q).
    { destruct (Z.le_gt_cases 53 (Zdigits2 q)); auto.
      assert (2 ^ Zdigits2 q <= 2 ^ 52).
      { destruct (Z.le_gt_cases 0 (Zdigits2 q)).
        - apply Z.pow_le_mono_r; lia.
        - rewrite Z.pow_neg_r by lia. lia. }
      lia. }
    lia.
Qed.

(** With nothing in the integer part and an exponent below the format's,
    the rounding gives zero or the smallest number. *)
Lemma binary_round_aux_zero_mantissa (ex : Z) (lx : location) :
  ex <= -1074 ->
  binary_round_aux prec emax false 0 ex lx = S754_zero false \/
  binary_round_aux prec emax false 0 ex lx = S754_finite false 1 (-1074).
Proof.
  intros Hex.
  assert (HE : fexp prec emax (Zdigits2 0 + ex) = -1074)
    by (rewrite fexp_eq; change (Zdigits2 0) with 0; lia).
  pose proof (@shr_fexp_position 0 ex lx (Z.le_refl 0) ltac:(lia))
    as (Hsm & _ & Hse). cbv zeta in Hsm, Hse. rewrite HE in *.
  pose proof (loc_code_range lx) as Hc.
  assert (H2n : 0 < 2 ^ (-1074 - ex)) by (apply Z.pow_pos_nonneg; lia).
  rewrite Z.div_small in Hsm by lia.
  unfold binary_round_aux.
  destruct (shr_fexp prec emax 0 ex lx) as [mrs' e']. cbn [fst snd] in *.
  subst e'. rewrite Hsm.
  destruct (round_nearest_even_cases 0 (loc_of_shr_record mrs')) as [-> | ->];
    [left | right]; reflexivity.
Qed.

Lemma rank_one : SF_rank SF_one = 2 ^ 1074.
Proof. reflexivity. Qed.

(** A positive number over one that is not below it. *)
Lemma SFdiv_rank_unit (mu mw : positive) (eu ew : Z) :
  valid_binary (S754_finite false mu eu) = true ->
  valid_binary (S754_finite false mw ew) = true ->
  V (Zpos mu) eu <= V (Zpos mw) ew ->
  valid_binary (SF64div (S754_finite false mu eu) (S754_finite false mw ew))
  = true ->
  let v := SF64div (S754_finite false mu eu) (S754_finite false mw ew) in
  v <> S754_nan /\ 0 <= SF_rank v <= 2 ^ 1074 /\
  (V (Zpos mu) eu = V (Zpos mw) ew -> SF_rank v = 2 ^ 1074).
Proof.
  intros Hu Hw Hle Hvalid. cbv zeta.
  pose proof (valid_finite _ _ _ Hu) as (_ & Heu & _).
  pose proof (valid_finite _ _ _ Hw) as (_ & Hew & _).
  assert (H1074 : 0 < 2 ^ 1074) by reflexivity.
  unfold SF64div, SFdiv in *. cbn [xorb] in *.
  destruct (div_core_spec mu mw eu ew)
    as (q & r & e' & l & Hcore & Hr & Hs & HF & Hdiv & Hexact & Hq & Henough
        & Hzero).
  rewrite Hcore in *.
  (* the exponent is negative, and the quotient at most [2^-e'] *)
  assert (He' : e' <= -53).
  { pose proof (@Zdigits2_bounds (Zpos mu) ltac:(lia)) as [Hlo1 _].
    pose proof (@Zdigits2_bounds (Zpos mw) ltac:(lia)) as [_ Hhi2].
    pose proof (@Zdigits2_pos (Zpos mu) ltac:(lia)) as Hp1.
    pose proof (@Zdigits2_pos (Zpos mw) ltac:(lia)) as Hp2.
    rewrite fexp_eq in HF.
    assert (Hua : 0 < 2 ^ (eu + 1074)) by (apply Z.pow_pos_nonneg; lia).
    assert (Hwa : 0 < 2 ^ (ew + 1074)) by (apply Z.pow_pos_nonneg; lia).
    assert (H : 2 ^ (Zdigits2 (Zpos mu) - 1 + (eu + 1074))
                < 2 ^ (Zdigits2 (Zpos mw) + (ew + 1074))).
    { rewrite (Z.pow_add_r 2 (Zdigits2 (Zpos mu) - 1) (eu + 1074)) by lia.
      rewrite (Z.pow_add_r 2 (Zdigits2 (Zpos mw)) (ew + 1074)) by lia.
      unfold V in Hle.
      apply Z.le_lt_trans with (Zpos mu * 2 ^ (eu + 1074)).
      - apply Z.mul_le_mono_nonneg_r; lia.
      - apply Z.le_lt_trans with (Zpos mw * 2 ^ (ew + 1074)); [exact Hle|].
        apply Z.mul_lt_mono_pos_r; [exact Hwa | exact Hhi2]. }
    apply Z.pow_lt_mono_r_iff in H; lia. }
  set (M := 2 ^ (- e')).
  assert (HM : 0 < M) by (apply Z.pow_pos_nonneg; lia).
  assert (Hbound : q * Zpos mw + r <= Zpos mw * M).
  { rewrite <- Hdiv. unfold V in Hle.
    assert (Hwa : 0 < 2 ^ (ew + 1074)) by (apply Z.pow_pos_nonneg; lia).
    assert (Heq1 : 2 ^ (eu - ew - e') * 2 ^ (ew + 1074)
                   = 2 ^ (eu + 1074) * M).
    { subst M. rewrite <- !Z.pow_add_r by lia. f_equal. lia. }
    assert (Hle' : Zpos mu * 2 ^ (eu + 1074) * M
                   <= Zpos mw * 2 ^ (ew + 1074) * M) by nia.
    nia. }
  assert (HqM : q <= M) by nia.
  assert (HqM0 : q = M -> r = 0) by (intros ->; lia).
  assert (Hsame : V (Zpos mu) eu = V (Zpos mw) ew -> q = M).
  { intros Heq. unfold V in Heq.
    assert (Hwa : 0 < 2 ^ (ew + 1074)) by (apply Z.pow_pos_nonneg; lia).
    assert (Heq1 : 2 ^ (eu - ew - e') * 2 ^ (ew + 1074)
                   = 2 ^ (eu + 1074) * M).
    { subst M. rewrite <- !Z.pow_add_r by lia. f_equal. lia. }
    assert (Heq2 : (q * Zpos mw + r) * 2 ^ (ew + 1074)
                   = Zpos mw * M * 2 ^ (ew + 1074)).
    { rewrite <- Hdiv. rewrite <- Z.mul_assoc, Heq1. nia. }
    assert (Heq3 : q * Zpos mw + r = Zpos mw * M) by nia.
    destruct (Z.eq_dec q M) as [|Hne]; [assumption|]. exfalso.
    assert (q + 1 <= M) by lia. nia. }
  destruct (Z.eq_dec q 0) as [Hq0|Hq0].
  - (* nothing in the integer part *)
    subst q. specialize (Hzero eq_refl).
    destruct (@binary_round_aux_zero_mantissa e' l Hzero) as [-> | ->].
    + cbn [SF_rank]. repeat split; try congruence; lia.
    + cbn [SF_rank cond_Zopp]. change (V 1 (-1074)) with 1.
      repeat split; try congruence; lia.
  - assert (Hqpos : 0 < q) by lia. specialize (Henough Hqpos).
    pose proof (@binary_round_aux_rounded q e' l Hqpos Henough) as Hround.
    cbv zeta in Hround.
    remember (fexp prec emax (Zdigits2 q + e')) as E eqn:HE.
    assert (HE' : E = Z.max (Zdigits2 q + e' - 53) (-1074))
      by (subst E; apply fexp_eq).
    pose proof (@Zdigits2_bounds q Hqpos) as [Hqlo Hqhi].
    pose proof (@Zdigits2_pos q Hqpos) as Hqd.
    assert (HdM : Zdigits2 q <= - e' + 1).
    { assert (H : 2 ^ (Zdigits2 q - 1) < 2 ^ (- e' + 1)).
      { rewrite (Z.pow_add_r 2 (- e') 1) by lia. fold M. lia. }
      apply Z.pow_lt_mono_r_iff in H; lia. }
    assert (HE0 : -1074 <= E <= 0) by lia.
    pose proof (loc_code_range l) as Hc.
    set (G := 4 * 2 ^ (E - e')) in *.
    assert (HG : 0 < G)
      by (subst G; assert (0 < 2 ^ (E - e'))
                     by (apply Z.pow_pos_nonneg; lia); lia).
    assert (HMG : 4 * M = 2 ^ (- E) * G).
    { subst G M. rewrite (Z.mul_comm (2 ^ (- E))), <- Z.mul_assoc.
      rewrite <- Z.pow_add_r by lia. do 2 f_equal. lia. }
    remember (RNE (4 * q + loc_code l) G) as mr eqn:Hmr.
    assert (Hmrle : mr <= 2 ^ (- E)).
    { subst mr. apply RNE_le; [exact HG|]. rewrite <- HMG.
      destruct (Z.eq_dec q M) as [HqeqM|]; [|lia].
      rewrite (Hexact (HqM0 HqeqM)). change (loc_code loc_Exact) with 0.
      lia. }
    assert (Hmr0 : 0 <= mr).
    { subst mr. pose proof (RNE_lower (4 * q + loc_code l) G).
      assert (0 <= (4 * q + loc_code l) / G) by (apply Z.div_pos; lia).
      lia. }
    assert (Hunit : 2 ^ (- E) * 2 ^ (E + 1074) = 2 ^ 1074).
    { rewrite <- Z.pow_add_r by lia. f_equal. lia. }
    assert (HE1074 : 0 < 2 ^ (E + 1074)) by (apply Z.pow_pos_nonneg; lia).
    assert (HV : 0 <= V mr E <= 2 ^ 1074) by (unfold V; nia).
    assert (HVsame : V (Zpos mu) eu = V (Zpos mw) ew -> V mr E = 2 ^ 1074).
    { intros Heq. pose proof (Hsame Heq) as HqeqM.
      rewrite (Hexact (HqM0 HqeqM)) in Hmr.
      change (loc_code loc_Exact) with 0 in Hmr.
      rewrite Z.add_0_r, HqeqM, HMG, RNE_exact in Hmr by exact HG.
      subst mr. unfold V. exact Hunit. }
    assert (H98 : 2 ^ 1074 < 2 ^ 2098) by reflexivity.
    destruct (binary_round_aux prec emax false q e' l) as [s|s| |s m e];
      try contradiction; destruct Hround as [-> Hround].
    + cbn [SF_rank]. repeat split; try congruence; try lia.
      intros Heq. apply HVsame in Heq. rewrite Hround in Heq.
      unfold V in Heq. simpl in Heq. lia.
    + exfalso. lia.
    + cbn [SF_rank cond_Zopp]. rewrite Hround.
      repeat split; try congruence; lia.
Qed.

(** *** The normalized values *)

Lemma is_finite_not_nan (x : number) : is_finite x = true -> is_nan x = false.
Proof.
  unfold is_finite. rewrite negb_true_iff, orb_false_iff. now intros [H _].
Qed.

Lemma SFsub_finite_not_nan (x y : spec_float) :
  SF_finite x -> SF_finite y -> SF64sub x y <> S754_nan.
Proof.
  destruct x as [sx|sx| |sx mx ex]; try contradiction;
    destruct y as [sy|sy| |sy my ey]; try contradiction; intros _ _;
    unfold SF64sub, SFsub; try discriminate.
  - destruct sx, sy; discriminate.
  - apply binary_normalize_not_nan.
Qed.

Lemma clamp_rounded_nonneg (P : Z) : 0 <= P -> 0 <= clamp (rounded P).
Proof.
  intros HP. rewrite <- clamp_zero.
  apply clamp_mono, rounded_mono_nonneg. lia.
Qed.

Lemma clamp_rounded_positive (P : Z) : 0 < P -> 0 < clamp (rounded P).
Proof.
  intros HP. apply Z.lt_le_trans with (clamp (rounded 1)); [reflexivity|].
  apply clamp_mono, rounded_mono. lia.
Qed.

(** One value of a finite series, between its bounds [lo < hi] whose
    difference is finite, under the scaler: a number from 0 to 1, 0 at [lo]
    and 1 at [hi]. *)
Lemma normalize_unit (lo hi x : number) :
  is_finite lo = true -> is_finite hi = true -> is_finite x = true ->
  rank lo <= rank x <= rank hi -> rank lo < rank hi ->
  is_finite (hi - lo)%float = true ->
  let v := ((x - lo) / (hi - lo))%float in
  is_nan v = false /\ 0 <= rank v <= 2 ^ 1074 /\
  (rank x = rank lo -> rank v = 0) /\
  (rank x = rank hi -> rank v = 2 ^ 1074).
Proof.
  intros Hlo Hhi Hx Hbetween Hlt Hrange. cbv zeta.
  pose proof (is_finite_SF _ Hlo) as Flo.
  pose proof (is_finite_SF _ Hhi) as Fhi.
  pose proof (is_finite_SF _ Hx) as Fx.
  pose proof (is_finite_SF _ Hrange) as Fw.
  pose proof (Prim2SF_valid lo) as Vlo.
  pose proof (Prim2SF_valid hi) as Vhi.
  pose proof (Prim2SF_valid x) as Vx.
  pose proof (Prim2SF_valid (hi - lo)) as Vw.
  pose proof (Prim2SF_valid (x - lo)) as Vu.
  pose proof (Prim2SF_valid ((x - lo) / (hi - lo))) as Vv.
  assert (Hnan : forall y : number,
             Prim2SF y <> S754_nan -> is_nan y = false).
  { intros y Hy. destruct (is_nan y) eqn:E; [|reflexivity].
    apply Prim2SF_nan in E. contradiction. }
  assert (Hnv : SF64div (SF64sub (Prim2SF x) (Prim2SF lo))
                        (SF64sub (Prim2SF hi) (Prim2SF lo)) <> S754_nan ->
                is_nan ((x - lo) / (hi - lo))%float = false).
  { intros H. apply Hnan. now rewrite div_spec, !sub_spec. }
  clear Hnan.
  unfold rank in *. rewrite div_spec in *.
  rewrite (sub_spec hi lo) in *. rewrite (sub_spec x lo) in *.
  pose proof (@SFsub_rank _ _ Vhi Vlo Fhi Flo ltac:(lia) Vw) as Rw.
  pose proof (@SFsub_rank _ _ Vx Vlo Fx Flo ltac:(lia) Vu) as Ru.
  pose proof (@SFsub_finite_not_nan _ _ Fx Flo) as Nu.
  pose proof (@clamp_rounded_positive
                (SF_rank (Prim2SF hi) - SF_rank (Prim2SF lo)) ltac:(lia))
    as Hwpos.
  pose proof (@clamp_rounded_nonneg
                (SF_rank (Prim2SF x) - SF_rank (Prim2SF lo)) ltac:(lia))
    as Hu0.
  assert (Huw : clamp (rounded (SF_rank (Prim2SF x) - SF_rank (Prim2SF lo)))
                <= clamp (rounded (SF_rank (Prim2SF hi)
                                   - SF_rank (Prim2SF lo))))
    by (apply clamp_mono, rounded_mono_nonneg; lia).
  rewrite <- Rw in Hwpos, Huw. rewrite <- Ru in Hu0, Huw.
  assert (Hatlo : SF_rank (Prim2SF x) = SF_rank (Prim2SF lo) ->
                  SF_rank (SF64sub (Prim2SF x) (Prim2SF lo)) = 0).
  { intros Heq. rewrite Ru, Heq, Z.sub_diag. exact clamp_zero. }
  assert (Hathi : SF_rank (Prim2SF x) = SF_rank (Prim2SF hi) ->
                  SF_rank (SF64sub (Prim2SF x) (Prim2SF lo))
                  = SF_rank (SF64sub (Prim2SF hi) (Prim2SF lo))).
  { intros Heq. now rewrite Ru, Rw, Heq. }
  clear Rw Ru.
  assert (H1074 : 0 < 2 ^ 1074) by reflexivity.
  assert (Hbig : 2 ^ 2098 < 2 ^ 2100) by reflexivity.
  destruct (SF64sub (Prim2SF hi) (Prim2SF lo)) as [sw|sw| |sw mw ew];
    try contradiction; cbn [SF_rank] in Hwpos, Huw, Hathi; [lia|].
  pose proof (V_valid_bounds _ _ _ Vw) as [Hw0 Hw1].
  destruct sw; cbn [cond_Zopp] in Hwpos, Huw, Hathi; [lia|].
  destruct (SF64sub (Prim2SF x) (Prim2SF lo)) as [su|su| |su mu eu];
    try congruence.
  - cbn [SF_rank] in *. unfold SF64div, SFdiv. cbn [SF_rank].
    split; [apply Hnv; discriminate|]. repeat split; lia.
  - exfalso. destruct su; cbn [SF_rank cond_Zopp] in *; lia.
  - pose proof (V_valid_bounds _ _ _ Vu) as [Hu1 Hu2].
    destruct su; cbn [SF_rank cond_Zopp] in Hu0, Huw, Hatlo, Hathi; [lia|].
    destruct (@SFdiv_rank_unit mu mw eu ew Vu Vw Huw Vv)
      as (Nv & Hv & Hsame).
    split; [apply Hnv; exact Nv|]. split; [exact Hv|]. split.
    + intros Heq. apply Hatlo in Heq. lia.
    + intros Heq. apply Hsame. now apply Hathi.
Qed.

Lemma rank_of_one : rank 1%float = 2 ^ 1074.
Proof. reflexivity. Qed.

Lemma rank_of_zero : rank zero = 0.
Proof. reflexivity. Qed.

Lemma normalizeData_fitted (data : list number) :
  Forall (fun x => is_finite x = true) data ->
  let s := snd (normalizeData data) in
  (min s <? max s)%float = true ->
  is_finite (max s - min s)%float = true ->
  is_nan (min s) = false /\ is_nan (max s) = false /\
  forall x, In x data ->
    is_nan x = false /\
    is_nan (normalize s x) = false /\
    0 <= rank (normalize s x) <= 2 ^ 1074 /\
    (rank x = rank (min s) -> rank (normalize s x) = 0) /\
    (rank x = rank (max s) -> rank (normalize s x) = 2 ^ 1074).
Proof.
  intros Hdata s Hlt Hrange.
  assert (Hne : data <> []).
  { intros ->. subst s. discriminate Hlt. }
  assert (Hnn : Forall (fun x => is_nan x = false) data).
  { eapply Forall_impl; [|exact Hdata]. apply is_finite_not_nan. }
  destruct (@Math_min_spec data Hne Hnn) as (Hnmin & Hinmin & Hmin).
  destruct (@Math_max_spec data Hne Hnn) as (Hnmax & Hinmax & Hmax).
  rewrite Forall_forall in Hdata, Hmin, Hmax, Hnn.
  subst s. unfold normalizeData in *. cbn [fst snd min max] in *.
  unfold normalize, scale. cbn [min max].
  rewrite ltb_rank in Hlt by assumption. apply Z.ltb_lt in Hlt.
  pose proof (Hdata _ Hinmin) as Hfmin.
  pose proof (Hdata _ Hinmax) as Hfmax.
  split; [exact Hnmin|]. split; [exact Hnmax|].
  intros x Hin. split; [now apply Hnn|].
  apply normalize_unit; auto.
Qed.

(** X19. The scaler fitted to a series of finite prices that are not all
    equal, with a finite range [max - min], maps every price of the series
    to a number from 0 to 1: the normalized series that [normalizeData]
    returns lies in the unit interval. *)
Theorem normalizeData_unit_range (data : list number) :
  Forall (fun x => is_finite x = true) data ->
  let s := snd (normalizeData data) in
  (min s <? max s)%float = true ->
  is_finite (max s - min s)%float = true ->
  Forall (fun v => ((zero <=? v) && (v <=? 1))%float = true)
         (fst (normalizeData data)).
Proof.
  intros Hdata s Hlt Hrange.
  destruct (@normalizeData_fitted data Hdata Hlt Hrange) as (_ & _ & Hone).
  fold s in Hone.
  change (fst (normalizeData data)) with (map (normalize s) data).
  rewrite Forall_forall. intros v Hv. apply in_map_iff in Hv.
  destruct Hv as (x & <- & Hin).
  destruct (Hone x Hin) as (_ & Hn & Hr & _).
  rewrite !leb_rank by (auto; reflexivity).
  rewrite rank_of_one, rank_of_zero.
  apply andb_true_intro. split; apply Z.leb_le; lia.
Qed.

(** X20. Under the same conditions the two ends are attained: a price equal
    to the minimum of the series is normalized to 0, and a price equal to
    the maximum to 1. *)
Theorem normalizeData_ends (data : list number) :
  Forall (fun x => is_finite x = true) data ->
  let s := snd (normalizeData data) in
  (min s <? max s)%float = true ->
  is_finite (max s - min s)%float = true ->
  Forall (fun x =>
            ((x =? min s)%float = true ->
             (normalize s x =? zero)%float = true) /\
            ((x =? max s)%float = true ->
             (normalize s x =? 1)%float = true)) data.
Proof.
  intros Hdata s Hlt Hrange.
  destruct (@normalizeData_fitted data Hdata Hlt Hrange)
    as (Hnmin & Hnmax & Hone).
  fold s in Hnmin, Hnmax, Hone.
  rewrite Forall_forall. intros x Hin.
  destruct (Hone x Hin) as (Hnx & Hn & _ & H0 & H1).
  split; intros Heq.
  - rewrite eqb_rank in Heq by assumption. apply Z.eqb_eq in Heq.
    rewrite eqb_rank by (auto; reflexivity).
    rewrite rank_of_zero. apply Z.eqb_eq. now apply H0.
  - rewrite eqb_rank in Heq by assumption. apply Z.eqb_eq in Heq.
    rewrite eqb_rank by (auto; reflexivity).
    rewrite rank_of_one. apply Z.eqb_eq. now apply H1.
Qed.

(** ** The claims on concrete runs *)

Lemma predict_iterative_rollout_witness :
  (0 < 2 <= length [1; 2; 3; 4; 5; 6]%float)%nat /\
  exists out,
    predict (Demo.stored [3; 4]%float {| min := 1; max := 6 |})
            Demo.now [1; 2; 3; 4; 5; 6]%float 2 3 = Ok out.
Proof.
  split; [simpl; lia|].
  apply (predict_iterative_rollout (tf := Demo.backend)
           [3; 4]%float {| min := 1; max := 6 |} Demo.now
           [1; 2; 3; 4; 5; 6]%float (lookback := 2) 3).
  - simpl; lia.
  - intros window. eexists. reflexivity.
Defined.



(** C9, as stated, fails: on a fresh service, a training whose [model.fit]
    throws is followed by a forecast, not by
    [Error('Model not trained yet')]. *)
Lemma predict_after_failed_training :
  snd (trainModel (tf := Demo.failing) fresh [1; 2; 3; 4; 5; 6]%float 50 2)
  = Throw (Error "fit failed") /\
  exists out,
    predict (tf := Demo.failing)
            (fst (trainModel (tf := Demo.failing) fresh
                             [1; 2; 3; 4; 5; 6]%float 50 2))
            Demo.now [1; 2; 3; 4; 5; 6]%float 2 3
    = Ok out /\
    length out = 3%nat.
Proof.
  split; [reflexivity|]. eexists. split; reflexivity.
Qed.

Lemma trainModel_insufficient_data_witness :
  (length [1; 2]%float <= 2)%nat /\
  fst (createSequences (fst (normalizeData [1; 2]%float)) 2) = [] /\
  snd (trainModel (tf := Demo.backend) fresh [1; 2]%float 50 2)
  = Throw not_enough_data.
Proof.
  split; [simpl; lia|].
  apply (trainModel_insufficient_data (tf := Demo.backend)
           fresh [1; 2]%float 50 (lookback := 2)).
  simpl; lia.
Defined.

Lemma trainModel_failure_witness :
  (length [10; 20]%float <= 2)%nat /\
  snd (trainModel Demo.trained [10; 20]%float 50 2) = Throw not_enough_data /\
  model (fst (trainModel Demo.trained [10; 20]%float 50 2))
  = model Demo.trained /\
  scaler (fst (trainModel Demo.trained [10; 20]%float 50 2))
  = Some {| min := 10; max := 20 |}.
Proof.
  split; [simpl; lia|].
  pose proof (trainModel_failure_keeps_model_replaces_scaler
                Demo.trained [10; 20]%float 50 (lookback := 2)
                ltac:(simpl; lia)) as H.
  cbv zeta in H. destruct H as (H1 & H2 & H3 & _).
  exact (conj H1 (conj H2 H3)).
Defined.

Lemma calculateMovingAverage_mean_witness :
  0 < 2 /\
  length (Stock.calculateMovingAverage (Demo.points [10; 20; 30]%float) 2)
  = length (Demo.points [10; 20; 30]%float).
Proof.
  split; [lia|].
  apply (@calculateMovingAverage_mean (Demo.points [10; 20; 30]%float) 2).
  lia.
Defined.

(** ** The further properties on concrete runs *)

Lemma trainModel_then_predict_witness :
  (2 < length [1; 2; 3; 4; 5; 6]%float)%nat /\
  snd (trainModel (tf := Demo.backend) fresh [1; 2; 3; 4; 5; 6]%float 50 2)
  = Ok tt /\
  exists out,
    predict (fst (trainModel (tf := Demo.backend) fresh
                             [1; 2; 3; 4; 5; 6]%float 50 2))
            Demo.now [1; 2; 3; 4; 5; 6]%float 2 3 = Ok out /\
    length out = 3%nat.
Proof.
  split; [simpl; lia|].
  pose proof (@trainModel_then_predict Demo.backend fresh
                [1; 2; 3; 4; 5; 6]%float 50 2 Demo.now 3
                ltac:(simpl; lia) eq_refl eq_refl) as H.
  destruct H as (Hok & _ & _ & _ & Hout).
  split; [exact Hok|]. apply Hout.
  intros window. eexists. reflexivity.
Defined.

Lemma trainModel_library_failure_witness :
  (2 < length [1; 2; 3; 4; 5; 6]%float)%nat /\
  snd (trainModel (tf := Demo.failing) fresh [1; 2; 3; 4; 5; 6]%float 50 2)
  = Throw (Error "fit failed") /\
  model (fst (trainModel (tf := Demo.failing) fresh
                         [1; 2; 3; 4; 5; 6]%float 50 2)) <> None.
Proof.
  split; [simpl; lia|].
  destruct (@trainModel_library_failure Demo.failing fresh
              [1; 2; 3; 4; 5; 6]%float 50 2 (Error "fit failed")
              ltac:(simpl; lia)) as [_ H].
  destruct (H eq_refl eq_refl) as [Heq _]. rewrite Heq.
  split; [reflexivity | discriminate].
Defined.

Lemma predict_reads_last_lookback_witness :
  (0 < 2)%nat /\
  predict Demo.trained Demo.now [9; 1; 2]%float 2 3
  = predict Demo.trained Demo.now [7; 7; 1; 2]%float 2 3.
Proof.
  split; [lia|].
  apply (@predict_reads_last_lookback Demo.backend Demo.trained Demo.now
           [9; 1; 2]%float [7; 7; 1; 2]%float 2 3); [lia | reflexivity].
Defined.

Lemma predict_window_size_witness :
  [1; 2; 3]%float <> [] /\
  predict (Demo.stored [3; 4]%float {| min := 1; max := 6 |})
          Demo.now [1; 2; 3]%float 5 3
  = predict (Demo.stored [5; 6]%float {| min := 1; max := 6 |})
            Demo.now [1; 2; 3]%float 5 3.
Proof.
  split; [discriminate|].
  apply (@predict_window_size Demo.backend [3; 4]%float [5; 6]%float
           {| min := 1; max := 6 |} Demo.now [1; 2; 3]%float 5 3);
    [discriminate | reflexivity].
Defined.

Lemma predict_horizon_prefix_witness :
  exists out,
    predict Demo.trained Demo.now [1; 2; 3]%float 2 (2 + 1) = Ok out /\
    predict Demo.trained Demo.now [1; 2; 3]%float 2 2 = Ok (firstn 2 out).
Proof.
  eexists. split; [reflexivity|].
  apply (@predict_horizon_prefix Demo.backend Demo.trained Demo.now
           [1; 2; 3]%float 2 2 1). reflexivity.
Defined.

Lemma normalizeData_nan_poisons_witness :
  (exists x, In x [1; nan; 3]%float /\ is_nan x = true) /\
  normalizeData [1; nan; 3]%float
  = ([nan; nan; nan], {| min := nan; max := nan |}).
Proof.
  assert (H : exists x, In x [1; nan; 3]%float /\ is_nan x = true).
  { exists nan. split; [right; left; reflexivity | reflexivity]. }
  split; [exact H|].
  exact (@normalizeData_nan_poisons [1; nan; 3]%float H).
Defined.

Lemma normalizeData_scaler_bounds_witness :
  [3; 1; 2]%float <> [] /\
  In (min (snd (normalizeData [3; 1; 2]%float))) [3; 1; 2]%float /\
  In (max (snd (normalizeData [3; 1; 2]%float))) [3; 1; 2]%float.
Proof.
  split; [discriminate|].
  pose proof (@normalizeData_scaler_bounds [3; 1; 2]%float
                ltac:(discriminate) ltac:(repeat constructor)) as H.
  cbv zeta in H. destruct H as (H1 & H2 & _). exact (conj H1 H2).
Defined.

Lemma calculateRSI_nonpositive_period_witness :
  0 <= 0 /\
  Stock.calculateRSI (Demo.points [1; 2; 3]%float) 0
  = Throw (TypeError "Reduce of empty array with no initial value").
Proof.
  split; [lia|].
  exact (@calculateRSI_nonpositive_period (Demo.points [1; 2; 3]%float) 0
           ltac:(lia)).
Defined.

Lemma calculateMovingAverage_nonpositive_period_witness :
  - 2 ^ 53 < -3 <= 0 /\
  Stock.calculateMovingAverage (Demo.points [1; 2]%float) (-3)
  = [neg_zero; neg_zero].
Proof.
  assert (H : - 2 ^ 53 < -3 <= 0) by (split; [reflexivity | discriminate]).
  split; [exact H|].
  exact (@calculateMovingAverage_nonpositive_period
           (Demo.points [1; 2]%float) (-3) H).
Defined.

Lemma calculateRSI_window_witness :
  0 < 2 /\
  exists rsi,
    Stock.calculateRSI (Demo.points [1; 2; 4; 3]%float) 2 = Ok rsi /\
    nth 1 rsi zero = nan.
Proof.
  split; [lia|].
  destruct (@calculateRSI_window (Demo.points [1; 2; 4; 3]%float) 2
              ltac:(lia)) as (rsi & Heq & Hw).
  exists rsi. split; [exact Heq|].
  apply (Hw 1%nat); simpl; lia.
Defined.




Lemma normalizeData_unit_range_witness :
  Forall (fun x => is_finite x = true) [3; 1; 2]%float /\
  Forall (fun v => ((zero <=? v) && (v <=? 1))%float = true)
         (fst (normalizeData [3; 1; 2]%float)).
Proof.
  assert (H : Forall (fun x => is_finite x = true) [3; 1; 2]%float)
    by (repeat constructor).
  split; [exact H|].
  exact (@normalizeData_unit_range [3; 1; 2]%float H eq_refl eq_refl).
Defined.

Lemma normalizeData_ends_witness :
  Forall (fun x => is_finite x = true) [3; 1; 2]%float /\
  (normalize (snd (normalizeData [3; 1; 2]%float)) 1 =? zero)%float = true /\
  (normalize (snd (normalizeData [3; 1; 2]%float)) 3 =? 1)%float = true.
Proof.
  assert (H : Forall (fun x => is_finite x = true) [3; 1; 2]%float)
    by (repeat constructor).
  split; [exact H|].
  pose proof (@normalizeData_ends [3; 1; 2]%float H eq_refl eq_refl) as E.
  cbv zeta in E. rewrite Forall_forall in E.
  split.
  - apply (E 1%float); [right; left; reflexivity | reflexivity].
  - apply (E 3%float); [left; reflexivity | reflexivity].
Defined.
